(** * DQRVCS gossip core: operation log, peer registry, pending-push queue

    A shallow embedding of the Go package [gossip] (store.go, pending.go)
    and of [processPendingPushes] from the [vcs] command, with the
    properties of the design document stated and proved against it.

    Conventions.
    - A Go [string] is a [string] (a sequence of bytes); a [[]byte] or
      [json.RawMessage] is a [list byte].
    - [uint64] is an [N] whose wrap-around is written out where the code
      adds; [int] is a [Z], 64 bits wide where the code increments.
    - Go maps are [gmap]s, Go sets ([map[string]struct{}]) are [gset]s.
    - Every method of [Store] runs under the store's lock, so a method is
      one atomic state transition [Store -> result * Store].
    - The clock and the file system are inputs: a method that reads
      [time.Now()] takes the reading as an argument, a method that writes a
      file takes the outcome of the write as an argument. *)

From Stdlib Require Import ZArith NArith List Ascii String Bool Lia.
From Stdlib Require Import Sorting.Sorted Sorting.Permutation DecimalString.
From Stdlib Require Import DecimalPos DecimalN.
From Stdlib Require Import OrderedTypeEx.
From stdpp Require Import base gmap strings list sets.

Import ListNotations.
Local Open Scope N_scope.

(** ** Go standard-library helpers with a closed-form definition *)

Module Go.

Abbreviation byte := Byte.byte.
Definition bytes := list byte.

(** [json.RawMessage(`{}`)] *)
Definition emptyObject : bytes := [Byte.x7b; Byte.x7d].

(** [bytes.Equal] *)
Fixpoint bytesEqual (a b : bytes) : bool :=
  match a, b with
  | [], [] => true
  | x :: a', y :: b' => Byte.eqb x y && bytesEqual a' b'
  | _, _ => false
  end.

(** Go compares strings bytewise; so does [String.compare]. *)
Definition string_ltb (a b : string) : bool :=
  match String.compare a b with Lt => true | _ => false end.

Definition string_eqb (a b : string) : bool := bool_decide (a = b).

(** [strings.HasPrefix] *)
Fixpoint hasPrefix (s pre : string) {struct pre} : bool :=
  match pre, s with
  | EmptyString, _ => true
  | String c pre', String d s' => bool_decide (c = d) && hasPrefix s' pre'
  | String _ _, EmptyString => false
  end.

(** [s[len(pre):]] *)
Fixpoint dropBytes (n : nat) (s : string) : string :=
  match n, s with
  | O, _ => s
  | S n', String _ s' => dropBytes n' s'
  | S _, EmptyString => EmptyString
  end.

(** [strings.Contains] *)
Fixpoint contains (s sub : string) : bool :=
  hasPrefix s sub ||
  match s with
  | EmptyString => false
  | String _ s' => contains s' sub
  end.

Definition rev_string (s : string) : string :=
  string_of_list_ascii (rev (list_ascii_of_string s)).

(** [strings.HasSuffix] and [strings.TrimSuffix] *)
Definition hasSuffix (s suf : string) : bool :=
  hasPrefix (rev_string s) (rev_string suf).

Definition trimSuffix (s suf : string) : string :=
  if hasSuffix s suf
  then rev_string (dropBytes (String.length suf) (rev_string s))
  else s.

(** [strings.TrimSpace] removes leading and trailing Unicode white space.
    On a byte string that is: the six ASCII space bytes and the UTF-8
    encodings of U+0085, U+00A0, U+1680, U+2000..U+200A, U+2028, U+2029,
    U+202F, U+205F and U+3000. *)
Definition bs (l : list nat) : string :=
  fold_right (fun n s => String (ascii_of_nat n) s) EmptyString l.

Definition whiteSpace : list string :=
  map bs
    [ [9]; [10]; [11]; [12]; [13]; [32];
      [194; 133]; [194; 160]; [225; 154; 128];
      [226; 128; 128]; [226; 128; 129]; [226; 128; 130]; [226; 128; 131];
      [226; 128; 132]; [226; 128; 133]; [226; 128; 134]; [226; 128; 135];
      [226; 128; 136]; [226; 128; 137]; [226; 128; 138];
      [226; 128; 168]; [226; 128; 169]; [226; 128; 175];
      [226; 129; 159]; [227; 128; 128] ]%nat.

(** The first white-space token that [s] starts with, if any. *)
Fixpoint leadingSpace (tokens : list string) (s : string) : option nat :=
  match tokens with
  | [] => None
  | t :: ts => if hasPrefix s t then Some (String.length t)
               else leadingSpace ts s
  end.

Fixpoint trimLeftFuel (fuel : nat) (tokens : list string) (s : string) : string :=
  match fuel with
  | O => s
  | S fuel' =>
      match leadingSpace tokens s with
      | Some n => trimLeftFuel fuel' tokens (dropBytes n s)
      | None => s
      end
  end.

Definition trimLeft (s : string) : string :=
  trimLeftFuel (String.length s) whiteSpace s.

Definition trimRight (s : string) : string :=
  let r := rev_string s in
  rev_string (trimLeftFuel (String.length r) (map rev_string whiteSpace) r).

Definition TrimSpace (s : string) : string := trimRight (trimLeft s).

(** [hex.EncodeToString] *)
Definition hexDigit (n : N) : ascii :=
  if n <? 10 then ascii_of_N (48 + n) else ascii_of_N (87 + n).

Definition hexByte (b : Byte.byte) : string :=
  let n := Byte.to_N b in
  String (hexDigit (n / 16)) (String (hexDigit (n mod 16)) EmptyString).

Fixpoint hexEncode (l : bytes) : string :=
  match l with
  | [] => EmptyString
  | b :: l' => hexByte b +:+ hexEncode l'
  end.

(** [fmt.Sprintf("%d", n)] *)
Definition fmtN (n : N) : string := NilZero.string_of_uint (N.to_uint n).
Definition fmtZ (z : Z) : string := NilZero.string_of_int (Z.to_int z).

(** [sort.SliceStable] and [sort.Strings]: a stable sort.  The result of a
    stable sort is determined by the input and the comparison, whatever
    the algorithm; insertion from the right is the one written here.
    [x] is placed before the first element that is not smaller than it,
    so elements that compare equal keep their order. *)
Section Sort.
Context {A : Type} (less : A -> A -> bool).

Fixpoint insertStable (x : A) (l : list A) : list A :=
  match l with
  | [] => [x]
  | y :: l' => if less y x then y :: insertStable x l' else x :: y :: l'
  end.

Definition sortStable (l : list A) : list A :=
  fold_right insertStable [] l.
End Sort.

(** [dropCR] of bufio: a final carriage return is taken off the line. *)
Definition cr : string := bs [13%nat].
Definition dropCR (data : string) : string := trimSuffix data cr.

(** [utf8.ValidString]: the bytes are the UTF-8 encoding of a sequence of
    code points, each in its shortest form, none of them a surrogate or
    above U+10FFFF. *)
Definition inRange (lo hi : N) (c : ascii) : bool :=
  let n := N_of_ascii c in (lo <=? n) && (n <=? hi).

Fixpoint utf8Valid (s : string) : bool :=
  match s with
  | EmptyString => true
  | String c rest =>
      if inRange 0 127 c then utf8Valid rest
      else
        match rest with
        | EmptyString => false
        | String c1 rest1 =>
            if inRange 194 223 c then inRange 128 191 c1 && utf8Valid rest1
            else
              match rest1 with
              | EmptyString => false
              | String c2 rest2 =>
                  if inRange 224 224 c
                  then inRange 160 191 c1 && inRange 128 191 c2 && utf8Valid rest2
                  else if inRange 225 236 c || inRange 238 239 c
                  then inRange 128 191 c1 && inRange 128 191 c2 && utf8Valid rest2
                  else if inRange 237 237 c
                  then inRange 128 159 c1 && inRange 128 191 c2 && utf8Valid rest2
                  else
                    match rest2 with
                    | EmptyString => false
                    | String c3 rest3 =>
                        let tail := inRange 128 191 c2 && inRange 128 191 c3
                                    && utf8Valid rest3 in
                        if inRange 240 240 c then inRange 144 191 c1 && tail
                        else if inRange 241 243 c then inRange 128 191 c1 && tail
                        else if inRange 244 244 c then inRange 128 143 c1 && tail
                        else false
                    end
              end
        end
  end.

(** Two's-complement wrap-around of a 64-bit [int]. *)
Definition wrapInt (z : Z) : Z :=
  ((z + 2 ^ 63) mod 2 ^ 64 - 2 ^ 63)%Z.

(** Wrap-around of [uint64]. *)
Definition wrapUint64 (n : N) : N := n mod 2 ^ 64.

(** [strings.TrimPrefix] *)
Definition trimPrefix (s pre : string) : string :=
  if hasPrefix s pre then dropBytes (String.length pre) s else s.

(** The text before and after the first occurrence of [sep] in [s]:
    [strings.Index] and the two slices around the match. *)
Fixpoint cutAt (s sep : string) : option (string * string) :=
  if hasPrefix s sep then Some (EmptyString, dropBytes (String.length sep) s)
  else
    match s with
    | EmptyString => None
    | String c s' =>
        match cutAt s' sep with
        | Some (before, after) => Some (String c before, after)
        | None => None
        end
    end.

(** [strings.SplitN(s, sep, 2)] with a separator that is not empty, as it
    is at every call. *)
Definition SplitN2 (s sep : string) : list string :=
  match cutAt s sep with
  | Some (before, after) => [before; after]
  | None => [s]
  end.

(** [strings.Split(s, sep)] with a separator that is not empty: a cut
    takes the separator away, so as many cuts as [s] has bytes reach its
    end. *)
Fixpoint splitFuel (fuel : nat) (s sep : string) : list string :=
  match fuel with
  | O => [s]
  | S fuel' =>
      match cutAt s sep with
      | Some (before, after) => before :: splitFuel fuel' after sep
      | None => [s]
      end
  end.

Definition Split (s sep : string) : list string :=
  splitFuel (String.length s) s sep.

End Go.


(** ** Go standard-library primitives taken as an interface

    Hashing, signatures, base64, the JSON encoder, the time parser and the
    URL parser are library code.  The package is modelled over any
    implementation of them; [Reference] below gives one that computes. *)

(** The fields of [url.URL] that [url.Parse] fills in and [URL.String]
    prints, user information and raw (escaped) forms apart. *)
Record URL := {
  Scheme : string;
  Opaque : string;
  Host : string;
  Path : string;
  OmitHost : bool;
  ForceQuery : bool;
  RawQuery : string;
  Fragment : string
}.

Class GoLib := {
  (** [sha256.Sum256], also reached through [sha256.New] / [Write] / [Sum] *)
  sha256_Sum : Go.bytes -> Go.bytes;
  (** [ed25519.GenerateKey]: the public and the private key made of the
      32 bytes that it reads from the random source *)
  ed25519_GenerateKey : Go.bytes -> Go.bytes * Go.bytes;
  (** [ed25519.Sign priv message] *)
  ed25519_Sign : Go.bytes -> Go.bytes -> Go.bytes;
  (** [ed25519.Verify pub message sig] *)
  ed25519_Verify : Go.bytes -> Go.bytes -> Go.bytes -> bool;
  (** [base64.StdEncoding] *)
  base64_EncodeToString : Go.bytes -> string;
  base64_DecodeString : string -> option Go.bytes;
  (** [json.Valid] *)
  json_Valid : Go.bytes -> bool;
  (** [json.Marshal] of the struct [signable]: type, author, seq,
      timestamp, payload, public_key, in that order *)
  json_MarshalSignable :
    string -> string -> N -> string -> Go.bytes -> string -> option Go.bytes;
  (** [time.Parse(time.RFC3339Nano, s)] succeeds *)
  time_ParseRFC3339Nano : string -> bool;
  (** [url.Parse] and the [String] method of [URL] *)
  url_Parse : string -> option URL;
  url_String : URL -> string
}.

(** ** Package gossip *)

Module Gossip.
Import Go.

(** The errors of the package, one constructor per message. *)
Inductive error :=
(* AppendLocalOp *)
| ErrOpTypeRequired          (* operation type is required *)
| ErrPayloadNotJSON          (* payload must be valid JSON *)
| ErrAlreadyExists           (* operation already exists *)
(* verifyOperation *)
| ErrIDRequired              (* operation ID is required *)
| ErrTypeRequired            (* operation type is required *)
| ErrAuthorRequired          (* operation author is required *)
| ErrSeqZero                 (* operation sequence must be > 0 *)
| ErrTimestamp               (* invalid timestamp *)
| ErrPublicKeyEncoding       (* invalid public key encoding *)
| ErrPublicKeyLength         (* invalid public key length *)
| ErrAuthorMismatch          (* operation author does not match public key *)
| ErrSignatureEncoding       (* invalid signature encoding *)
| ErrSignatureLength         (* invalid signature length *)
| ErrOpPayloadNotJSON        (* operation payload must be valid JSON *)
| ErrMarshal                 (* json.Marshal failed *)
| ErrSignature               (* invalid signature *)
| ErrIDMismatch              (* operation ID does not match content/signature *)
(* addOperationLocked *)
| ErrConflict (author : string) (seq : N)
                             (* conflicting operations for %s seq=%d *)
| ErrAppendOp                (* open ops log / append operation *)
(* normalizePeer, AddPeer *)
| ErrPeerEmpty               (* peer address cannot be empty *)
| ErrPeerURL                 (* invalid peer URL *)
| ErrPeerScheme              (* peer URL scheme must be http or https *)
| ErrPeerHost                (* peer URL host is required *)
| ErrPeerQueryOrFragment     (* peer URL cannot include query or fragment *)
| ErrWriteJSON               (* write temp JSON file / rename *)
(* pending.go *)
| ErrPushProposalIDRequired  (* pending push proposal ID is required *)
| ErrPushTargetRefRequired   (* pending push target ref is required *)
| ErrPushStatus (status : string)
                             (* invalid pending push status %q *)
| ErrProposalIDRequired      (* proposal ID is required *)
| ErrPushNotFound (proposalID : string).
                             (* pending push for proposal %q not found *)

Inductive result (A : Type) :=
| Ok (a : A)
| Err (e : error).
Arguments Ok {A} a.
Arguments Err {A} e.

Definition metadataDirName : string := ".vcs".
Definition gossipDirName : string := "gossip".
Definition opsFileName : string := "ops.log".
Definition PublicKeySize : nat := 32.
Definition SignatureSize : nat := 64.
Definition PrivateKeySize : nat := 64.
Definition SeedSize : nat := 32.

Record Identity := {
  NodeID : string;
  IdPublicKey : string;
  IdPrivateKey : string
}.

Record Operation := {
  ID : string;
  Type_ : string;
  Author : string;
  Seq : N;
  Timestamp : string;
  Payload : bytes;
  PublicKey : string;
  Signature : string
}.

Definition setID (op : Operation) (v : string) : Operation :=
  {| ID := v; Type_ := Type_ op; Author := Author op; Seq := Seq op;
     Timestamp := Timestamp op; Payload := Payload op;
     PublicKey := PublicKey op; Signature := Signature op |}.
Definition setType (op : Operation) (v : string) : Operation :=
  {| ID := ID op; Type_ := v; Author := Author op; Seq := Seq op;
     Timestamp := Timestamp op; Payload := Payload op;
     PublicKey := PublicKey op; Signature := Signature op |}.
Definition setAuthor (op : Operation) (v : string) : Operation :=
  {| ID := ID op; Type_ := Type_ op; Author := v; Seq := Seq op;
     Timestamp := Timestamp op; Payload := Payload op;
     PublicKey := PublicKey op; Signature := Signature op |}.
Definition setSeq (op : Operation) (v : N) : Operation :=
  {| ID := ID op; Type_ := Type_ op; Author := Author op; Seq := v;
     Timestamp := Timestamp op; Payload := Payload op;
     PublicKey := PublicKey op; Signature := Signature op |}.
Definition setTimestamp (op : Operation) (v : string) : Operation :=
  {| ID := ID op; Type_ := Type_ op; Author := Author op; Seq := Seq op;
     Timestamp := v; Payload := Payload op;
     PublicKey := PublicKey op; Signature := Signature op |}.
Definition setPayload (op : Operation) (v : bytes) : Operation :=
  {| ID := ID op; Type_ := Type_ op; Author := Author op; Seq := Seq op;
     Timestamp := Timestamp op; Payload := v;
     PublicKey := PublicKey op; Signature := Signature op |}.
Definition setPublicKey (op : Operation) (v : string) : Operation :=
  {| ID := ID op; Type_ := Type_ op; Author := Author op; Seq := Seq op;
     Timestamp := Timestamp op; Payload := Payload op;
     PublicKey := v; Signature := Signature op |}.
Definition setSignature (op : Operation) (v : string) : Operation :=
  {| ID := ID op; Type_ := Type_ op; Author := Author op; Seq := Seq op;
     Timestamp := Timestamp op; Payload := Payload op;
     PublicKey := PublicKey op; Signature := v |}.

(** [Store]: the fields the methods read and write.  [repoRoot], [dir]
    and the mutex have no counterpart: paths are fixed and every method
    is one transition. *)
Record Store := {
  identity : Identity;
  privateKey : bytes;
  ops : list Operation;
  opIDs : gset string;
  seqByAuthor : gmap string N;
  authorSeqIndex : gmap string string;
  peers : list string
}.

(** The store [OpenStore] has built when [loadIdentity] and [loadPeers]
    are done and [loadOps] starts: [ps] is the content of [peers.json].
    [loadOps] then calls [addOperationLocked] once per line of [ops.log]. *)
Definition newStore (id : Identity) (priv : bytes) (ps : list string) : Store :=
  {| identity := id; privateKey := priv; ops := []; opIDs := ∅;
     seqByAuthor := ∅; authorSeqIndex := ∅; peers := ps |}.

(** [m[k]] on a [map[string]uint64]: zero when absent. *)
Definition seqOf (m : gmap string N) (k : string) : N :=
  default 0 (m !! k).

Section WithLib.
Context {L : GoLib}.

Definition nodeIDFromPublicKey (pub : bytes) : string :=
  hexEncode (firstn 16 (sha256_Sum pub)).

(** [seed] is what [ed25519.GenerateKey] reads from [rand.Reader] and
    [writeOK] the outcome of [writeJSONAtomic]; the result is the identity
    and the private key that the store keeps. *)
Definition generateIdentity (seed : bytes) (writeOK : bool)
  : result (Identity * bytes) :=
  let '(pub, priv) := ed25519_GenerateKey seed in
  let identity :=
    {| NodeID := nodeIDFromPublicKey pub;
       IdPublicKey := base64_EncodeToString pub;
       IdPrivateKey := base64_EncodeToString priv |} in
  if writeOK then Ok (identity, priv) else Err ErrWriteJSON.

Definition cloneRawJSON (i : bytes) : bytes :=
  match i with
  | [] => []
  | _ :: _ => i
  end.

Definition canonicalOperationBytes (op : Operation) : result bytes :=
  let payload := cloneRawJSON (Payload op) in
  let payload := if Nat.eqb (length payload) 0 then emptyObject else payload in
  if negb (json_Valid payload) then Err ErrOpPayloadNotJSON
  else
    match json_MarshalSignable (Type_ op) (Author op) (Seq op)
            (Timestamp op) payload (PublicKey op) with
    | Some b => Ok b
    | None => Err ErrMarshal
    end.

Definition computeOperationID (signable signature : bytes) : string :=
  hexEncode (sha256_Sum (signable ++ signature)).

Definition signOperation (op : Operation) (priv : bytes)
  : result (string * string) :=
  match canonicalOperationBytes op with
  | Err e => Err e
  | Ok signable =>
      let sig := ed25519_Sign priv signable in
      let sigB64 := base64_EncodeToString sig in
      Ok (sigB64, computeOperationID signable sig)
  end.

(** [None] is Go's [nil] error. *)
Definition verifyOperation (op : Operation) : option error :=
  if string_eqb (TrimSpace (ID op)) "" then Some ErrIDRequired
  else if string_eqb (TrimSpace (Type_ op)) "" then Some ErrTypeRequired
  else if string_eqb (TrimSpace (Author op)) "" then Some ErrAuthorRequired
  else if N.eqb (Seq op) 0 then Some ErrSeqZero
  else if negb (time_ParseRFC3339Nano (Timestamp op)) then Some ErrTimestamp
  else
    match base64_DecodeString (PublicKey op) with
    | None => Some ErrPublicKeyEncoding
    | Some pubBytes =>
        if negb (Nat.eqb (length pubBytes) PublicKeySize)
        then Some ErrPublicKeyLength
        else
          let expectedAuthor := nodeIDFromPublicKey pubBytes in
          if negb (string_eqb (Author op) expectedAuthor)
          then Some ErrAuthorMismatch
          else
            match base64_DecodeString (Signature op) with
            | None => Some ErrSignatureEncoding
            | Some signature =>
                if negb (Nat.eqb (length signature) SignatureSize)
                then Some ErrSignatureLength
                else
                  match canonicalOperationBytes op with
                  | Err e => Some e
                  | Ok signable =>
                      if negb (ed25519_Verify pubBytes signable signature)
                      then Some ErrSignature
                      else
                        let expectedID :=
                          computeOperationID signable signature in
                        if negb (string_eqb (ID op) expectedID)
                        then Some ErrIDMismatch
                        else None
                  end
            end
    end.

Definition authorSeqKey (author : string) (seq : N) : string :=
  author +:+ ":" +:+ fmtN seq.

(** [appendOK] is the outcome of [appendOpLocked] (the write to
    [ops.log]), consulted only when [persist] is set. *)
Definition addOperationLocked (s : Store) (op : Operation)
           (persist appendOK : bool) : bool * option error * Store :=
  match verifyOperation op with
  | Some err => (false, Some err, s)
  | None =>
      if decide (ID op ∈ opIDs s) then (false, None, s)
      else
        let key := authorSeqKey (Author op) (Seq op) in
        let conflict :=
          match authorSeqIndex s !! key with
          | Some existingID => negb (string_eqb existingID (ID op))
          | None => false
          end in
        if conflict
        then (false, Some (ErrConflict (Author op) (Seq op)), s)
        else
          let op := setPayload op (cloneRawJSON (Payload op)) in
          let s' :=
            {| identity := identity s;
               privateKey := privateKey s;
               ops := ops s ++ [op];
               opIDs := {[ID op]} ∪ opIDs s;
               seqByAuthor :=
                 if seqOf (seqByAuthor s) (Author op) <? Seq op
                 then <[Author op := Seq op]> (seqByAuthor s)
                 else seqByAuthor s;
               authorSeqIndex := <[key := ID op]> (authorSeqIndex s);
               peers := peers s |} in
          if persist && negb appendOK
          then (false, Some ErrAppendOp, s')
          else (true, None, s')
  end.

(** [now] is [time.Now().UTC().Format(time.RFC3339Nano)]. *)
Definition AppendLocalOp (s : Store) (now : string) (appendOK : bool)
           (opType : string) (payload : bytes) : result Operation * Store :=
  let opType := TrimSpace opType in
  if string_eqb opType "" then (Err ErrOpTypeRequired, s)
  else
    let payload :=
      if Nat.eqb (length payload) 0 then emptyObject else payload in
    if negb (json_Valid payload) then (Err ErrPayloadNotJSON, s)
    else
      let seq := wrapUint64 (seqOf (seqByAuthor s) (NodeID (identity s)) + 1) in
      let op :=
        {| ID := ""; Type_ := opType; Author := NodeID (identity s);
           Seq := seq; Timestamp := now; Payload := cloneRawJSON payload;
           PublicKey := IdPublicKey (identity s); Signature := "" |} in
      match signOperation op (privateKey s) with
      | Err e => (Err e, s)
      | Ok (signature, opID) =>
          let op := setID (setSignature op signature) opID in
          match addOperationLocked s op true appendOK with
          | (_, Some err, s') => (Err err, s')
          | (false, None, s') => (Err ErrAlreadyExists, s')
          | (true, None, s') => (Ok op, s')
          end
      end.

Definition AddRemoteOp (s : Store) (appendOK : bool) (op : Operation)
  : bool * option error * Store :=
  addOperationLocked s op true appendOK.

Definition Summary (s : Store) : gmap string N := seqByAuthor s.

(** The comparison passed to [sort.SliceStable] in [MissingFor] and
    [Ops]. *)
Definition opLess (a b : Operation) : bool :=
  if negb (string_eqb (Author a) (Author b))
  then string_ltb (Author a) (Author b)
  else Seq a <? Seq b.

(** The loop of [MissingFor] over [ordered], with [out] so far. *)
Fixpoint missingLoop (summary : gmap string N) (limit : Z)
         (ordered out : list Operation) : list Operation :=
  match ordered with
  | [] => out
  | op :: rest =>
      if seqOf summary (Author op) <? Seq op
      then
        let out := out ++ [op] in
        if (0 <? limit)%Z && (limit <=? Z.of_nat (length out))%Z
        then out
        else missingLoop summary limit rest out
      else missingLoop summary limit rest out
  end.

(** A [nil] summary is [None]. *)
Definition MissingFor (s : Store) (summary : option (gmap string N))
           (limit : Z) : list Operation :=
  let summary := default ∅ summary in
  let ordered := sortStable opLess (ops s) in
  missingLoop summary limit ordered [].

Definition Ops (s : Store) (limit : Z) : list Operation :=
  let ordered := sortStable opLess (ops s) in
  if (0 <? limit)%Z && (limit <? Z.of_nat (length ordered))%Z
  then skipn (length ordered - Z.to_nat limit) ordered
  else ordered.

Definition ListPeers (s : Store) : list string :=
  sortStable string_ltb (peers s).

Definition setPath (u : URL) (path : string) : URL :=
  {| Scheme := Scheme u; Opaque := Opaque u; Host := Host u; Path := path;
     OmitHost := OmitHost u; ForceQuery := ForceQuery u;
     RawQuery := RawQuery u; Fragment := Fragment u |}.

Definition normalizePeer (raw : string) : result string :=
  let raw := TrimSpace raw in
  if string_eqb raw "" then Err ErrPeerEmpty
  else
    let raw := if negb (contains raw "://") then "http://" +:+ raw else raw in
    match url_Parse raw with
    | None => Err ErrPeerURL
    | Some u =>
        if negb (string_eqb (Scheme u) "http")
           && negb (string_eqb (Scheme u) "https")
        then Err ErrPeerScheme
        else if string_eqb (Host u) "" then Err ErrPeerHost
        else if negb (string_eqb (RawQuery u) "")
                || negb (string_eqb (Fragment u) "")
        then Err ErrPeerQueryOrFragment
        else
          let path := trimSuffix (Path u) "/" in
          let path := if string_eqb path "/" then "" else path in
          Ok (url_String (setPath u path))
    end.

Definition setPeers (s : Store) (ps : list string) : Store :=
  {| identity := identity s; privateKey := privateKey s; ops := ops s;
     opIDs := opIDs s; seqByAuthor := seqByAuthor s;
     authorSeqIndex := authorSeqIndex s; peers := ps |}.

(** [saveOK] is the outcome of [savePeersLocked]. *)
Definition AddPeer (s : Store) (saveOK : bool) (raw : string)
  : result string * Store :=
  match normalizePeer raw with
  | Err e => (Err e, s)
  | Ok normalized =>
      if existsb (string_eqb normalized) (peers s)
      then (Ok normalized, s)
      else
        let s' := setPeers s (sortStable string_ltb (peers s ++ [normalized])) in
        if saveOK then (Ok normalized, s') else (Err ErrWriteJSON, s')
  end.

Definition RemovePeer (s : Store) (saveOK : bool) (raw : string)
  : result string * Store :=
  match normalizePeer raw with
  | Err e => (Err e, s)
  | Ok normalized =>
      let filtered :=
        List.filter (fun peer => negb (string_eqb peer normalized)) (peers s) in
      let removed := existsb (string_eqb normalized) (peers s) in
      let s' := setPeers s filtered in
      if negb removed then (Ok normalized, s')
      else if saveOK then (Ok normalized, s') else (Err ErrWriteJSON, s')
  end.

(** *** Opening a store *)

(** The loop of [loadPeers] over the entries of the file, with [seen] and
    [normalized] so far. *)
Fixpoint loadPeersLoop (file : list string) (seen : gset string)
         (normalized : list string) : result (list string) :=
  match file with
  | [] => Ok normalized
  | peer :: rest =>
      match normalizePeer peer with
      | Err e => Err e
      | Ok norm =>
          if decide (norm ∈ seen) then loadPeersLoop rest seen normalized
          else loadPeersLoop rest ({[norm]} ∪ seen) (normalized ++ [norm])
      end
  end.

(** [file] is the decoded [peers] member of [peers.json], [None] when the
    file does not exist; the result is the value of [s.peers].  A file that
    cannot be read or decoded makes [OpenStore] fail before the loop. *)
Definition loadPeers (file : option (list string)) : result (list string) :=
  match file with
  | None => Ok []
  | Some entries =>
      match loadPeersLoop entries ∅ [] with
      | Err e => Err e
      | Ok normalized => Ok (sortStable string_ltb normalized)
      end
  end.

(** What [loadOps] reports: the two errors of its loop body, with the line
    number of [ops.log], and the error of the scanner. *)
Inductive loadError :=
| ErrDecodeOperation (line : Z)      (* decode operation at line %d *)
| ErrLoadOperation (line : Z) (e : error)
                                     (* load operation at line %d *)
| ErrScanOpsLog.                     (* scan ops log: token too long *)

(** The size that [scanner.Buffer] allows the buffer to grow to. *)
Definition maxTokenSize : N := 4 * 1024 * 1024.

(** [scanner.Scan] finds a line when the line and its line feed are in
    the buffer, or the line alone with room left to see the end of the
    file; either way the line has fewer bytes than the buffer at its
    largest.  Otherwise the scanner stops with [ErrTooLong]. *)
Definition fitsBuffer (text : string) : bool :=
  N.of_nat (String.length text) <? maxTokenSize.

(** The two steps of [OpenStore] that read the registry and the log. *)
Inductive openError :=
| ErrLoadPeers (e : error)
| ErrLoadOps (e : loadError).

Section LoadOps.
(** [json.Unmarshal] of one line into an [Operation]. *)
Context (json_UnmarshalOperation : string -> option Operation).

(** The [scanner.Scan] loop of [loadOps] and the test of [scanner.Err]
    after it: [lines] are the lines left, each as it stands in the file
    between two line feeds, and [line] is the counter.  A line that the
    scanner cannot hold ends the loop, and [scanner.Err] is returned;
    [scanner.Text] is the line without its carriage return.  A file holds
    fewer lines than an [int] counts, so the counter does not wrap. *)
Fixpoint loadOpsLoop (lines : list string) (line : Z) (s : Store)
  : option loadError * Store :=
  match lines with
  | [] => (None, s)
  | text :: rest =>
      if negb (fitsBuffer text) then (Some ErrScanOpsLog, s)
      else
        let line := (line + 1)%Z in
        let raw := TrimSpace (dropCR text) in
        if string_eqb raw "" then loadOpsLoop rest line s
        else
          match json_UnmarshalOperation raw with
          | None => (Some (ErrDecodeOperation line), s)
          | Some op =>
              match addOperationLocked s op false false with
              | (_, Some err, s') => (Some (ErrLoadOperation line err), s')
              | (_, None, s') => loadOpsLoop rest line s'
              end
          end
  end.

(** [log] holds the lines of [ops.log], [None] when the file does not
    exist.  A file that exists and cannot be opened or read is not among
    the inputs. *)
Definition loadOps (log : option (list string)) (s : Store)
  : option loadError * Store :=
  match log with
  | None => (None, s)
  | Some lines => loadOpsLoop lines 0 s
  end.

(** [OpenStore] from the point where [loadIdentity] has set the identity
    [id] and the private key [priv]: [peersFile] and [log] are what
    [peers.json] and [ops.log] hold. *)
Definition OpenStore (id : Identity) (priv : bytes)
           (peersFile : option (list string)) (log : option (list string))
  : openError + Store :=
  match loadPeers peersFile with
  | Err e => inl (ErrLoadPeers e)
  | Ok ps =>
      match loadOps log (newStore id priv ps) with
      | (Some e, _) => inl (ErrLoadOps e)
      | (None, s) => inr s
      end
  end.
End LoadOps.
End WithLib.

(** *** pending.go *)

Definition PendingPushStatusPending : string := "pending".
Definition PendingPushStatusFailed : string := "failed".
Definition PendingPushStatusCompleted : string := "completed".

Record PendingPush := {
  ProposalID : string;
  Remote : string;
  SourceRef : string;
  TargetRef : string;
  NewOID : string;
  GitArgs : list string;
  Status : string;
  Attempts : Z;
  LastError : string;
  CreatedAt : string;
  UpdatedAt : string;
  LastTriedAt : string;
  CompletedAt : string
}.

Definition isStatus (st : string) : bool :=
  string_eqb st PendingPushStatusPending
  || string_eqb st PendingPushStatusFailed
  || string_eqb st PendingPushStatusCompleted.

(** [now1] and [now2] are the two readings of [time.Now()] that the
    function takes when [forWrite] is set, in that order. *)
Definition normalizePendingPush (push : PendingPush) (forWrite : bool)
           (now1 now2 : string) : result PendingPush :=
  let proposalID := TrimSpace (ProposalID push) in
  let remote := TrimSpace (Remote push) in
  let sourceRef := TrimSpace (SourceRef push) in
  let targetRef := TrimSpace (TargetRef push) in
  let newOID := TrimSpace (NewOID push) in
  let lastError := TrimSpace (LastError push) in
  if string_eqb proposalID "" then Err ErrPushProposalIDRequired
  else if string_eqb targetRef "" then Err ErrPushTargetRefRequired
  else
    let status :=
      if string_eqb (Status push) "" then PendingPushStatusPending
      else Status push in
    if negb (isStatus status) then Err (ErrPushStatus status)
    else
      let createdAt :=
        if forWrite && string_eqb (CreatedAt push) "" then now1
        else CreatedAt push in
      let updatedAt := if forWrite then now2 else UpdatedAt push in
      Ok {| ProposalID := proposalID; Remote := remote;
            SourceRef := sourceRef; TargetRef := targetRef;
            NewOID := newOID; GitArgs := GitArgs push; Status := status;
            Attempts := Attempts push; LastError := lastError;
            CreatedAt := createdAt; UpdatedAt := updatedAt;
            LastTriedAt := LastTriedAt push;
            CompletedAt := CompletedAt push |}.

(** The comparison of the [sort.SliceStable] in [loadPendingPushesLocked]. *)
Definition pushLess (a b : PendingPush) : bool :=
  if negb (string_eqb (CreatedAt a) (CreatedAt b))
  then string_ltb (CreatedAt a) (CreatedAt b)
  else string_ltb (ProposalID a) (ProposalID b).

Fixpoint normalizeAll (file : list PendingPush) : result (list PendingPush) :=
  match file with
  | [] => Ok []
  | push :: rest =>
      match normalizePendingPush push false "" "" with
      | Err e => Err e
      | Ok normalized =>
          match normalizeAll rest with
          | Err e => Err e
          | Ok pushes => Ok (normalized :: pushes)
          end
      end
  end.

(** [file] is the decoded content of [pending_pushes.json], [[]] when the
    file does not exist. *)
Definition loadPendingPushesLocked (file : list PendingPush)
  : result (list PendingPush) :=
  match normalizeAll file with
  | Err e => Err e
  | Ok pushes => Ok (sortStable pushLess pushes)
  end.

Definition ListPendingPushes (file : list PendingPush)
  : result (list PendingPush) :=
  loadPendingPushesLocked file.

Definition setCreatedAt (p : PendingPush) (v : string) : PendingPush :=
  {| ProposalID := ProposalID p; Remote := Remote p; SourceRef := SourceRef p;
     TargetRef := TargetRef p; NewOID := NewOID p; GitArgs := GitArgs p;
     Status := Status p; Attempts := Attempts p; LastError := LastError p;
     CreatedAt := v; UpdatedAt := UpdatedAt p;
     LastTriedAt := LastTriedAt p; CompletedAt := CompletedAt p |}.

Definition setAttempts (p : PendingPush) (v : Z) : PendingPush :=
  {| ProposalID := ProposalID p; Remote := Remote p; SourceRef := SourceRef p;
     TargetRef := TargetRef p; NewOID := NewOID p; GitArgs := GitArgs p;
     Status := Status p; Attempts := v; LastError := LastError p;
     CreatedAt := CreatedAt p; UpdatedAt := UpdatedAt p;
     LastTriedAt := LastTriedAt p; CompletedAt := CompletedAt p |}.

(** The loop of [UpsertPendingPush]: [Some] when an entry was replaced,
    with the value of [push] after the loop and the updated slice. *)
Fixpoint upsertLoop (pushes : list PendingPush) (push : PendingPush)
  : option (PendingPush * list PendingPush) :=
  match pushes with
  | [] => None
  | existing :: rest =>
      if negb (string_eqb (ProposalID existing) (ProposalID push))
      then
        match upsertLoop rest push with
        | Some (push', rest') => Some (push', existing :: rest')
        | None => None
        end
      else
        let push := setCreatedAt push (CreatedAt existing) in
        let push :=
          if (Attempts push <? Attempts existing)%Z
          then setAttempts push (Attempts existing) else push in
        Some (push, push :: rest)
  end.

(** [saveOK] is the outcome of [savePendingPushesLocked]; the second
    component is the content of the file afterwards. *)
Definition UpsertPendingPush (file : list PendingPush) (now1 now2 : string)
           (saveOK : bool) (push : PendingPush)
  : result PendingPush * list PendingPush :=
  match normalizePendingPush push true now1 now2 with
  | Err e => (Err e, file)
  | Ok push =>
      match loadPendingPushesLocked file with
      | Err e => (Err e, file)
      | Ok pushes =>
          let '(push, pushes) :=
            match upsertLoop pushes push with
            | Some (push', pushes') => (push', pushes')
            | None => (push, pushes ++ [push])
            end in
          if saveOK then (Ok push, pushes) else (Err ErrWriteJSON, file)
      end
  end.

Definition markPush (push : PendingPush) (status lastError now : string)
  : PendingPush :=
  let completed := string_eqb status PendingPushStatusCompleted in
  {| ProposalID := ProposalID push; Remote := Remote push;
     SourceRef := SourceRef push; TargetRef := TargetRef push;
     NewOID := NewOID push; GitArgs := GitArgs push;
     Status := status;
     Attempts := wrapInt (Attempts push + 1);
     LastError := if completed then "" else TrimSpace lastError;
     CreatedAt := CreatedAt push;
     UpdatedAt := now;
     LastTriedAt := now;
     CompletedAt := if completed then now else CompletedAt push |}.

(** The loop of [updatePendingPushStatus]: [Some] when an entry was
    updated. *)
Fixpoint updateLoop (pushes : list PendingPush)
         (proposalID status lastError now : string)
  : option (list PendingPush) :=
  match pushes with
  | [] => None
  | push :: rest =>
      if negb (string_eqb (ProposalID push) proposalID)
      then
        match updateLoop rest proposalID status lastError now with
        | Some rest' => Some (push :: rest')
        | None => None
        end
      else Some (markPush push status lastError now :: rest)
  end.

Definition updatePendingPushStatus (file : list PendingPush) (now : string)
           (saveOK : bool) (proposalID status lastError : string)
  : option error * list PendingPush :=
  let proposalID := TrimSpace proposalID in
  if string_eqb proposalID "" then (Some ErrProposalIDRequired, file)
  else
    match loadPendingPushesLocked file with
    | Err e => (Some e, file)
    | Ok pushes =>
        match updateLoop pushes proposalID status lastError now with
        | None => (Some (ErrPushNotFound proposalID), file)
        | Some pushes' =>
            if saveOK then (None, pushes') else (Some ErrWriteJSON, file)
        end
    end.

Definition MarkPendingPushPending (file : list PendingPush) (now : string)
           (saveOK : bool) (proposalID message : string) :=
  updatePendingPushStatus file now saveOK proposalID
    PendingPushStatusPending message.

Definition MarkPendingPushFailed (file : list PendingPush) (now : string)
           (saveOK : bool) (proposalID message : string) :=
  updatePendingPushStatus file now saveOK proposalID
    PendingPushStatusFailed message.

Definition MarkPendingPushCompleted (file : list PendingPush) (now : string)
           (saveOK : bool) (proposalID : string) :=
  updatePendingPushStatus file now saveOK proposalID
    PendingPushStatusCompleted "".

End Gossip.

(** ** Command vcs: the pending-push processor *)

Module Vcs.
Import Go Gossip.

(** Modelled from the spec: the struct [gossip.ProposalStatus], declared
    in a file that is not part of the sources.  These are the fields that
    [processPendingPushes] reads, as the status derivation of the design
    document describes them. *)
Record ProposalStatus := {
  Expired : bool;
  Certified : bool;
  HasQuorum : bool;
  YesVoters : list string;
  Members : list string;
  RequiredYes : Z
}.

Record pendingPushProcessResult := {
  Checked : Z;
  Executed : Z;
  Pending : Z;
  Failed : Z
}.

(** Modelled from the spec: the constant [gossip.OpTypeGitPush], declared
    in a file that is not part of the sources; the operation type registry
    names it [git.push]. *)
Definition OpTypeGitPush : string := "git.push".

(** What the processor does to the store and to the backend.  The store
    methods whose result it discards ([_ = store.Mark...]) and
    [recordGitEvent] appear only here; the calls whose result it uses are
    answered by the environment below. *)
Inductive Call :=
| CallMarkFailed (proposalID message : string)
| CallMarkPending (proposalID message : string)
| CallMarkCompleted (proposalID : string)
| CallCertify (proposalID : string) (force : bool)
| CallRunGit (args : list string)
| CallRecordGitEvent (opType : string) (push : PendingPush) (mode : string).

(** An [error] of the command is its message ([err.Error()]). *)
Definition errorT := string.

(** The environment answers from the calls made so far. *)
Class Env := {
  store_ListPendingPushes : list Call -> errorT + list PendingPush;
  store_ProposalStatus : list Call -> string -> errorT + ProposalStatus;
  store_CertifyProposal : list Call -> string -> bool -> option errorT;
  runGitFn : list Call -> list string -> option errorT
}.

Record LoopState := {
  result_ : pendingPushProcessResult;
  firstErr : option errorT;
  calls : list Call
}.

Definition incChecked (r : pendingPushProcessResult) :=
  {| Checked := Checked r + 1; Executed := Executed r;
     Pending := Pending r; Failed := Failed r |}%Z.
Definition incExecuted (r : pendingPushProcessResult) :=
  {| Checked := Checked r; Executed := Executed r + 1;
     Pending := Pending r; Failed := Failed r |}%Z.
Definition incPending (r : pendingPushProcessResult) :=
  {| Checked := Checked r; Executed := Executed r;
     Pending := Pending r + 1; Failed := Failed r |}%Z.
Definition incFailed (r : pendingPushProcessResult) :=
  {| Checked := Checked r; Executed := Executed r;
     Pending := Pending r; Failed := Failed r + 1 |}%Z.

(** [if firstErr == nil { firstErr = e }] *)
Definition orFirst (firstErr : option errorT) (e : errorT) : option errorT :=
  match firstErr with
  | None => Some e
  | Some _ => firstErr
  end.

Definition waitingMessage (status : ProposalStatus) : string :=
  "awaiting quorum yes=" +:+ fmtZ (Z.of_nat (length (YesVoters status)))
  +:+ "/" +:+ fmtZ (Z.of_nat (length (Members status)))
  +:+ " required=" +:+ fmtZ (RequiredYes status).

Definition expiredMessage : errorT := "proposal has expired".

Section WithEnv.
Context {E : Env}.

(** One push that failed with [e]: count it, mark it, keep the first
    error, go on. *)
Definition failPush (push : PendingPush) (r : pendingPushProcessResult)
           (fe : option errorT) (h : list Call) (e : errorT) : LoopState :=
  {| result_ := incFailed r;
     firstErr := orFirst fe e;
     calls := h ++ [CallMarkFailed (ProposalID push) e] |}.

(** The end of the loop body, from [pushArgs := ...] on. *)
Definition runPush (push : PendingPush) (r : pendingPushProcessResult)
           (fe : option errorT) (h : list Call) : LoopState :=
  let pushArgs := "push" :: GitArgs push in
  match runGitFn h pushArgs with
  | Some pushErr =>
      failPush push r fe (h ++ [CallRunGit pushArgs]) pushErr
  | None =>
      {| result_ := incExecuted r;
         firstErr := fe;
         calls := h ++ [CallRunGit pushArgs;
                        CallMarkCompleted (ProposalID push);
                        CallRecordGitEvent OpTypeGitPush push "certified"] |}
  end.

(** The body of the [for] loop. *)
Definition processPush (onlyProposalID : string) (push : PendingPush)
           (st : LoopState) : LoopState :=
  if negb (string_eqb onlyProposalID "")
     && negb (string_eqb (ProposalID push) onlyProposalID)
  then st
  else if string_eqb (Status push) PendingPushStatusCompleted then st
  else
    let r := incChecked (result_ st) in
    let fe := firstErr st in
    let h := calls st in
    match store_ProposalStatus h (ProposalID push) with
    | inl statusErr => failPush push r fe h statusErr
    | inr status =>
        if Expired status then failPush push r fe h expiredMessage
        else if negb (Certified status) then
          if negb (HasQuorum status) then
            {| result_ := incPending r;
               firstErr := fe;
               calls := h ++ [CallMarkPending (ProposalID push)
                                              (waitingMessage status)] |}
          else
            match store_CertifyProposal h (ProposalID push) false with
            | Some certErr =>
                failPush push r fe
                  (h ++ [CallCertify (ProposalID push) false]) certErr
            | None =>
                runPush push r fe (h ++ [CallCertify (ProposalID push) false])
            end
        else runPush push r fe h
    end.

Fixpoint processLoop (onlyProposalID : string) (pushes : list PendingPush)
         (st : LoopState) : LoopState :=
  match pushes with
  | [] => st
  | push :: rest =>
      processLoop onlyProposalID rest (processPush onlyProposalID push st)
  end.

Definition zeroResult : pendingPushProcessResult :=
  {| Checked := 0; Executed := 0; Pending := 0; Failed := 0 |}.

(** [h] is the list of calls made before; the result carries the list
    of calls afterwards. *)
Definition processPendingPushes (onlyProposalID : string) (h : list Call)
  : pendingPushProcessResult * option errorT * list Call :=
  match store_ListPendingPushes h with
  | inl err => (zeroResult, Some err, h)
  | inr pushes =>
      let st := processLoop onlyProposalID pushes
                  {| result_ := zeroResult; firstErr := None; calls := h |} in
      (result_ st, firstErr st, calls st)
  end.
End WithEnv.

(** *** Arguments of [vcs push] *)

(** The loop of [consumeExactFlag], with [found] and [out] so far. *)
Fixpoint consumeLoop (args : list string) (flag : string) (found : bool)
         (out : list string) : bool * list string :=
  match args with
  | [] => (found, out)
  | arg :: rest =>
      if string_eqb arg flag then consumeLoop rest flag true out
      else consumeLoop rest flag found (out ++ [arg])
  end.

Definition consumeExactFlag (args : list string) (flag : string)
  : bool * list string :=
  consumeLoop args flag false [].

(** The first three statements of [cmdPush]: [processPendingOnly],
    [listPendingOnly], [noAutoProposal] and [gitArgs]. *)
Definition cmdPushFlags (args : list string)
  : bool * bool * bool * list string :=
  let '(processPendingOnly, remaining) :=
    consumeExactFlag args "--process-pending" in
  let '(listPendingOnly, remaining) :=
    consumeExactFlag remaining "--list-pending" in
  let '(noAutoProposal, gitArgs) :=
    consumeExactFlag remaining "--no-auto-proposal" in
  (processPendingOnly, listPendingOnly, noAutoProposal, gitArgs).

Definition longWithValue : gset string :=
  {["--repo"; "--receive-pack"; "--exec"; "--upload-pack"; "--push-option"]}.

Definition shortWithValue : gset string := {["-c"; "-o"]}.

(** The loop of [extractPushPositionals] over the arguments left, with
    [expectValue] and [positionals] so far. *)
Fixpoint positionalsLoop (args : list string) (expectValue : bool)
         (positionals : list string) : list string :=
  match args with
  | [] => positionals
  | arg :: rest =>
      if expectValue then positionalsLoop rest false positionals
      else if string_eqb arg "--" then positionals ++ rest
      else if hasPrefix arg "--" then
        if contains arg "=" then positionalsLoop rest false positionals
        else if decide (arg ∈ longWithValue)
             then positionalsLoop rest true positionals
             else positionalsLoop rest false positionals
      else if hasPrefix arg "-" && negb (string_eqb arg "-") then
        if decide (arg ∈ shortWithValue)
        then positionalsLoop rest true positionals
        else positionalsLoop rest false positionals
      else positionalsLoop rest false (positionals ++ [arg])
  end.

Definition extractPushPositionals (args : list string) : list string :=
  positionalsLoop args false [].

Definition parseUpstream (upstream : string) : string * string :=
  let upstream := TrimSpace upstream in
  if string_eqb upstream "" then ("", "")
  else if hasPrefix upstream "refs/remotes/" then
    let trimmed := trimPrefix upstream "refs/remotes/" in
    match SplitN2 trimmed "/" with
    | [remote; branch] => (remote, branch)
    | _ => (trimmed, "")
    end
  else
    match SplitN2 upstream "/" with
    | [remote; branch] => (remote, branch)
    | _ => ("", upstream)
    end.

Definition normalizeSourceRef (spec currentBranch : string) : string :=
  let spec := TrimSpace spec in
  if string_eqb spec "" || string_eqb spec "HEAD" then currentBranch
  else spec.

Definition normalizeTargetRef (spec currentBranch : string) : string * string :=
  let spec := TrimSpace spec in
  let spec :=
    if string_eqb spec "" || string_eqb spec "HEAD" then currentBranch
    else spec in
  if string_eqb spec "" then ("", "")
  else if hasPrefix spec "refs/heads/"
  then (spec, trimPrefix spec "refs/heads/")
  else if hasPrefix spec "refs/" then (spec, "")
  else if hasPrefix spec "heads/" then
    let branch := trimPrefix spec "heads/" in
    ("refs/heads/" +:+ branch, branch)
  else ("refs/heads/" +:+ spec, spec).

(** The loop of [parseCSV] over the parts, with [seen] and [out] so
    far. *)
Fixpoint parseCSVLoop (parts : list string) (seen : gset string)
         (out : list string) : list string :=
  match parts with
  | [] => out
  | part :: rest =>
      let part := TrimSpace part in
      if string_eqb part "" then parseCSVLoop rest seen out
      else if decide (part ∈ seen) then parseCSVLoop rest seen out
      else parseCSVLoop rest ({[part]} ∪ seen) (out ++ [part])
  end.

Definition parseCSV (raw : string) : list string :=
  parseCSVLoop (Split raw ",") ∅ [].

Module PushIntent.
Record pushIntent := {
  Remote : string;
  SourceRef : string;
  TargetRef : string;
  TargetBranch : string;
  NewOID : string;
  OldOID : string
}.
End PushIntent.

(** The ways [resolvePushIntent] fails.  [PanicIndex] is the run-time
    panic of [parts[1]] on a slice with one element. *)
Inductive intentError :=
| ErrDetachedHead
| ErrNoRemote
| ErrNoTargetRef
| ErrNoSourceOID (sourceRef : string)
| PanicIndex.

Section WithGit.
(** [runGitOutputFn]: the answer of git to the call number [k] of the
    command, made with [args]. *)
Context (runGitOutputFn : nat -> list string -> errorT + string).

Definition tryGitOutput (k : nat) (args : list string) : string :=
  match runGitOutputFn k args with
  | inl _ => ""
  | inr out => TrimSpace out
  end.

Definition resolvePushIntent (gitArgs : list string)
  : intentError + PushIntent.pushIntent :=
  let currentBranch :=
    TrimSpace (tryGitOutput 0 ["rev-parse"; "--abbrev-ref"; "HEAD"]) in
  if string_eqb currentBranch "" || string_eqb currentBranch "HEAD"
  then inl ErrDetachedHead
  else
    let upstream :=
      TrimSpace (tryGitOutput 1 ["rev-parse"; "--abbrev-ref";
                                 "--symbolic-full-name"; "@{u}"]) in
    let '(upstreamRemote, upstreamBranch) := parseUpstream upstream in
    let positionals := extractPushPositionals gitArgs in
    let remote := upstreamRemote in
    let remote := if string_eqb remote "" then "origin" else remote in
    let remote :=
      match positionals with
      | p0 :: _ => TrimSpace p0
      | [] => remote
      end in
    if string_eqb remote "" then inl ErrNoRemote
    else
      let refspec :=
        match positionals with
        | _ :: p1 :: _ => TrimSpace p1
        | _ => ""
        end in
      let specs : option (string * string) :=
        if negb (string_eqb refspec "") then
          if contains refspec ":" then
            match SplitN2 refspec ":" with
            | [part0; part1] =>
                let sourceSpec := TrimSpace part0 in
                let targetSpec := TrimSpace part1 in
                let sourceSpec :=
                  if string_eqb sourceSpec "" then currentBranch
                  else sourceSpec in
                let targetSpec :=
                  if string_eqb targetSpec "" then sourceSpec
                  else targetSpec in
                Some (sourceSpec, targetSpec)
            | _ => None
            end
          else Some (refspec, refspec)
        else if negb (string_eqb upstreamBranch "")
        then Some (currentBranch, upstreamBranch)
        else Some (currentBranch, currentBranch) in
      match specs with
      | None => inl PanicIndex
      | Some (sourceSpec, targetSpec) =>
          let sourceRef := normalizeSourceRef sourceSpec currentBranch in
          let '(targetRef, targetBranch) :=
            normalizeTargetRef targetSpec currentBranch in
          if string_eqb targetRef "" then inl ErrNoTargetRef
          else
            let newOID := TrimSpace (tryGitOutput 2 ["rev-parse"; sourceRef]) in
            if string_eqb newOID "" then inl (ErrNoSourceOID sourceRef)
            else
              let oldOID :=
                if negb (string_eqb targetBranch "")
                then TrimSpace
                       (tryGitOutput 3
                          ["rev-parse";
                           "refs/remotes/" +:+ remote +:+ "/" +:+ targetBranch])
                else "" in
              inr {| PushIntent.Remote := remote;
                     PushIntent.SourceRef := sourceRef;
                     PushIntent.TargetRef := targetRef;
                     PushIntent.TargetBranch := targetBranch;
                     PushIntent.NewOID := newOID;
                     PushIntent.OldOID := oldOID |}
      end.

(** The entry that [cmdPush] hands to [UpsertPendingPush] for the
    proposal [proposalID]. *)
Definition pendingOf (proposalID : string) (intent : PushIntent.pushIntent)
           (gitArgs : list string) : PendingPush :=
  {| ProposalID := proposalID;
     Remote := PushIntent.Remote intent;
     SourceRef := PushIntent.SourceRef intent;
     TargetRef := PushIntent.TargetRef intent;
     NewOID := PushIntent.NewOID intent;
     GitArgs := gitArgs;
     Status := PendingPushStatusPending;
     Attempts := 0;
     LastError := "";
     CreatedAt := "";
     UpdatedAt := "";
     LastTriedAt := "";
     CompletedAt := "" |}.
End WithGit.
End Vcs.

(** ** A reference implementation of the library interface

    Small executable stand-ins for the primitives of [GoLib], used to run
    the model on concrete inputs.  They keep what the package relies on (a
    signature made with a generated key verifies under the public key
    generated with it, decoding inverts encoding, digests are 32 bytes
    long, the canonical bytes tell the fields) and nothing else: the digest
    is a checksum, base64 is written in base 16, a signature is the public
    key followed by a 32-byte checksum, and the canonical bytes are the
    fields in base 16 between commas. *)

Module Reference.
Import Go Gossip.

Definition byteOfN (n : N) : byte :=
  default Byte.x00 (Byte.of_N (n mod 256)).

(** A checksum of [m], 32 bytes long: the position-weighted sum of its
    bytes, spread over 32 bytes; [k] varies the weights. *)
Fixpoint weighted (k j : N) (m : bytes) : N :=
  match m with
  | [] => 0
  | b :: m' => (Byte.to_N b + 1) * (k + j + 1) + weighted k (j + 1) m'
  end.

Definition checksum (k : N) (m : bytes) : bytes :=
  let a := weighted k 0 m in
  map (fun i => byteOfN (N.shiftr a (N.of_nat i mod 16) + N.of_nat i)) (seq 0 32).

Definition refDigest (m : bytes) : bytes := checksum 7 m.

Definition refTag (m : bytes) : bytes := checksum 0 m.

(** As for Ed25519 in Go, the private key is the seed followed by the
    public key. *)
Definition refPublic (priv : bytes) : bytes := skipn 32 priv.

Definition refGenerateKey (seed : bytes) : bytes * bytes :=
  let pub := map (fun b => byteOfN (Byte.to_N b + 32)) seed in
  (pub, seed ++ pub).

Definition refSign (priv m : bytes) : bytes := refPublic priv ++ refTag m.

Definition refVerify (pub m sig : bytes) : bool :=
  bytesEqual sig (pub ++ refTag m).

Definition hexValue (c : ascii) : option N :=
  let n := N_of_ascii c in
  if (48 <=? n) && (n <=? 57) then Some (n - 48)
  else if (97 <=? n) && (n <=? 102) then Some (n - 87)
  else None.

Fixpoint hexDecode (s : string) : option bytes :=
  match s with
  | EmptyString => Some []
  | String _ EmptyString => None
  | String c (String d s') =>
      match hexValue c, hexValue d, hexDecode s' with
      | Some h, Some l, Some rest => Some (byteOfN (16 * h + l) :: rest)
      | _, _, _ => None
      end
  end.

(** Accepts the byte strings that start with an opening and end with a
    closing brace. *)
Definition refJSONValid (b : bytes) : bool :=
  match b, rev b with
  | Byte.x7b :: _, Byte.x7d :: _ => true
  | _, _ => false
  end.

Definition quote : string := String (ascii_of_nat 34) EmptyString.
Definition quoted (s : string) : string := quote +:+ s +:+ quote.

Definition hexText (s : string) : string :=
  hexEncode (list_byte_of_string s).

Definition refMarshalSignable (type author : string) (seq : N)
           (timestamp : string) (payload : bytes) (publicKey : string)
  : option bytes :=
  Some (list_byte_of_string
          ("{" +:+ hexText type
           +:+ "," +:+ hexText author
           +:+ "," +:+ fmtN seq
           +:+ "," +:+ hexText timestamp
           +:+ "," +:+ hexEncode payload
           +:+ "," +:+ hexText publicKey
           +:+ "}")).

(** Accepts the UTC form [yyyy-mm-ddThh:mm:ss...Z] by its length and its
    last byte. *)
Definition refParseTime (s : string) : bool :=
  hasSuffix s "Z" && (20 <=? String.length s)%nat.

(** *** URLs

    [refParse] and [refString] follow [url.Parse] and [URL.String] of
    net/url on the inputs made of letters, digits and the bytes
    [- . _ ~ : / ? #], where no escaping, user information or bracketed
    address is involved; every other input is a parse error here. *)

Definition isAlpha (c : ascii) : bool :=
  let n := N_of_ascii c in
  ((97 <=? n) && (n <=? 122)) || ((65 <=? n) && (n <=? 90)).

Definition isDigit (c : ascii) : bool :=
  let n := N_of_ascii c in (48 <=? n) && (n <=? 57).

Definition isOneOf (set : string) (c : ascii) : bool :=
  existsb (fun d => bool_decide (c = d)) (list_ascii_of_string set).

Definition plainByte (c : ascii) : bool :=
  isAlpha c || isDigit c || isOneOf "-._~:/?#" c.

Definition allBytes (f : ascii -> bool) (s : string) : bool :=
  forallb f (list_ascii_of_string s).

Definition toLower (s : string) : string :=
  string_of_list_ascii
    (map (fun c => let n := N_of_ascii c in
                   if (65 <=? n) && (n <=? 90) then ascii_of_N (n + 32) else c)
         (list_ascii_of_string s)).

(** [strings.Cut(s, sep)] for a one-byte separator. *)
Fixpoint cut (sep : ascii) (s : string) : string * string * bool :=
  match s with
  | EmptyString => (EmptyString, EmptyString, false)
  | String c s' =>
      if bool_decide (c = sep) then (EmptyString, s', true)
      else let '(before, after, found) := cut sep s' in
           (String c before, after, found)
  end.

Definition countByte (sep : ascii) (s : string) : nat :=
  length (List.filter (fun c => bool_decide (c = sep)) (list_ascii_of_string s)).

(** [getScheme]: [None] is the error "missing protocol scheme". *)
Fixpoint getSchemeLoop (first : bool) (s seen whole : string)
  : option (string * string) :=
  match s with
  | EmptyString => Some (EmptyString, whole)
  | String c s' =>
      if isAlpha c then getSchemeLoop false s' (String c seen) whole
      else if isDigit c || isOneOf "+-." c then
        if first then Some (EmptyString, whole)
        else getSchemeLoop false s' (String c seen) whole
      else if bool_decide (c = ":"%char) then
        if first then None else Some (rev_string seen, s')
      else Some (EmptyString, whole)
  end.

Definition getScheme (rawURL : string) : option (string * string) :=
  getSchemeLoop true rawURL EmptyString rawURL.

(** [validOptionalPort] on the part of the host from its last colon. *)
Definition validPortOf (host : string) : bool :=
  let '(revPort, _, found) := cut ":"%char (rev_string host) in
  negb found || allBytes isDigit revPort.

Definition refParse (rawURL : string) : option URL :=
  if negb (allBytes plainByte rawURL) then None
  else
    let '(u, frag, _) := cut "#"%char rawURL in
    match getScheme u with
    | None => None
    | Some (scheme, rest) =>
        let scheme := toLower scheme in
        let '(rest, rawQuery, forceQuery) :=
          if hasSuffix rest "?" && Nat.eqb (countByte "?"%char rest) 1
          then (trimSuffix rest "?", EmptyString, true)
          else let '(r, q, _) := cut "?"%char rest in (r, q, false) in
        let mk opaque host path omit :=
          {| Scheme := scheme; Opaque := opaque; Host := host; Path := path;
             OmitHost := omit; ForceQuery := forceQuery;
             RawQuery := rawQuery; Fragment := frag |} in
        if negb (hasPrefix rest "/") && negb (string_eqb scheme "")
        then Some (mk rest EmptyString EmptyString false)
        else if negb (hasPrefix rest "/")
                && contains (fst (fst (cut "/"%char rest))) ":"
        then None
        else if (negb (string_eqb scheme "") || negb (hasPrefix rest "///"))
                && hasPrefix rest "//"
        then
          let '(authority, tail, found) := cut "/"%char (dropBytes 2 rest) in
          let path := if found then String "/"%char tail else EmptyString in
          if validPortOf authority
          then Some (mk EmptyString authority path false)
          else None
        else if negb (string_eqb scheme "") && hasPrefix rest "/"
        then Some (mk EmptyString EmptyString rest true)
        else Some (mk EmptyString EmptyString rest false)
    end.

Definition refString (u : URL) : string :=
  let nonEmpty s := negb (string_eqb s "") in
  let buf := if nonEmpty (Scheme u) then Scheme u +:+ ":" else EmptyString in
  let buf :=
    if nonEmpty (Opaque u) then buf +:+ Opaque u
    else
      let buf :=
        if nonEmpty (Scheme u) || nonEmpty (Host u) then
          if OmitHost u && string_eqb (Host u) "" then buf
          else
            (if nonEmpty (Host u) || nonEmpty (Path u)
             then buf +:+ "//" else buf) +:+ Host u
        else buf in
      let path := Path u in
      let buf :=
        if nonEmpty path && negb (hasPrefix path "/") && nonEmpty (Host u)
        then buf +:+ "/" else buf in
      let buf :=
        if string_eqb buf "" && contains (fst (fst (cut "/"%char path))) ":"
        then "./" else buf in
      buf +:+ path in
  let buf :=
    if ForceQuery u || nonEmpty (RawQuery u)
    then buf +:+ "?" +:+ RawQuery u else buf in
  if nonEmpty (Fragment u) then buf +:+ "#" +:+ Fragment u else buf.

#[export] Instance refLib : GoLib := {|
  sha256_Sum := refDigest;
  ed25519_GenerateKey := refGenerateKey;
  ed25519_Sign := refSign;
  ed25519_Verify := refVerify;
  base64_EncodeToString := hexEncode;
  base64_DecodeString := hexDecode;
  json_Valid := refJSONValid;
  json_MarshalSignable := refMarshalSignable;
  time_ParseRFC3339Nano := refParseTime;
  url_Parse := refParse;
  url_String := refString
|}.

(** Two nodes, as [generateIdentity] sets them up from the seeds
    [seedOf 1] and [seedOf 101]. *)
Definition seedOf (seed : N) : bytes :=
  map (fun i => byteOfN (seed + N.of_nat i)) (seq 0 32).

Definition keyOf (seed : N) : bytes :=
  map (fun i => byteOfN (seed + N.of_nat i)) (seq 0 64).

Definition identityOf (priv : bytes) : Identity :=
  {| NodeID := nodeIDFromPublicKey (refPublic priv);
     IdPublicKey := base64_EncodeToString (refPublic priv);
     IdPrivateKey := base64_EncodeToString priv |}.

Definition privA : bytes := keyOf 1.
Definition privB : bytes := keyOf 101.
Definition storeA : Store := newStore (identityOf privA) privA [].
Definition storeB : Store := newStore (identityOf privB) privB [].

Definition t1 : string := "2026-02-10T04:13:37.000000001Z".
Definition t2 : string := "2026-02-10T04:13:38.000000002Z".
End Reference.

Import Go Gossip.

(** * Vocabulary of the properties *)

Section Vocabulary.
Import Vcs.
Context {L : GoLib}.

(** The store after [op] has been appended and indexed. *)
Definition appended (s : Store) (op : Operation) : Store :=
  {| identity := identity s;
     privateKey := privateKey s;
     ops := ops s ++ [op];
     opIDs := {[ID op]} ∪ opIDs s;
     seqByAuthor :=
       if seqOf (seqByAuthor s) (Author op) <? Seq op
       then <[Author op := Seq op]> (seqByAuthor s)
       else seqByAuthor s;
     authorSeqIndex :=
       <[authorSeqKey (Author op) (Seq op) := ID op]> (authorSeqIndex s);
     peers := peers s |}.

(** The four ways out of [addOperationLocked]. *)
Inductive addOutcome (s : Store) (op : Operation) (persist appendOK : bool)
  : bool * option error * Store -> Prop :=
| out_invalid e :
    verifyOperation op = Some e ->
    addOutcome s op persist appendOK (false, Some e, s)
| out_duplicate :
    verifyOperation op = None ->
    ID op ∈ opIDs s ->
    addOutcome s op persist appendOK (false, None, s)
| out_conflict existingID :
    verifyOperation op = None ->
    ID op ∉ opIDs s ->
    authorSeqIndex s !! authorSeqKey (Author op) (Seq op) = Some existingID ->
    existingID <> ID op ->
    addOutcome s op persist appendOK
      (false, Some (ErrConflict (Author op) (Seq op)), s)
| out_added :
    verifyOperation op = None ->
    ID op ∉ opIDs s ->
    (forall existingID,
        authorSeqIndex s !! authorSeqKey (Author op) (Seq op) = Some existingID ->
        existingID = ID op) ->
    addOutcome s op persist appendOK
      (if persist && negb appendOK
       then (false, Some ErrAppendOp, appended s op)
       else (true, None, appended s op)).

(** Which errors [verifyOperation] can return. *)
Definition isVerificationError (e : error) : bool :=
  match e with
  | ErrIDRequired | ErrTypeRequired | ErrAuthorRequired | ErrSeqZero
  | ErrTimestamp | ErrPublicKeyEncoding | ErrPublicKeyLength
  | ErrAuthorMismatch | ErrSignatureEncoding | ErrSignatureLength
  | ErrOpPayloadNotJSON | ErrMarshal | ErrSignature | ErrIDMismatch => true
  | _ => false
  end.

Definition isConflict (e : error) : bool :=
  match e with
  | ErrConflict _ _ => true
  | _ => false
  end.

(** What an accepted operation satisfies. *)
Record verified (op : Operation) (pubBytes signature signable : bytes) : Prop := {
  v_id : TrimSpace (ID op) <> "";
  v_type : TrimSpace (Type_ op) <> "";
  v_author : TrimSpace (Author op) <> "";
  v_seq : Seq op <> 0;
  v_time : time_ParseRFC3339Nano (Timestamp op) = true;
  v_pub : base64_DecodeString (PublicKey op) = Some pubBytes;
  v_publen : length pubBytes = PublicKeySize;
  v_node : Author op = nodeIDFromPublicKey pubBytes;
  v_sig : base64_DecodeString (Signature op) = Some signature;
  v_siglen : length signature = SignatureSize;
  v_canon : canonicalOperationBytes op = Ok signable;
  v_verify : ed25519_Verify pubBytes signable signature = true;
  v_hash : ID op = computeOperationID signable signature
}.

(** The states of an opened store driven through its methods, whatever
    each call returned; the states reached by successful calls are among
    them.  The replay of [ops.log] by [loadOps] is covered as well: a call
    of [addOperationLocked] without [persist] is a call of [AddRemoteOp]
    whose append succeeds ([replay_step] below). *)
Inductive reachable : Store -> Prop :=
| reach_new id priv ps : reachable (newStore id priv ps)
| reach_append s now appendOK opType payload r s' :
    reachable s ->
    AppendLocalOp s now appendOK opType payload = (r, s') ->
    reachable s'
| reach_remote s appendOK op r s' :
    reachable s ->
    AddRemoteOp s appendOK op = (r, s') ->
    reachable s'
| reach_addPeer s saveOK raw r s' :
    reachable s ->
    AddPeer s saveOK raw = (r, s') ->
    reachable s'
| reach_removePeer s saveOK raw r s' :
    reachable s ->
    RemovePeer s saveOK raw = (r, s') ->
    reachable s'.

(** The same with [AppendLocalOp] as the only source of operations. *)
Inductive reachableLocal : Store -> Prop :=
| local_new id priv ps : reachableLocal (newStore id priv ps)
| local_append s now appendOK opType payload r s' :
    reachableLocal s ->
    AppendLocalOp s now appendOK opType payload = (r, s') ->
    reachableLocal s'.

(** The invariant of the store: every logged operation verifies, [opIDs]
    holds the ids of the log and no other, every logged (author, seq) key
    is indexed under a known id, and [seqByAuthor] maps each author of the
    log to a seq that is attained and bounds the others. *)
Record wf (s : Store) : Prop := {
  wf_verified : forall op, In op (ops s) -> verifyOperation op = None;
  wf_ids : forall op, In op (ops s) -> ID op ∈ opIDs s;
  wf_ids_back : forall id, id ∈ opIDs s -> exists op, In op (ops s) /\ ID op = id;
  wf_index : forall op, In op (ops s) ->
    exists id, authorSeqIndex s !! authorSeqKey (Author op) (Seq op) = Some id
               /\ id ∈ opIDs s;
  wf_attained : forall A n, seqByAuthor s !! A = Some n ->
    exists op, In op (ops s) /\ Author op = A /\ Seq op = n;
  wf_bound : forall op, In op (ops s) ->
    exists n, seqByAuthor s !! Author op = Some n /\ Seq op <= n
}.

(** The seq values of every author with an entry in [seqByAuthor] fill
    [1 .. seqByAuthor[author]]. *)
Definition dense (s : Store) : Prop :=
  forall A m, seqByAuthor s !! A = Some m ->
  forall n, 1 <= n <= m -> exists op, In op (ops s) /\ Author op = A /\ Seq op = n.

(** What holds of a store that only ever appended its own operations. *)
Record localInv (s : Store) : Prop := {
  li_author : forall op, In op (ops s) -> Author op = NodeID (identity s);
  li_range : forall A m, seqByAuthor s !! A = Some m -> m < 2 ^ 64;
  li_dense : dense s
}.

(** [a] comes no later than [b]: by author, then by seq. *)
Definition opBefore (a b : Operation) : Prop :=
  string_ltb (Author a) (Author b) = true
  \/ (Author a = Author b /\ Seq a <= Seq b).

(** [op.Seq > summary[op.Author]] *)
Definition newer (summary : gmap string N) (op : Operation) : bool :=
  seqOf summary (Author op) <? Seq op.

(** The first [limit] elements when [limit > 0], everything otherwise. *)
Definition truncate {A : Type} (limit : Z) (l : list A) : list A :=
  if (0 <? limit)%Z then firstn (Z.to_nat limit) l else l.

(** The stored record when [push] replaces [existing]. *)
Definition replacing (push existing : PendingPush) : PendingPush :=
  setAttempts (setCreatedAt push (CreatedAt existing))
              (Z.max (Attempts existing) (Attempts push)).

(** The three status updates. *)
Inductive Mark := MarkPending | MarkFailed | MarkCompleted.

Definition statusOf (m : Mark) : string :=
  match m with
  | MarkPending => PendingPushStatusPending
  | MarkFailed => PendingPushStatusFailed
  | MarkCompleted => PendingPushStatusCompleted
  end.

Definition runMark (m : Mark) (file : list PendingPush) (now : string)
           (saveOK : bool) (proposalID message : string)
  : option error * list PendingPush :=
  match m with
  | MarkPending => MarkPendingPushPending file now saveOK proposalID message
  | MarkFailed => MarkPendingPushFailed file now saveOK proposalID message
  | MarkCompleted => MarkPendingPushCompleted file now saveOK proposalID
  end.

(** The pushes the loop does not skip. *)
Definition selected (onlyProposalID : string) (push : PendingPush) : bool :=
  (string_eqb onlyProposalID "" || string_eqb (ProposalID push) onlyProposalID)
  && negb (string_eqb (Status push) PendingPushStatusCompleted).

Definition handled (r : pendingPushProcessResult) : Z :=
  (Executed r + Pending r + Failed r)%Z.

Definition isRunGit (c : Call) : bool :=
  match c with
  | CallRunGit _ => true
  | _ => false
  end.

(** What one turn of the loop does to the counters and to the first
    error, whichever branch it takes. *)
Record turn (only : string) (push : PendingPush) (st st' : LoopState) : Prop := {
  turn_checked :
    Checked (result_ st')
    = (Checked (result_ st) + (if selected only push then 1 else 0))%Z;
  turn_handled :
    handled (result_ st')
    = (handled (result_ st) + (if selected only push then 1 else 0))%Z;
  turn_failed :
    (Failed (result_ st') = Failed (result_ st) /\ firstErr st' = firstErr st)
    \/ (Failed (result_ st') = Failed (result_ st) + 1 /\
        exists e, firstErr st' = orFirst (firstErr st) e)%Z
}.

(** The index of the log is exact: no two logged operations share an id,
    the (author, seq) key of each logged operation is indexed under its id,
    and every indexed key is the key of a logged operation. *)
Record indexed (s : Store) : Prop := {
  ix_ids : List.NoDup (map ID (ops s));
  ix_key : forall op, In op (ops s) ->
    authorSeqIndex s !! authorSeqKey (Author op) (Seq op) = Some (ID op);
  ix_back : forall key id, authorSeqIndex s !! key = Some id ->
    exists op, In op (ops s)
               /\ authorSeqKey (Author op) (Seq op) = key /\ ID op = id
}.

(** The store after the operations [delta], received from a peer, were
    offered to [AddRemoteOp] one after the other. *)
Definition receive (s : Store) (appendOK : bool) (delta : list Operation)
  : Store :=
  fold_left (fun s op => snd (AddRemoteOp s appendOK op)) delta s.

(** Ascending with no two equal: what [sort.Strings] leaves of a list
    without duplicates. *)
Definition strictlySorted (l : list string) : Prop :=
  StronglySorted (fun a b => string_ltb a b = true) l.

(** The store as [OpenStore] has it before [loadOps] runs. *)
Definition unloaded (s : Store) : Store :=
  newStore (identity s) (privateKey s) (peers s).

(** The ids of [a] and [b] are digests of different bytes that SHA-256
    maps to one value: what [computeOperationID] hashes for [a], its
    canonical bytes followed by its decoded signature, is not what it
    hashes for [b]. *)
Definition idCollision (a b : Operation) : Prop :=
  exists signableA signatureA signableB signatureB,
    canonicalOperationBytes a = Ok signableA /\
    base64_DecodeString (Signature a) = Some signatureA /\
    canonicalOperationBytes b = Ok signableB /\
    base64_DecodeString (Signature b) = Some signatureB /\
    signableA ++ signatureA <> signableB ++ signatureB /\
    sha256_Sum (signableA ++ signatureA) = sha256_Sum (signableB ++ signatureB).

(** No byte of [t] is a carriage return. *)
Definition lacksCR (t : string) : bool :=
  forallb (fun c => negb (bool_decide (c = ascii_of_nat 13)))
          (list_ascii_of_string t).

(** A line that [loadOps] does not skip. *)
Definition notBlank (text : string) : bool :=
  negb (string_eqb (TrimSpace text) "").

(** The calls of the processor by kind. *)
Definition isMark (m : Mark) (c : Call) : bool :=
  match m, c with
  | MarkPending, CallMarkPending _ _ => true
  | MarkFailed, CallMarkFailed _ _ => true
  | MarkCompleted, CallMarkCompleted _ => true
  | _, _ => false
  end.

Definition isRecordGitEvent (c : Call) : bool :=
  match c with
  | CallRecordGitEvent _ _ _ => true
  | _ => false
  end.

Definition count {A : Type} (f : A -> bool) (l : list A) : Z :=
  Z.of_nat (length (List.filter f l)).

(** What the processor asks for, whatever the queue holds: the backend is
    run with [push] and the stored arguments of an entry of [pushes],
    certification is never forced, and the event recorded is a certified
    push. *)
Definition expected (pushes : list PendingPush) (c : Call) : Prop :=
  match c with
  | CallRunGit args =>
      exists push, In push pushes /\ args = "push" :: GitArgs push
  | CallCertify proposalID force =>
      force = false /\ exists push, In push pushes /\ proposalID = ProposalID push
  | CallRecordGitEvent opType push mode =>
      opType = OpTypeGitPush /\ mode = "certified" /\ In push pushes
  | CallMarkFailed proposalID _ | CallMarkPending proposalID _
  | CallMarkCompleted proposalID =>
      exists push, In push pushes /\ proposalID = ProposalID push
  end.

(** A queue entry that [normalizePendingPush] returns as it is when the
    file is read. *)
Definition normalForm (p : PendingPush) : Prop :=
  normalizePendingPush p false "" "" = Ok p.

(** [a] comes no later than [b] in the queue: by created_at, then by
    proposal_id. *)
Definition pushBefore (a b : PendingPush) : Prop :=
  string_ltb (CreatedAt a) (CreatedAt b) = true
  \/ (CreatedAt a = CreatedAt b
      /\ string_ltb (ProposalID b) (ProposalID a) = false).

(** A content of [pending_pushes.json] that can be read, with one entry
    for a proposal_id at most. *)
Definition queueOK (file : list PendingPush) : Prop :=
  exists pushes,
    loadPendingPushesLocked file = Ok pushes
    /\ List.NoDup (map ProposalID pushes).

(** The non-blank lines of [lines] decode to the operations [l], in that
    order. *)
Definition carries (decode : string -> option Operation)
           (lines : list string) (l : list Operation) : Prop :=
  Forall2 (fun text op => decode (TrimSpace text) = Some op)
          (List.filter notBlank lines) l.
End Vocabulary.

(** What the package needs from the signature, encoding and digest
    primitives for a signed operation to verify.  A signature verifies
    under the public key that was generated with the private key; of a
    private key whose last 32 bytes are some other public key the library
    promises nothing. *)
Class GoLibLaws {L : GoLib} : Prop := {
  generate_length : forall seed pub priv,
    length seed = SeedSize ->
    ed25519_GenerateKey seed = (pub, priv) ->
    length pub = PublicKeySize /\ length priv = PrivateKeySize;
  sign_length : forall priv m,
    length priv = PrivateKeySize -> length (ed25519_Sign priv m) = SignatureSize;
  verify_sign : forall seed pub priv m,
    length seed = SeedSize ->
    ed25519_GenerateKey seed = (pub, priv) ->
    ed25519_Verify pub m (ed25519_Sign priv m) = true;
  decode_encode : forall b,
    base64_DecodeString (base64_EncodeToString b) = Some b;
  digest_length : forall m, length (sha256_Sum m) = 32%nat;
  marshal_valid : forall type author seq timestamp payload publicKey,
    json_Valid payload = true ->
    json_MarshalSignable type author seq timestamp payload publicKey <> None
}.

(** What [json.Marshal] promises of the canonical bytes: they are a JSON
    object from which [json.Unmarshal] reads the fields back.  The number
    comes back as it was, and so does a text that is valid UTF-8; bytes
    that are not are written as U+FFFD, which makes different texts alike.
    A timestamp that [time.Parse] accepts and a key that base64 decodes
    are ASCII.  The payload is written without its white space, and of it
    nothing is promised here. *)
Class MarshalLaws {L : GoLib} : Prop := {
  marshal_seq :
    forall type author seq timestamp payload publicKey
           type' author' seq' timestamp' payload' publicKey' b,
      json_MarshalSignable type author seq timestamp payload publicKey = Some b ->
      json_MarshalSignable type' author' seq' timestamp' payload' publicKey'
      = Some b ->
      seq = seq';
  marshal_type :
    forall type author seq timestamp payload publicKey
           type' author' seq' timestamp' payload' publicKey' b,
      json_MarshalSignable type author seq timestamp payload publicKey = Some b ->
      json_MarshalSignable type' author' seq' timestamp' payload' publicKey'
      = Some b ->
      utf8Valid type = true -> utf8Valid type' = true ->
      type = type';
  marshal_timestamp :
    forall type author seq timestamp payload publicKey
           type' author' seq' timestamp' payload' publicKey' b,
      json_MarshalSignable type author seq timestamp payload publicKey = Some b ->
      json_MarshalSignable type' author' seq' timestamp' payload' publicKey'
      = Some b ->
      time_ParseRFC3339Nano timestamp = true ->
      time_ParseRFC3339Nano timestamp' = true ->
      timestamp = timestamp';
  marshal_public_key :
    forall type author seq timestamp payload publicKey
           type' author' seq' timestamp' payload' publicKey' b,
      json_MarshalSignable type author seq timestamp payload publicKey = Some b ->
      json_MarshalSignable type' author' seq' timestamp' payload' publicKey'
      = Some b ->
      base64_DecodeString publicKey <> None ->
      base64_DecodeString publicKey' <> None ->
      publicKey = publicKey'
}.

(** * Concrete data

    Two nodes, a few operations, a queue and an environment for the
    processor, all run on the reference library. *)

Module Examples.
Import Go Gossip Reference.

Definition bytesOf (s : string) : bytes := list_byte_of_string s.

(** The JSON object with the one member [key], a string. *)
Definition jsonObject (key value : string) : bytes :=
  bytesOf ("{" +:+ quoted key +:+ ":" +:+ quoted value +:+ "}").

(** The operation a call returned, [fallback] when it failed. *)
Definition returned (r : result Operation * Store) (fallback : Operation)
  : Operation :=
  match fst r with
  | Ok op => op
  | Err _ => fallback
  end.

Definition noOp : Operation :=
  {| ID := ""; Type_ := ""; Author := ""; Seq := 0; Timestamp := "";
     Payload := []; PublicKey := ""; Signature := "" |}.

(** Node A appends two operations, the first with an empty payload. *)
Abbreviation callA1 := (AppendLocalOp storeA t1 true "git.commit" []).
Abbreviation opA1 := (returned callA1 noOp).
Abbreviation storeA1 := (snd callA1).
Abbreviation callA2 :=
  (AppendLocalOp storeA1 t2 true "git.push" (jsonObject "hash" "abc")).
Abbreviation opA2 := (returned callA2 noOp).
Abbreviation storeA2 := (snd callA2).

(** Node B receives the second one only. *)
Abbreviation callB1 := (AddRemoteOp storeB true opA2).
Abbreviation storeB1 := (snd callB1).

(** The second operation with another payload and the same id. *)
Abbreviation tamperedA2 := (setPayload opA2 (jsonObject "hash" "tampered")).

(** A second operation that node A signs with seq 2. *)
Abbreviation opA2' :=
  (returned (AppendLocalOp storeA1 t2 true "git.pull" []) noOp).

(** The registry after the three spellings of one peer were added. *)
Abbreviation peersAfter3 :=
  (peers (snd (AddPeer
     (snd (AddPeer (snd (AddPeer storeA true "127.0.0.1:8787")) true
                   "127.0.0.1:8787/"))
     true "http://127.0.0.1:8787"))).

(** The store after a peer whose path ends in two slashes was added. *)
Abbreviation storeSlashes :=
  (snd (AddPeer storeA true "http://peer.example/gossip//")).

(** A push as [cmdPush] hands it to [UpsertPendingPush], with blanks around
    the proposal id. *)
Definition pushP1 : PendingPush :=
  {| ProposalID := " p1 "; Remote := "origin"; SourceRef := "refs/heads/main";
     TargetRef := "refs/heads/main"; NewOID := "2222";
     GitArgs := ["origin"; "main"]; Status := ""; Attempts := 0;
     LastError := ""; CreatedAt := ""; UpdatedAt := ""; LastTriedAt := "";
     CompletedAt := "" |}.

(** [pushP1] as [normalizePendingPush] stores it. *)
Definition storedP1 : PendingPush :=
  {| ProposalID := "p1"; Remote := "origin"; SourceRef := "refs/heads/main";
     TargetRef := "refs/heads/main"; NewOID := "2222";
     GitArgs := ["origin"; "main"]; Status := "pending"; Attempts := 0;
     LastError := ""; CreatedAt := t1; UpdatedAt := t2; LastTriedAt := "";
     CompletedAt := "" |}.

Definition oldStamp : string := "2020-01-01T00:00:00Z".

(** The argument of the second upsert after normalisation at [t2]. *)
Definition normP1' : PendingPush :=
  {| ProposalID := "p1"; Remote := "origin"; SourceRef := "refs/heads/main";
     TargetRef := "refs/heads/main"; NewOID := "2222";
     GitArgs := ["origin"; "main"]; Status := "pending"; Attempts := 3;
     LastError := ""; CreatedAt := t2; UpdatedAt := t2; LastTriedAt := "";
     CompletedAt := "" |}.

(** [pushP1] with a created_at of its own, as stored at [t1]. *)
Definition storedOld : PendingPush :=
  {| ProposalID := "p1"; Remote := "origin"; SourceRef := "refs/heads/main";
     TargetRef := "refs/heads/main"; NewOID := "2222";
     GitArgs := ["origin"; "main"]; Status := "pending"; Attempts := 0;
     LastError := ""; CreatedAt := oldStamp; UpdatedAt := t1; LastTriedAt := "";
     CompletedAt := "" |}.

(** A queue entry with the given proposal id and status. *)
Definition pushWith (pid status : string) : PendingPush :=
  {| ProposalID := pid; Remote := "origin"; SourceRef := "refs/heads/main";
     TargetRef := "refs/heads/main"; NewOID := "2222";
     GitArgs := ["origin"; "main"]; Status := status; Attempts := 0;
     LastError := ""; CreatedAt := t1; UpdatedAt := t1; LastTriedAt := "";
     CompletedAt := "" |}.

Definition examplePushes : list PendingPush :=
  [pushWith "p-done" "completed"; pushWith "p-expired" "pending";
   pushWith "p-waiting" "pending"; pushWith "p-ready" "failed"].

Definition exampleStatus (expired certified quorum : bool) : Vcs.ProposalStatus :=
  {| Vcs.Expired := expired; Vcs.Certified := certified;
     Vcs.HasQuorum := quorum; Vcs.YesVoters := ["a"];
     Vcs.Members := ["a"; "b"]; Vcs.RequiredYes := 2 |}.

(** One proposal has expired, one waits for a second vote and one has its
    quorum; certification and the backend push succeed. *)
Definition exampleEnv : Vcs.Env :=
  {| Vcs.store_ListPendingPushes := fun _ => inr examplePushes;
     Vcs.store_ProposalStatus := fun _ pid =>
       if string_eqb pid "p-expired" then inr (exampleStatus true false false)
       else if string_eqb pid "p-waiting" then inr (exampleStatus false false false)
       else if string_eqb pid "p-ready" then inr (exampleStatus false false true)
       else inl "proposal not found";
     Vcs.store_CertifyProposal := fun _ _ _ => None;
     Vcs.runGitFn := fun _ _ => None |}.

Definition startState : Vcs.LoopState :=
  {| Vcs.result_ := Vcs.zeroResult; Vcs.firstErr := None; Vcs.calls := [] |}.

(** Node B after it received the first operation of node A only. *)
Abbreviation storeB0 := (snd (AddRemoteOp storeB true opA1)).

(** The registry of node A with one peer. *)
Abbreviation storeP := (snd (AddPeer storeA true "127.0.0.1:8787")).

(** A log of two lines that stand for the two operations of node A, the
    first with a carriage return at its end, with a blank line between
    them, and a decoder that knows the two. *)
Definition exampleDecode (raw : string) : option Operation :=
  if string_eqb raw "first" then Some opA1
  else if string_eqb raw "second" then Some opA2
  else None.

Definition exampleLog : list string := [" first" +:+ cr; "  "; "second "].

(** The same log with a line of spaces between the two operations that
    the scanner cannot hold. *)
Fixpoint spaces (n : nat) : string :=
  match n with
  | O => EmptyString
  | S n' => String " " (spaces n')
  end.

Definition longLine : string := spaces (N.to_nat maxTokenSize).

Definition longLog : list string := [" first" +:+ cr; longLine; "second "].

(** The same log with a line that does not decode. *)
Definition brokenLog : list string := ["second"; ""; "{"].

(** The store a call of [OpenStore] returned, [fallback] when it failed. *)
Definition opened (r : openError + Store) (fallback : Store) : Store :=
  match r with
  | inr s => s
  | inl _ => fallback
  end.

Definition isOpened (r : openError + Store) : bool :=
  match r with
  | inr _ => true
  | inl _ => false
  end.

Abbreviation callOpen :=
  (OpenStore exampleDecode (identityOf privB) privB
             (Some ["127.0.0.1:8787/"; "http://127.0.0.1:8787"])
             (Some exampleLog)).

(** Three queue entries stamped within two seconds, as they were
    written and as they are listed: [RFC3339Nano] prints the whole second
    without a fraction. *)
Definition pushAt (pid createdAt : string) : PendingPush :=
  {| ProposalID := pid; Remote := "origin"; SourceRef := "refs/heads/main";
     TargetRef := "refs/heads/main"; NewOID := "2222";
     GitArgs := ["origin"; "main"]; Status := "pending"; Attempts := 0;
     LastError := ""; CreatedAt := createdAt; UpdatedAt := createdAt;
     LastTriedAt := ""; CompletedAt := "" |}.

Definition stampedPushes : list PendingPush :=
  [pushAt "p-first" "2026-02-10T04:13:37Z";
   pushAt "p-second" "2026-02-10T04:13:37.5Z";
   pushAt "p-third" "2026-02-10T04:13:38Z"].

Definition stampedQueue : list PendingPush :=
  [pushAt "p-second" "2026-02-10T04:13:37.5Z";
   pushAt "p-first" "2026-02-10T04:13:37Z";
   pushAt "p-third" "2026-02-10T04:13:38Z"].

(** The queue of the processor example, as it is listed. *)
Definition exampleQueue : list PendingPush :=
  [pushWith "p-done" "completed"; pushWith "p-expired" "pending";
   pushWith "p-ready" "failed"; pushWith "p-waiting" "pending"].

(** Git on the branch [main] that tracks [origin/main], with the commit
    [abc123] at [topic] and no remote-tracking ref for [release]. *)
Definition exampleGit (k : nat) (args : list string) : Vcs.errorT + string :=
  let newline := bs [10%nat] in
  match k with
  | 0%nat => inr ("main" +:+ newline)
  | 1%nat => inr ("origin/main" +:+ newline)
  | 2%nat => inr ("abc123" +:+ newline)
  | _ => inl "unknown revision"
  end.

Definition examplePushArgs : list string :=
  ["--force"; "origin"; "topic:release"].

Definition exampleIntent : Vcs.PushIntent.pushIntent :=
  {| Vcs.PushIntent.Remote := "origin";
     Vcs.PushIntent.SourceRef := "topic";
     Vcs.PushIntent.TargetRef := "refs/heads/release";
     Vcs.PushIntent.TargetBranch := "release";
     Vcs.PushIntent.NewOID := "abc123";
     Vcs.PushIntent.OldOID := "" |}.
End Examples.

(** * Properties *)

(** ** Basic facts about the helpers *)

Example TrimSpace_blanks : TrimSpace "  a b " = "a b".
Proof. reflexivity. Qed.

(** The no-break space U+00A0 and the en quad U+2000 are white space. *)
Example TrimSpace_unicode :
  TrimSpace (bs [194; 160; 32; 65; 226; 128; 128; 10]%nat) = "A".
Proof. reflexivity. Qed.

Lemma string_eqb_eq (a b : string) : string_eqb a b = true <-> a = b.
Proof. unfold string_eqb. apply bool_decide_eq_true. Qed.

Lemma string_eqb_neq (a b : string) : string_eqb a b = false <-> a <> b.
Proof. unfold string_eqb. apply bool_decide_eq_false. Qed.

Lemma string_eqb_refl (a : string) : string_eqb a a = true.
Proof. by apply string_eqb_eq. Qed.

Lemma cloneRawJSON_id (p : bytes) : cloneRawJSON p = p.
Proof. by destruct p. Qed.

Lemma setPayload_clone (op : Operation) :
  setPayload op (cloneRawJSON (Payload op)) = op.
Proof. rewrite cloneRawJSON_id. by destruct op. Qed.

(** *** [strings.TrimSpace] returns a string it leaves alone *)

Lemma trimLeftFuel_none (fuel : nat) (tokens : list string) (s : string) :
  leadingSpace tokens s = None -> trimLeftFuel fuel tokens s = s.
Proof. intros H. destruct fuel; simpl; [done | by rewrite H]. Qed.

Lemma hasPrefix_split (s t : string) :
  hasPrefix s t = true ->
  exists rest, s = t +:+ rest /\ dropBytes (String.length t) s = rest.
Proof.
  revert s. induction t as [|c t IH]; intros s H; simpl in *.
  - by exists s.
  - destruct s as [|d s]; [done|].
    apply andb_true_iff in H as [Hc Ht]. apply bool_decide_eq_true in Hc as ->.
    destruct (IH s Ht) as (rest & -> & Hd). exists rest. by rewrite Hd.
Qed.

Lemma hasPrefix_app (z w t : string) :
  hasPrefix z t = true -> hasPrefix (z +:+ w) t = true.
Proof.
  revert z. induction t as [|c t IH]; intros z H; simpl in *; [done|].
  destruct z as [|d z]; [done|]. simpl.
  apply andb_true_iff in H as [Hc Ht]. rewrite Hc. simpl. by apply IH.
Qed.

Lemma string_app_assoc (a b c : string) : (a +:+ b) +:+ c = a +:+ (b +:+ c).
Proof.
  induction a as [|x a IH]; [done|].
  change (String x ((a +:+ b) +:+ c) = String x (a +:+ (b +:+ c))).
  by rewrite IH.
Qed.

Lemma string_length_app (a b : string) :
  String.length (a +:+ b) = (String.length a + String.length b)%nat.
Proof.
  induction a as [|c a IH]; [done|].
  change (S (String.length (a +:+ b)) = S (String.length a + String.length b)).
  by rewrite IH.
Qed.

Lemma leadingSpace_Some (tokens : list string) (s : string) (n : nat) :
  leadingSpace tokens s = Some n ->
  exists t, In t tokens /\ hasPrefix s t = true /\ n = String.length t.
Proof.
  induction tokens as [|t ts IH]; simpl; [done|].
  destruct (hasPrefix s t) eqn:E.
  - intros [= <-]. exists t. auto.
  - intros H. destruct (IH H) as (t' & ? & ? & ?). exists t'. auto.
Qed.

Lemma leadingSpace_None (tokens : list string) (s : string) :
  leadingSpace tokens s = None <->
  (forall t, In t tokens -> hasPrefix s t = false).
Proof.
  induction tokens as [|t ts IH]; simpl; [by split|].
  destruct (hasPrefix s t) eqn:E.
  - split; [done|]. intros H. rewrite (H t) in E; [done | by left].
  - rewrite IH. split.
    + intros H t' [<- | Hin]; [done | by apply H].
    + intros H t' Hin. apply H. by right.
Qed.

Lemma trimLeftFuel_suffix (fuel : nat) (tokens : list string) (s : string) :
  exists pre, s = pre +:+ trimLeftFuel fuel tokens s.
Proof.
  revert s. induction fuel as [|fuel IH]; intros s; simpl; [by exists ""|].
  destruct (leadingSpace tokens s) as [n|] eqn:E; [|by exists ""].
  apply leadingSpace_Some in E as (t & _ & Hp & ->).
  apply hasPrefix_split in Hp as (rest & -> & ->).
  destruct (IH rest) as (pre & Hpre). exists (t +:+ pre).
  rewrite string_app_assoc. by rewrite <- Hpre.
Qed.

Lemma trimLeftFuel_clean (fuel : nat) (tokens : list string) (s : string) :
  (forall t, In t tokens -> t <> "") ->
  (String.length s <= fuel)%nat ->
  leadingSpace tokens (trimLeftFuel fuel tokens s) = None.
Proof.
  intros Hne. revert s. induction fuel as [|fuel IH]; intros s Hlen; simpl.
  - destruct s; [|simpl in Hlen; lia].
    apply leadingSpace_None. intros t Ht.
    destruct t; [by destruct (Hne _ Ht) | done].
  - destruct (leadingSpace tokens s) as [n|] eqn:E; [|done].
    apply leadingSpace_Some in E as (t & Ht & Hp & ->).
    apply hasPrefix_split in Hp as (rest & -> & ->).
    apply IH. rewrite string_length_app in Hlen.
    destruct t; [by destruct (Hne _ Ht)|]. simpl in Hlen. lia.
Qed.

Lemma whiteSpace_nonempty (t : string) : In t whiteSpace -> t <> "".
Proof.
  assert (forallb (fun t => negb (string_eqb t "")) whiteSpace = true) as H
      by reflexivity.
  rewrite forallb_forall in H. intros Hin ->. by apply H in Hin.
Qed.

Lemma whiteSpace_rev_nonempty (t : string) :
  In t (map rev_string whiteSpace) -> t <> "".
Proof.
  assert (forallb (fun t => negb (string_eqb t "")) (map rev_string whiteSpace)
          = true) as H by reflexivity.
  rewrite forallb_forall in H. intros Hin ->. by apply H in Hin.
Qed.

Lemma rev_string_app (a b : string) :
  rev_string (a +:+ b) = rev_string b +:+ rev_string a.
Proof.
  unfold rev_string.
  assert (forall x y, list_ascii_of_string (x +:+ y)
                      = list_ascii_of_string x ++ list_ascii_of_string y) as E1.
  { intros x y. induction x as [|c x IH]; simpl; [done | by rewrite IH]. }
  assert (forall x y, string_of_list_ascii (x ++ y)
                      = string_of_list_ascii x +:+ string_of_list_ascii y) as E2.
  { intros x y. induction x as [|c x IH]; simpl; [done | by rewrite IH]. }
  by rewrite E1, rev_app_distr, E2.
Qed.

Lemma rev_string_involutive (s : string) : rev_string (rev_string s) = s.
Proof.
  unfold rev_string.
  by rewrite list_ascii_of_string_of_list_ascii, rev_involutive,
    string_of_list_ascii_of_string.
Qed.

Lemma rev_string_length (s : string) :
  String.length (rev_string s) = String.length s.
Proof.
  unfold rev_string.
  assert (forall l, String.length (string_of_list_ascii l) = length l) as E1.
  { induction l as [|c l IH]; simpl; [done | by rewrite IH]. }
  assert (forall x, length (list_ascii_of_string x) = String.length x) as E2.
  { induction x as [|c x IH]; simpl; [done | by rewrite IH]. }
  by rewrite E1, length_rev, E2.
Qed.

Lemma TrimSpace_idempotent (s : string) : TrimSpace (TrimSpace s) = TrimSpace s.
Proof.
  unfold TrimSpace at 2 3. unfold trimRight.
  set (x := trimLeft s). set (r := rev_string x).
  set (y := trimLeftFuel (String.length r) (map rev_string whiteSpace) r).
  assert (leadingSpace whiteSpace x = None) as Hx.
  { apply trimLeftFuel_clean; [apply whiteSpace_nonempty | done]. }
  assert (leadingSpace (map rev_string whiteSpace) y = None) as Hy.
  { apply trimLeftFuel_clean; [apply whiteSpace_rev_nonempty | done]. }
  destruct (trimLeftFuel_suffix (String.length r) (map rev_string whiteSpace) r)
    as (pre & Hpre). fold y in Hpre.
  assert (x = rev_string y +:+ rev_string pre) as Hxz.
  { rewrite <- rev_string_app, <- Hpre. unfold r.
    by rewrite rev_string_involutive. }
  assert (leadingSpace whiteSpace (rev_string y) = None) as Hz.
  { apply leadingSpace_None. intros t Ht.
    destruct (hasPrefix (rev_string y) t) eqn:E; [|done].
    apply (hasPrefix_app _ (rev_string pre)) in E. rewrite <- Hxz in E.
    rewrite leadingSpace_None in Hx. by rewrite (Hx t Ht) in E. }
  unfold TrimSpace, trimLeft. rewrite (trimLeftFuel_none _ _ _ Hz).
  unfold trimRight. rewrite rev_string_involutive.
  by rewrite (trimLeftFuel_none _ _ _ Hy).
Qed.

(** *** [strings.TrimSpace] after [dropCR] *)

Lemma hasPrefix_app_cr (t u : string) :
  lacksCR t = true \/ (t = cr /\ u <> "") ->
  hasPrefix (u +:+ cr) t = hasPrefix u t.
Proof.
  intros [Ht | [-> Hu]].
  - revert u. induction t as [|c t IH]; intros u; [by destruct u|].
    unfold lacksCR in Ht. simpl in Ht. apply andb_true_iff in Ht as [Hc Ht].
    destruct u as [|d u].
    + change (bool_decide (c = ascii_of_nat 13) && hasPrefix "" t = false).
      apply negb_true_iff in Hc. by rewrite Hc.
    + change (bool_decide (c = d) && hasPrefix (u +:+ cr) t
              = bool_decide (c = d) && hasPrefix u t).
      f_equal. by apply IH.
  - destruct u as [|d u]; [done|].
    change (bool_decide (ascii_of_nat 13 = d) && hasPrefix (u +:+ cr) ""
            = bool_decide (ascii_of_nat 13 = d) && hasPrefix u "").
    f_equal; by destruct u.
Qed.

Lemma whiteSpace_cr (t : string) :
  In t whiteSpace -> lacksCR t = true \/ t = cr.
Proof.
  assert (forallb (fun t => lacksCR t || string_eqb t cr) whiteSpace = true) as H
      by reflexivity.
  rewrite forallb_forall in H. intros Hin. apply H in Hin.
  apply orb_true_iff in Hin as [? | ?%string_eqb_eq]; auto.
Qed.

Lemma leadingSpace_app_cr (u : string) :
  u <> "" -> leadingSpace whiteSpace (u +:+ cr) = leadingSpace whiteSpace u.
Proof.
  intros Hu.
  assert (forall tokens, (forall t, In t tokens -> In t whiteSpace) ->
            leadingSpace tokens (u +:+ cr) = leadingSpace tokens u) as G.
  { induction tokens as [|t ts IH]; intros Hsub; simpl; [done|].
    rewrite hasPrefix_app_cr.
    - rewrite IH; [done|]. intros t' Ht'. apply Hsub. by right.
    - destruct (whiteSpace_cr t); [apply Hsub; by left | by left | by right]. }
  by apply G.
Qed.

Lemma trimLeftFuel_app_cr (fuel : nat) (u : string) :
  (String.length u <= fuel)%nat ->
  trimLeftFuel (S fuel) whiteSpace (u +:+ cr)
  = if string_eqb (trimLeftFuel fuel whiteSpace u) "" then ""
    else trimLeftFuel fuel whiteSpace u +:+ cr.
Proof.
  revert u. induction fuel as [|fuel IH]; intros u Hlen.
  - destruct u; [reflexivity | simpl in Hlen; lia].
  - destruct u as [|d u]; [reflexivity|].
    change (match leadingSpace whiteSpace (String d u +:+ cr) with
            | Some n => trimLeftFuel (S fuel) whiteSpace
                          (dropBytes n (String d u +:+ cr))
            | None => String d u +:+ cr
            end
            = if string_eqb (trimLeftFuel (S fuel) whiteSpace (String d u)) ""
              then "" else trimLeftFuel (S fuel) whiteSpace (String d u) +:+ cr).
    rewrite leadingSpace_app_cr by done.
    change (trimLeftFuel (S fuel) whiteSpace (String d u))
      with (match leadingSpace whiteSpace (String d u) with
            | Some n => trimLeftFuel fuel whiteSpace (dropBytes n (String d u))
            | None => String d u
            end).
    destruct (leadingSpace whiteSpace (String d u)) as [n|] eqn:E; [|done].
    apply leadingSpace_Some in E as (t & Ht & Hp & ->).
    apply hasPrefix_split in Hp as (rest & Hrest & Hdrop).
    rewrite Hdrop. rewrite Hrest, string_app_assoc.
    assert (dropBytes (String.length t) (t +:+ rest +:+ cr) = rest +:+ cr) as ->.
    { clear. induction t as [|c t IH]; [done | exact IH]. }
    apply IH.
    apply (f_equal String.length) in Hrest. rewrite string_length_app in Hrest.
    pose proof (whiteSpace_nonempty t Ht). destruct t; [done|].
    simpl in *. lia.
Qed.

Lemma trimRight_app_cr (x : string) : trimRight (x +:+ cr) = trimRight x.
Proof.
  unfold trimRight. rewrite rev_string_app.
  change (rev_string cr +:+ rev_string x) with (String (ascii_of_nat 13) (rev_string x)).
  reflexivity.
Qed.

Lemma dropCR_spec (data : string) :
  dropCR data = data \/ data = dropCR data +:+ cr.
Proof.
  unfold dropCR, trimSuffix. fold cr.
  destruct (hasSuffix data cr) eqn:E; [|by left]. right.
  unfold hasSuffix in E. apply hasPrefix_split in E as (rest & Hr & Hd).
  change (String.length cr) with (String.length (rev_string cr)).
  rewrite Hd. apply (f_equal rev_string) in Hr.
  rewrite rev_string_involutive, rev_string_app in Hr.
  by rewrite rev_string_involutive in Hr.
Qed.

(** The carriage return that [bufio.ScanLines] takes off a line is white
    space: [strings.TrimSpace] gives the same with it and without. *)
Lemma TrimSpace_dropCR (text : string) :
  TrimSpace (dropCR text) = TrimSpace text.
Proof.
  destruct (dropCR_spec text) as [-> | H]; [done|].
  set (u := dropCR text) in *. rewrite H. clearbody u. clear H text.
  unfold TrimSpace, trimLeft at 2.
  rewrite string_length_app, Nat.add_comm.
  change (String.length cr + String.length u)%nat with (S (String.length u)).
  rewrite trimLeftFuel_app_cr by done. fold (trimLeft u).
  destruct (string_eqb (trimLeft u) "") eqn:E.
  - apply string_eqb_eq in E. by rewrite E.
  - by rewrite trimRight_app_cr.
Qed.

(** ** The operation log *)

Section Oplog.
Context {L : GoLib}.

Lemma addOperationLocked_outcome s op persist appendOK :
  addOutcome s op persist appendOK (addOperationLocked s op persist appendOK).
Proof.
  unfold addOperationLocked.
  destruct (verifyOperation op) as [e|] eqn:Hv; [by constructor|].
  case_decide as Hid; [by constructor|].
  destruct (authorSeqIndex s !! authorSeqKey (Author op) (Seq op))
    as [existingID|] eqn:Hk.
  - destruct (string_eqb existingID (ID op)) eqn:He; simpl.
    + apply string_eqb_eq in He. rewrite setPayload_clone.
      apply out_added; try done. intros x Hx. congruence.
    + apply string_eqb_neq in He. by eapply out_conflict.
  - simpl. rewrite setPayload_clone. apply out_added; try done.
    intros x Hx. congruence.
Qed.

Lemma canonicalOperationBytes_error op e :
  canonicalOperationBytes op = Err e -> isVerificationError e = true.
Proof.
  unfold canonicalOperationBytes.
  repeat (case_match; try done); intros [= <-]; done.
Qed.

Lemma verifyOperation_error op e :
  verifyOperation op = Some e -> isVerificationError e = true.
Proof.
  unfold verifyOperation.
  repeat (case_match; try done); intros [= <-]; try done.
  by eapply canonicalOperationBytes_error.
Qed.

Lemma verifyOperation_ok op :
  verifyOperation op = None <->
  exists pubBytes signature signable, verified op pubBytes signature signable.
Proof.
  unfold verifyOperation. split.
  - repeat (case_match; try done). intros _.
    repeat match goal with
           | H : string_eqb _ _ = false |- _ => apply string_eqb_neq in H
           | H : negb _ = false |- _ => apply negb_false_iff in H
           | H : string_eqb _ _ = true |- _ => apply string_eqb_eq in H
           | H : Nat.eqb _ _ = true |- _ => apply Nat.eqb_eq in H
           | H : N.eqb _ _ = false |- _ => apply N.eqb_neq in H
           end.
    eexists _, _, _. by constructor.
  - intros (pubBytes & signature & signable & [H1 H2 H3 H4 H5 H6 H7 H8 H9 H10 H11 H12 H13]).
    apply string_eqb_neq in H1, H2, H3. apply N.eqb_neq in H4.
    rewrite H1, H2, H3, H4, H5, H6, H9, H11. simpl.
    rewrite H7, H10, H12, <- H8, <- H13. simpl.
    by rewrite !string_eqb_refl.
Qed.

(** *** Reachable stores and their invariant *)

Lemma wf_newStore id priv ps : wf (newStore id priv ps).
Proof.
  constructor; simpl; try (intros; contradiction).
  - intros i Hi. set_solver.
  - intros A n Hn. by rewrite lookup_empty in Hn.
Qed.

Lemma verified_seq_pos op : verifyOperation op = None -> Seq op <> 0.
Proof.
  intros H. apply verifyOperation_ok in H as (? & ? & ? & H). apply H.
Qed.

Lemma wf_appended s op :
  wf s -> verifyOperation op = None -> wf (appended s op).
Proof.
  intros W Hv. pose proof (verified_seq_pos op Hv) as Hpos.
  constructor; simpl.
  - intros o [Ho | [<- | []]]%in_app_or; [by apply W | done].
  - intros o [Ho | [<- | []]]%in_app_or; [|set_solver].
    apply (wf_ids s W) in Ho. set_solver.
  - intros i [Hi | Hi]%elem_of_union.
    + apply elem_of_singleton in Hi as ->. exists op. split; [|done].
      apply in_or_app. right. by left.
    + destruct (wf_ids_back s W i Hi) as (o & Ho & <-).
      exists o. split; [|done]. apply in_or_app. by left.
  - intros o Ho.
    destruct (decide (authorSeqKey (Author op) (Seq op)
                      = authorSeqKey (Author o) (Seq o))) as [Hk | Hk].
    + exists (ID op). rewrite <- Hk, lookup_insert_eq. split; [done | set_solver].
    + rewrite lookup_insert_ne by done.
      apply in_app_or in Ho as [Ho | [<- | []]]; [|done].
      destruct (wf_index s W o Ho) as (i & Hi & Hin).
      exists i. split; [done | set_solver].
  - intros A n Hn.
    assert (forall o, In o (ops s) -> In o (ops s ++ [op])) as Hold
        by (intros; apply in_or_app; by left).
    assert (In op (ops s ++ [op])) as Hnew
        by (apply in_or_app; right; by left).
    destruct (seqOf (seqByAuthor s) (Author op) <? Seq op) eqn:Hlt.
    + destruct (decide (Author op = A)) as [<- | Hne].
      * rewrite lookup_insert_eq in Hn. injection Hn as <-. by exists op.
      * rewrite lookup_insert_ne in Hn by done.
        destruct (wf_attained s W A n Hn) as (o & Ho & ?). exists o. auto.
    + destruct (wf_attained s W A n Hn) as (o & Ho & ?). exists o. auto.
  - intros o Ho.
    destruct (seqOf (seqByAuthor s) (Author op) <? Seq op) eqn:Hlt.
    + apply N.ltb_lt in Hlt.
      apply in_app_or in Ho as [Ho | [<- | []]].
      * destruct (wf_bound s W o Ho) as (n & Hn & Hle).
        destruct (decide (Author op = Author o)) as [Ha | Ha].
        -- exists (Seq op). rewrite Ha, lookup_insert_eq. split; [done|].
           unfold seqOf in Hlt. rewrite Ha, Hn in Hlt. simpl in Hlt. lia.
        -- exists n. by rewrite lookup_insert_ne.
      * exists (Seq op). rewrite lookup_insert_eq. split; [done | lia].
    + apply N.ltb_ge in Hlt.
      apply in_app_or in Ho as [Ho | [<- | []]]; [by apply W|].
      unfold seqOf in Hlt.
      destruct (seqByAuthor s !! Author op) as [n|]; simpl in Hlt.
      * by exists n.
      * lia.
Qed.

Lemma wf_addOperationLocked s op persist appendOK r s' :
  wf s -> addOperationLocked s op persist appendOK = (r, s') -> wf s'.
Proof.
  intros W H.
  pose proof (addOperationLocked_outcome s op persist appendOK) as O.
  rewrite H in O. inversion O; subst; try done.
  destruct (persist && negb appendOK);
    match goal with H : _ = (_, s') |- _ => injection H as _ <- end;
    by apply wf_appended.
Qed.

(** [AppendLocalOp] leaves the store as it was or appends one operation
    of the local node with the next sequence number. *)
Lemma AppendLocalOp_outcome s now appendOK opType payload r s' :
  AppendLocalOp s now appendOK opType payload = (r, s') ->
  (s' = s /\ forall op, r <> Ok op) \/
  exists op,
    verifyOperation op = None /\ (ID op ∉ opIDs s) /\ s' = appended s op /\
    Author op = NodeID (identity s) /\
    Seq op = wrapUint64 (seqOf (seqByAuthor s) (NodeID (identity s)) + 1) /\
    (r = Ok op \/ r = Err ErrAppendOp).
Proof.
  unfold AppendLocalOp.
  destruct (string_eqb (TrimSpace opType) "");
    [intros [= <- <-]; left; by split|].
  destruct (negb (json_Valid _)); [intros [= <- <-]; left; by split|].
  destruct (signOperation _ _) as [[signature opID]|e];
    [|intros [= <- <-]; left; by split].
  match goal with |- context [addOperationLocked s ?o true appendOK] =>
    pose proof (addOperationLocked_outcome s o true appendOK) as O;
    destruct (addOperationLocked s o true appendOK) as [[added err] s1] eqn:Hadd;
    set (op := o) in *
  end.
  inversion O; subst.
  - intros [= <- <-]. left. by split.
  - intros [= <- <-]. left. by split.
  - intros [= <- <-]. left. by split.
  - simpl in *. destruct appendOK; simpl in *.
    + match goal with H : (_, _, _) = (_, _, _) |- _ => injection H as <- <- <- end.
      intros [= <- <-]. right. exists op. repeat split; auto.
    + match goal with H : (_, _, _) = (_, _, _) |- _ => injection H as <- <- <- end.
      intros [= <- <-]. right. exists op. repeat split; auto.
Qed.

Lemma replay_step s op appendOK :
  addOperationLocked s op false appendOK = AddRemoteOp s true op.
Proof.
  unfold AddRemoteOp, addOperationLocked. by repeat case_match.
Qed.

Lemma wf_setPeers s ps : wf s -> wf (setPeers s ps).
Proof. intros []. by constructor. Qed.

Lemma reachable_wf s : reachable s -> wf s.
Proof.
  induction 1 as [id priv ps | s now ok ty payload r s' _ IH H
                  | s ok op r s' _ IH H | s ok raw r s' _ IH H
                  | s ok raw r s' _ IH H].
  - apply wf_newStore.
  - apply AppendLocalOp_outcome in H as [[-> _] | (op & Hv & _ & -> & _)];
      [done | by apply wf_appended].
  - by eapply wf_addOperationLocked.
  - unfold AddPeer in H. repeat case_match; injection H as _ <-; try done;
      by apply wf_setPeers.
  - unfold RemovePeer in H. repeat case_match; injection H as _ <-; try done;
      by apply wf_setPeers.
Qed.

Lemma reachableLocal_reachable s : reachableLocal s -> reachable s.
Proof. induction 1; [apply reach_new | by eapply reach_append]. Qed.
End Oplog.

(** ** Duplicates, conflicts, summaries and sequence numbers *)

(** C10. Rejection atomicity of [AddRemoteOp]: when it returns [false]
    because the operation failed verification, because its id is already
    known (no error), or because of an (author, seq) conflict, the
    operations returned by [Ops], for every limit, and the map returned by
    [Summary] are what they were before the call. *)
Theorem AddRemoteOp_rejection_atomic {L : GoLib}
  (s s' : Store) (appendOK : bool) (op : Operation) (err : option error) :
  AddRemoteOp s appendOK op = (false, err, s') ->
  (err = None \/
   exists e, err = Some e /\ (isVerificationError e = true \/ isConflict e = true)) ->
  (forall limit, Ops s' limit = Ops s limit) /\ Summary s' = Summary s.
Proof.
  unfold AddRemoteOp. intros H Hwhy.
  pose proof (addOperationLocked_outcome s op true appendOK) as O.
  rewrite H in O. inversion O; subst; try done.
  exfalso. destruct appendOK; simpl in *; [done|].
  match goal with H : (_, _, _) = (_, _, _) |- _ => injection H as <- <- end.
  destruct Hwhy as [? | (e & [= <-] & [? | ?])]; done.
Qed.

(** C2, as amended. [AddRemoteOp] decides in this order, on every
    reachable store: an operation that fails [verifyOperation] is rejected
    with the verification error (whether or not its id or its (author, seq)
    pair is known); a verified operation whose id is already in the log
    returns [(false, nil)]; a verified operation whose id is not in the log
    and whose (author, seq) pair is in the log returns the conflict error.
    The store is unchanged in the three cases. *)
Theorem AddRemoteOp_duplicate_conflict {L : GoLib}
  (s : Store) (appendOK : bool) (op : Operation) :
  reachable s ->
  (forall e, verifyOperation op = Some e ->
             AddRemoteOp s appendOK op = (false, Some e, s)) /\
  (verifyOperation op = None ->
   (exists op0, In op0 (ops s) /\ ID op0 = ID op) ->
   AddRemoteOp s appendOK op = (false, None, s)) /\
  (verifyOperation op = None ->
   ~ (exists op0, In op0 (ops s) /\ ID op0 = ID op) ->
   (exists op0, In op0 (ops s) /\ Author op0 = Author op /\ Seq op0 = Seq op) ->
   AddRemoteOp s appendOK op
   = (false, Some (ErrConflict (Author op) (Seq op)), s)).
Proof.
  intros W%reachable_wf. unfold AddRemoteOp, addOperationLocked.
  split; [|split].
  - by intros e ->.
  - intros -> (op0 & Hin & Hid).
    apply (wf_ids s W) in Hin. rewrite Hid in Hin. by rewrite decide_True.
  - intros -> Hfresh (op0 & Hin & Ha & Hs).
    assert (ID op ∉ opIDs s) as Hnot.
    { intros (o & Ho & Hid)%(wf_ids_back s W). apply Hfresh. eauto. }
    rewrite decide_False by done.
    destruct (wf_index s W op0 Hin) as (i & Hi & Hmem).
    rewrite Ha, Hs in Hi. rewrite Hi.
    assert (i <> ID op) as Hne by (intros ->; done).
    apply string_eqb_neq in Hne. by rewrite Hne.
Qed.

(** C9. Summary faithfulness: in every reachable store, [Summary] holds
    exactly the authors that appear in the log, and maps each of them to
    the largest seq among that author's stored operations. *)
Theorem Summary_faithful {L : GoLib} (s : Store) :
  reachable s ->
  (forall A, A ∈ dom (Summary s) <-> exists op, In op (ops s) /\ Author op = A) /\
  (forall A n, Summary s !! A = Some n ->
     (exists op, In op (ops s) /\ Author op = A /\ Seq op = n) /\
     (forall op, In op (ops s) -> Author op = A -> Seq op <= n)).
Proof.
  intros W%reachable_wf. unfold Summary. split.
  - intros A. rewrite elem_of_dom. split.
    + intros [n Hn]. destruct (wf_attained s W A n Hn) as (op & ? & ? & _). eauto.
    + intros (op & Hin & <-). destruct (wf_bound s W op Hin) as (n & Hn & _). eauto.
  - intros A n Hn. split; [by apply W|].
    intros op Hin <-. destruct (wf_bound s W op Hin) as (m & Hm & Hle).
    congruence.
Qed.

Section LocalDensity.
Context {L : GoLib}.

Lemma reachableLocal_inv s : reachableLocal s -> localInv s.
Proof.
  induction 1 as [id priv ps | s now ok ty payload r s' Hs IH H].
  - constructor; simpl; try (intros; contradiction).
    + intros A m Hm. by rewrite lookup_empty in Hm.
    + intros A m Hm. simpl in Hm. by rewrite lookup_empty in Hm.
  - pose proof (reachable_wf s (reachableLocal_reachable s Hs)) as W.
    apply AppendLocalOp_outcome in H
      as [[-> _] | (op & Hv & Hid & -> & Ha & Hq & _)]; [done|].
    pose proof (verified_seq_pos op Hv) as Hpos.
    destruct IH as [IHa IHr IHd].
    set (m0 := seqOf (seqByAuthor s) (NodeID (identity s))) in *.
    assert (m0 < 2 ^ 64) as Hm0.
    { unfold m0, seqOf. destruct (seqByAuthor s !! _) eqn:E; simpl; [eauto | lia]. }
    assert (Seq op = m0 + 1) as Hseq.
    { rewrite Hq in *. unfold wrapUint64 in *.
      destruct (decide (m0 + 1 = 2 ^ 64)) as [E | E].
      - rewrite E, N.Div0.mod_same in Hpos. done.
      - apply N.mod_small. lia. }
    assert ((seqOf (seqByAuthor s) (Author op) <? Seq op) = true) as Hlt.
    { rewrite Ha. fold m0. apply N.ltb_lt. lia. }
    constructor; unfold dense; simpl; rewrite ?Hlt.
    + intros o [Ho | [<- | []]]%in_app_or; [by apply IHa | done].
    + intros A m Hm. destruct (decide (Author op = A)) as [<- | Hne].
      * rewrite lookup_insert_eq in Hm. injection Hm as <-.
        rewrite Hq. unfold wrapUint64. apply N.mod_lt. lia.
      * rewrite lookup_insert_ne in Hm by done. eauto.
    + intros A m Hm n Hn. destruct (decide (Author op = A)) as [<- | Hne].
      * rewrite lookup_insert_eq in Hm. injection Hm as <-.
        destruct (decide (n = Seq op)) as [-> | Hnn].
        -- exists op. split; [|done]. apply in_or_app. right. by left.
        -- assert (1 <= n <= m0) as Hn' by lia.
           unfold m0, seqOf in Hn'. rewrite <- Ha in Hn'.
           destruct (seqByAuthor s !! Author op) as [m|] eqn:E; simpl in Hn'; [|lia].
           destruct (IHd _ _ E n Hn') as (o & Ho & ?).
           exists o. split; [|done]. apply in_or_app. by left.
      * rewrite lookup_insert_ne in Hm by done.
        destruct (IHd _ _ Hm n Hn) as (o & Ho & ?).
        exists o. split; [|done]. apply in_or_app. by left.
Qed.
End LocalDensity.

(** C3, as amended. In every reachable store the seq values of each author
    lie in [1 .. maxSeq[author]] and [maxSeq[author]] is one of them; gaps
    below it are possible, because [AddRemoteOp] accepts a verified
    operation with any positive seq.  A store whose operations all come
    from [AppendLocalOp] has no gap. *)
Theorem sequence_bounds_and_local_density {L : GoLib} (s : Store) :
  (reachable s ->
   (forall op, In op (ops s) ->
      exists m, seqByAuthor s !! Author op = Some m /\ 1 <= Seq op <= m) /\
   (forall A m, seqByAuthor s !! A = Some m ->
      exists op, In op (ops s) /\ Author op = A /\ Seq op = m)) /\
  (reachableLocal s -> dense s).
Proof.
  split.
  - intros W%reachable_wf. split.
    + intros op Hin. destruct (wf_bound s W op Hin) as (m & Hm & Hle).
      exists m. split; [done|].
      pose proof (verified_seq_pos op (wf_verified s W op Hin)). lia.
    + apply W.
  - intros H. by apply reachableLocal_inv.
Qed.

(** ** Signing and verification *)

Lemma hexDecode_hexByte (b : Byte.byte) (s : string) :
  Reference.hexDecode (hexByte b +:+ s)
  = match Reference.hexDecode s with
    | Some rest => Some (b :: rest)
    | None => None
    end.
Proof.
  destruct b;
    change (Reference.hexDecode (hexByte ?x +:+ s))
      with (match Reference.hexValue (hexDigit (Byte.to_N x / 16)),
                  Reference.hexValue (hexDigit (Byte.to_N x mod 16)),
                  Reference.hexDecode s with
            | Some h, Some l, Some rest =>
                Some (Reference.byteOfN (16 * h + l) :: rest)
            | _, _, _ => None
            end);
    destruct (Reference.hexDecode s); reflexivity.
Qed.

Lemma hexDecode_hexEncode (l : bytes) :
  Reference.hexDecode (hexEncode l) = Some l.
Proof.
  induction l as [|b l IH]; [done|].
  change (hexEncode (b :: l)) with (hexByte b +:+ hexEncode l).
  by rewrite hexDecode_hexByte, IH.
Qed.

Lemma hexEncode_inj (a b : bytes) : hexEncode a = hexEncode b -> a = b.
Proof.
  intros H. apply (f_equal Reference.hexDecode) in H.
  rewrite !hexDecode_hexEncode in H. congruence.
Qed.

Lemma hexEncode_app (a b : bytes) :
  hexEncode (a ++ b) = hexEncode a +:+ hexEncode b.
Proof. induction a as [|x a IH]; simpl; [done | by rewrite IH]. Qed.

Lemma leadingSpace_hexByte (b : Byte.byte) (s : string) :
  leadingSpace whiteSpace (hexByte b +:+ s) = None.
Proof. destruct b; reflexivity. Qed.

Lemma leadingSpace_rev_hexByte (b : Byte.byte) (s : string) :
  leadingSpace (map rev_string whiteSpace) (rev_string (hexByte b) +:+ s) = None.
Proof. destruct b; reflexivity. Qed.

(** A hexadecimal string has no white space to trim. *)
Lemma TrimSpace_hexEncode (l : bytes) : TrimSpace (hexEncode l) = hexEncode l.
Proof.
  destruct l as [|b l]; [reflexivity|].
  unfold TrimSpace, trimLeft.
  rewrite (trimLeftFuel_none _ _ (hexEncode (b :: l)))
    by apply leadingSpace_hexByte.
  unfold trimRight.
  destruct (exists_last (l := b :: l)) as (l' & b' & ->); [done|].
  rewrite hexEncode_app.
  change (hexEncode [b']) with (hexByte b' +:+ "").
  replace (hexByte b' +:+ "") with (hexByte b') by (by destruct b').
  rewrite rev_string_app.
  rewrite trimLeftFuel_none by apply leadingSpace_rev_hexByte.
  by rewrite <- rev_string_app, rev_string_involutive.
Qed.

Lemma hexEncode_nonempty (l : bytes) : l <> [] -> hexEncode l <> "".
Proof. destruct l as [|b l]; [done|]. intros _. by destruct b. Qed.

(** The signature and id that [signOperation] computes make the operation
    pass [verifyOperation], under [GoLibLaws], when the key is a generated
    one and the operation carries the public key generated with it and the
    node id derived from that. *)
Lemma signOperation_verifies {L : GoLib} {Laws : GoLibLaws}
  (op : Operation) (seed pub priv : bytes) (sig id : string) :
  length seed = SeedSize ->
  ed25519_GenerateKey seed = (pub, priv) ->
  PublicKey op = base64_EncodeToString pub ->
  Author op = nodeIDFromPublicKey pub ->
  TrimSpace (Type_ op) <> "" ->
  Seq op <> 0 ->
  time_ParseRFC3339Nano (Timestamp op) = true ->
  signOperation op priv = Ok (sig, id) ->
  verifyOperation (setID (setSignature op sig) id) = None.
Proof.
  intros Hseed Hgen Hpub Hauth Htype Hseq Htime Hsign.
  destruct (generate_length seed pub priv Hseed Hgen) as [Hlpub Hlpriv].
  unfold signOperation in Hsign.
  destruct (canonicalOperationBytes op) as [signable|] eqn:Hc; [|done].
  injection Hsign as <- <-.
  apply verifyOperation_ok.
  exists pub, (ed25519_Sign priv signable), signable.
  constructor; simpl; try done.
  - unfold computeOperationID. rewrite TrimSpace_hexEncode.
    apply hexEncode_nonempty. intros E.
    pose proof (digest_length (signable ++ ed25519_Sign priv signable)) as D.
    by rewrite E in D.
  - rewrite Hauth. unfold nodeIDFromPublicKey. rewrite TrimSpace_hexEncode.
    apply hexEncode_nonempty. intros E.
    pose proof (digest_length pub) as D.
    apply (f_equal length) in E. rewrite length_firstn, D in E. done.
  - rewrite Hpub. apply decode_encode.
  - apply decode_encode.
  - by apply sign_length.
  - by apply (verify_sign seed).
Qed.

(** X25. [AppendLocalOp] returns: on a store that holds the identity and
    the key that [generateIdentity] made, with a type that is not blank, a
    payload that is valid JSON, a clock reading that parses and a sequence
    number that does not wrap, it builds an operation that verifies, and
    appends and returns it unless the id or the (author, seq) pair of that
    operation is already taken. *)
Lemma AppendLocalOp_builds {L : GoLib} {Laws : GoLibLaws}
  (s : Store) (seed : bytes) (writeOK : bool) (now opType : string)
  (payload : bytes) :
  let payload' := if Nat.eqb (length payload) 0 then emptyObject else payload in
  let self := NodeID (identity s) in
  length seed = SeedSize ->
  generateIdentity seed writeOK = Ok (identity s, privateKey s) ->
  TrimSpace opType <> "" ->
  json_Valid payload' = true ->
  time_ParseRFC3339Nano now = true ->
  seqOf (seqByAuthor s) self + 1 < 2 ^ 64 ->
  exists op,
    verifyOperation op = None /\
    Type_ op = TrimSpace opType /\ Author op = self /\
    Seq op = seqOf (seqByAuthor s) self + 1 /\
    Timestamp op = now /\ Payload op = payload' /\
    (AppendLocalOp s now true opType payload = (Ok op, appended s op)
     \/ (ID op ∈ opIDs s /\
         AppendLocalOp s now true opType payload = (Err ErrAlreadyExists, s))
     \/ ((exists existingID,
            authorSeqIndex s !! authorSeqKey (Author op) (Seq op) = Some existingID
            /\ existingID <> ID op) /\
         AppendLocalOp s now true opType payload
         = (Err (ErrConflict (Author op) (Seq op)), s))).
Proof.
  intros payload' self Hseed Hgen Htype Hvalid Htime Hseq.
  unfold generateIdentity in Hgen.
  destruct (ed25519_GenerateKey seed) as [pub priv] eqn:Hkey.
  destruct writeOK; [|done]. injection Hgen as Hid Hpriv.
  assert (IdPublicKey (identity s) = base64_EncodeToString pub) as Hpub
      by (by rewrite <- Hid).
  assert (self = nodeIDFromPublicKey pub) as Hnode
      by (unfold self; by rewrite <- Hid).
  clear Hid.
  assert (payload' <> []) as Hne.
  { unfold payload'. destruct payload; simpl; done. }
  assert (cloneRawJSON payload' = payload') as Hclone by apply cloneRawJSON_id.
  set (op0 := {| ID := ""; Type_ := TrimSpace opType; Author := self;
                 Seq := wrapUint64 (seqOf (seqByAuthor s) self + 1);
                 Timestamp := now; Payload := cloneRawJSON payload';
                 PublicKey := IdPublicKey (identity s); Signature := "" |}).
  assert (Seq op0 = seqOf (seqByAuthor s) self + 1) as Hseq0.
  { simpl. unfold wrapUint64. by apply N.mod_small. }
  destruct (json_MarshalSignable (Type_ op0) (Author op0) (Seq op0)
              (Timestamp op0) payload' (PublicKey op0)) as [signable|] eqn:Hm.
  2: { by apply marshal_valid in Hm. }
  assert (canonicalOperationBytes op0 = Ok signable) as Hc.
  { unfold canonicalOperationBytes. simpl Payload. rewrite !Hclone.
    destruct payload' as [|b p] eqn:E; [done|]. simpl Nat.eqb. cbv iota.
    rewrite <- E in *. by rewrite Hvalid, Hm. }
  set (sig := base64_EncodeToString (ed25519_Sign (privateKey s) signable)).
  set (id := computeOperationID signable (ed25519_Sign (privateKey s) signable)).
  assert (signOperation op0 (privateKey s) = Ok (sig, id)) as Hs.
  { unfold signOperation. by rewrite Hc. }
  set (op := setID (setSignature op0 sig) id).
  assert (verifyOperation op = None) as Hv.
  { apply (signOperation_verifies op0 seed pub (privateKey s)); try done.
    - by rewrite <- Hpriv.
    - simpl. by rewrite TrimSpace_idempotent.
    - rewrite Hseq0. lia. }
  exists op. split; [done|]. do 4 (split; [done|]).
  split; [simpl; by rewrite Hclone|].
  apply string_eqb_neq in Htype.
  assert (AppendLocalOp s now true opType payload
          = match addOperationLocked s op true true with
            | (_, Some err, s') => (Err err, s')
            | (false, None, s') => (Err ErrAlreadyExists, s')
            | (true, None, s') => (Ok op, s')
            end) as ->.
  { unfold AppendLocalOp. rewrite Htype. fold payload'. rewrite Hvalid. simpl negb.
    cbv iota. fold self. fold op0. by rewrite Hs. }
  pose proof (addOperationLocked_outcome s op true true) as O.
  inversion O as [e He | ? Hin | e ? Hnot Hk Hd | ? Hnot Hk]; subst.
  - congruence.
  - right. left. by split.
  - right. right. split; [by exists e|done].
  - left. done.
Qed.

(** Two accepted operations with one id have hashed one value: their
    canonical bytes and decoded signatures are the same, or the digest
    collides on them. *)
Lemma same_id_same_bytes {L : GoLib} (a b : Operation) :
  verifyOperation a = None -> verifyOperation b = None -> ID a = ID b ->
  idCollision a b \/
  (canonicalOperationBytes a = canonicalOperationBytes b /\
   base64_DecodeString (Signature a) = base64_DecodeString (Signature b)).
Proof.
  intros (pa & ga & sa & Va)%verifyOperation_ok
         (pb & gb & sb & Vb)%verifyOperation_ok Hid.
  destruct Va, Vb.
  destruct (List.list_eq_dec Byte.byte_eq_dec (sa ++ ga) (sb ++ gb)) as [E | E].
  - right. apply app_inj_2 in E as [-> ->]; [|congruence]. split; congruence.
  - left. exists sa, ga, sb, gb. repeat split; try done.
    apply hexEncode_inj. unfold computeOperationID in *. congruence.
Qed.

(** C1, as amended. An operation returned by a successful [AppendLocalOp]
    is accepted by [verifyOperation] unchanged.  Changing its id alone, or
    its author alone, makes [verifyOperation] reject it.  An operation
    that keeps the id is rejected when its seq, timestamp, public_key or
    author is another, when its type is another and both types are valid
    UTF-8, and whenever its canonical signable bytes or its decoded
    signature are others: unless SHA-256 maps what is hashed for the two
    operations, which then differs, to one digest.  A change that leaves
    the canonical bytes and the decoded signature as they were (an empty
    payload for [{}], which the canonical encoding identifies) is still
    accepted. *)
Theorem sign_verify_tamper {L : GoLib} {M : MarshalLaws}
  (s s' : Store) (now : string) (appendOK : bool) (opType : string)
  (payload : bytes) (op : Operation) :
  AppendLocalOp s now appendOK opType payload = (Ok op, s') ->
  verifyOperation op = None /\
  (forall id', id' <> ID op -> verifyOperation (setID op id') <> None) /\
  (forall author', author' <> Author op ->
                   verifyOperation (setAuthor op author') <> None) /\
  (forall op', ID op' = ID op ->
     Seq op' <> Seq op
     \/ Timestamp op' <> Timestamp op
     \/ PublicKey op' <> PublicKey op
     \/ Author op' <> Author op
     \/ (utf8Valid (Type_ op) = true /\ utf8Valid (Type_ op') = true
         /\ Type_ op' <> Type_ op)
     \/ canonicalOperationBytes op' <> canonicalOperationBytes op
     \/ base64_DecodeString (Signature op') <> base64_DecodeString (Signature op) ->
     verifyOperation op' <> None \/ idCollision op' op).
Proof.
  intros H.
  apply AppendLocalOp_outcome in H as [[_ H] | (op0 & Hv & _ & _ & _ & _ & H)].
  { by destruct (H op). }
  destruct H as [[= <-] | [=]].
  split; [done|].
  pose proof Hv as (pub & sig & sb & V)%verifyOperation_ok.
  split; [|split].
  - intros id' Hne Hv'.
    apply verifyOperation_ok in Hv' as (pub' & sig' & sb' & V').
    destruct V, V'. simpl in *.
    unfold canonicalOperationBytes in *. simpl in *. congruence.
  - intros a' Hne Hv'.
    apply verifyOperation_ok in Hv' as (pub' & sig' & sb' & V').
    destruct V, V'. simpl in *. congruence.
  - intros op' Hid Hchg.
    destruct (verifyOperation op') eqn:Hv'; [by left|]. right.
    destruct (same_id_same_bytes op' op Hv' Hv Hid) as [Hc | [Hc Hs]]; [done|].
    exfalso.
    apply verifyOperation_ok in Hv' as (pub' & sig' & sb' & V').
    destruct V, V'.
    assert (exists b,
      json_MarshalSignable (Type_ op') (Author op') (Seq op') (Timestamp op')
        (if Nat.eqb (length (cloneRawJSON (Payload op'))) 0
         then emptyObject else cloneRawJSON (Payload op')) (PublicKey op')
      = Some b /\
      json_MarshalSignable (Type_ op) (Author op) (Seq op) (Timestamp op)
        (if Nat.eqb (length (cloneRawJSON (Payload op))) 0
         then emptyObject else cloneRawJSON (Payload op)) (PublicKey op)
      = Some b) as (b & M1 & M2).
    { exists sb. unfold canonicalOperationBytes in *.
      repeat case_match; try done; split; congruence. }
    assert (PublicKey op' = PublicKey op) as Hpk.
    { apply (marshal_public_key _ _ _ _ _ _ _ _ _ _ _ _ _ M1 M2); congruence. }
    destruct Hchg as [Hd | [Hd | [Hd | [Hd | [(U & U' & Hd) | [Hd | Hd]]]]]];
      apply Hd; try done.
    + apply (marshal_seq _ _ _ _ _ _ _ _ _ _ _ _ _ M1 M2).
    + by apply (marshal_timestamp _ _ _ _ _ _ _ _ _ _ _ _ _ M1 M2).
    + rewrite Hpk in *. congruence.
    + by apply (marshal_type _ _ _ _ _ _ _ _ _ _ _ _ _ M1 M2).
Qed.

(** ** Sorting *)

Section SortFacts.
Context {A : Type} (less : A -> A -> bool) (le : A -> A -> Prop).
Hypothesis less_le : forall a b, less a b = true -> le a b.
Hypothesis not_less_le : forall a b, less a b = false -> le b a.
Hypothesis le_trans : forall a b c, le a b -> le b c -> le a c.

Lemma insertStable_perm (x : A) (l : list A) :
  Permutation (insertStable less x l) (x :: l).
Proof.
  induction l as [|y l IH]; simpl; [done|].
  destruct (less y x); [|done].
  rewrite IH. apply perm_swap.
Qed.

Lemma sortStable_perm (l : list A) : Permutation (sortStable less l) l.
Proof.
  induction l as [|x l IH]; simpl; [done|].
  rewrite insertStable_perm. by constructor.
Qed.

Lemma insertStable_sorted (x : A) (l : list A) :
  StronglySorted le l -> StronglySorted le (insertStable less x l).
Proof.
  induction 1 as [|y l Hs IH Hall]; simpl.
  - constructor; constructor.
  - destruct (less y x) eqn:E.
    + constructor; [done|].
      eapply Permutation_Forall; [symmetry; apply insertStable_perm|].
      constructor; [by apply less_le | done].
    + assert (le x y) as Hxy by (by apply not_less_le).
      constructor; [by constructor|].
      constructor; [done|].
      eapply Forall_impl; [exact Hall|]. intros z Hz. by eapply le_trans.
Qed.

Lemma sortStable_sorted (l : list A) : StronglySorted le (sortStable less l).
Proof.
  induction l as [|x l IH]; simpl; [constructor|].
  by apply insertStable_sorted.
Qed.
End SortFacts.

Lemma string_ltb_lt (a b : string) :
  string_ltb a b = true <-> String_as_OT.lt a b.
Proof.
  unfold string_ltb. rewrite <- String_as_OT.cmp_lt.
  change (String_as_OT.cmp a b) with (String.compare a b).
  destruct (String.compare a b); split; congruence.
Qed.

Lemma string_ltb_trans (a b c : string) :
  string_ltb a b = true -> string_ltb b c = true -> string_ltb a c = true.
Proof. rewrite !string_ltb_lt. apply String_as_OT.lt_trans. Qed.

Lemma string_ltb_total (a b : string) :
  string_ltb a b = false -> a <> b -> string_ltb b a = true.
Proof.
  unfold string_ltb. intros H Hne.
  rewrite String.compare_antisym.
  destruct (String.compare a b) eqn:E; try done.
  by apply String.compare_eq_iff in E.
Qed.

(** ** MissingFor *)

Lemma opLess_before (a b : Operation) : opLess a b = true -> opBefore a b.
Proof.
  unfold opLess, opBefore.
  destruct (string_eqb (Author a) (Author b)) eqn:E; simpl.
  - apply string_eqb_eq in E. intros H%N.ltb_lt. right. split; [done | lia].
  - by left.
Qed.

Lemma not_opLess_before (a b : Operation) : opLess a b = false -> opBefore b a.
Proof.
  unfold opLess, opBefore.
  destruct (string_eqb (Author a) (Author b)) eqn:E; simpl.
  - apply string_eqb_eq in E. intros H%N.ltb_ge. by right.
  - apply string_eqb_neq in E. intros H. left. by apply string_ltb_total.
Qed.

Lemma opBefore_trans (a b c : Operation) :
  opBefore a b -> opBefore b c -> opBefore a c.
Proof.
  unfold opBefore. intros [H1 | [E1 H1]] [H2 | [E2 H2]].
  - left. by eapply string_ltb_trans.
  - left. by rewrite <- E2.
  - left. by rewrite E1.
  - right. split; [congruence | lia].
Qed.

Lemma missingLoop_spec (summary : gmap string N) (limit : Z)
      (ordered out : list Operation) :
  (limit <= 0 \/ Z.of_nat (length out) < limit)%Z ->
  missingLoop summary limit ordered out
  = truncate limit (out ++ List.filter (newer summary) ordered).
Proof.
  revert out. induction ordered as [|op rest IH]; intros out Hout; simpl.
  - rewrite app_nil_r. unfold truncate.
    destruct (0 <? limit)%Z eqn:E; [|done].
    apply Z.ltb_lt in E. symmetry. apply firstn_all2. lia.
  - fold (newer summary op). destruct (newer summary op) eqn:Hn.
    + destruct ((0 <? limit)%Z && (limit <=? Z.of_nat (length (out ++ [op])))%Z)
        eqn:Hfull.
      * apply andb_true_iff in Hfull as [Hpos Hle].
        apply Z.ltb_lt in Hpos. apply Z.leb_le in Hle.
        rewrite length_app in Hle. simpl in Hle.
        unfold truncate. rewrite (proj2 (Z.ltb_lt _ _) Hpos).
        change (out ++ op :: List.filter (newer summary) rest)
          with (out ++ [op] ++ List.filter (newer summary) rest).
        rewrite app_assoc.
        rewrite firstn_app.
        replace (Z.to_nat limit - length (out ++ [op]))%nat with 0%nat
          by (rewrite length_app; simpl; lia).
        rewrite firstn_O, app_nil_r. symmetry. apply firstn_all2.
        rewrite length_app. simpl. lia.
      * rewrite IH.
        -- by rewrite <- app_assoc.
        -- apply andb_false_iff in Hfull as [H | H].
           ++ apply Z.ltb_ge in H. by left.
           ++ apply Z.leb_gt in H. by right.
    + by apply IH.
Qed.

(** C5. [MissingFor] returns the stored operations with
    [seq > summary[author]] (a nil summary is the empty one, an absent
    author counts as 0), in the order of author ascending then seq
    ascending, cut after the first [limit] of them when [limit > 0]:
    [ordered] is the log rearranged in that order, and the result is the
    matching part of it, truncated. *)
Theorem MissingFor_correct {L : GoLib}
  (s : Store) (summary : option (gmap string N)) (limit : Z) :
  let ordered := sortStable opLess (ops s) in
  Permutation ordered (ops s) /\
  StronglySorted opBefore ordered /\
  MissingFor s summary limit
  = truncate limit (List.filter (newer (default ∅ summary)) ordered) /\
  ((limit <= 0)%Z ->
   forall op, In op (MissingFor s summary limit)
              <-> In op (ops s) /\ seqOf (default ∅ summary) (Author op) < Seq op).
Proof.
  intros ordered.
  assert (Permutation ordered (ops s)) as Hperm by apply sortStable_perm.
  assert (MissingFor s summary limit
          = truncate limit (List.filter (newer (default ∅ summary)) ordered))
    as Heq.
  { unfold MissingFor. rewrite missingLoop_spec; [done|]. simpl. lia. }
  split; [done|]. split; [|split; [done|]].
  - apply sortStable_sorted.
    + apply opLess_before.
    + apply not_opLess_before.
    + apply opBefore_trans.
  - intros Hlim op. rewrite Heq. unfold truncate.
    rewrite (proj2 (Z.ltb_ge 0 limit) Hlim).
    rewrite filter_In. unfold newer. rewrite N.ltb_lt.
    split; intros [Hin Hlt]; (split; [|done]).
    + by eapply Permutation_in.
    + eapply Permutation_in; [symmetry; exact Hperm | done].
Qed.

(** ** The pending-push queue *)

Lemma normalizePendingPush_ok push forWrite now1 now2 norm :
  normalizePendingPush push forWrite now1 now2 = Ok norm ->
  ProposalID norm = TrimSpace (ProposalID push) /\
  ProposalID norm <> "" /\
  TargetRef norm = TrimSpace (TargetRef push) /\
  Remote norm = TrimSpace (Remote push) /\
  SourceRef norm = TrimSpace (SourceRef push) /\
  NewOID norm = TrimSpace (NewOID push) /\
  LastError norm = TrimSpace (LastError push) /\
  GitArgs norm = GitArgs push /\
  Status norm = (if string_eqb (Status push) "" then PendingPushStatusPending
                 else Status push) /\
  Attempts norm = Attempts push /\
  LastTriedAt norm = LastTriedAt push /\
  CompletedAt norm = CompletedAt push /\
  CreatedAt norm = (if forWrite && string_eqb (CreatedAt push) "" then now1
                    else CreatedAt push) /\
  UpdatedAt norm = (if forWrite then now2 else UpdatedAt push).
Proof.
  unfold normalizePendingPush.
  destruct (string_eqb (TrimSpace (ProposalID push)) "") eqn:E1; [done|].
  destruct (string_eqb (TrimSpace (TargetRef push)) ""); [done|].
  destruct (negb (isStatus _)); [done|].
  intros [= <-]. simpl. apply string_eqb_neq in E1. repeat split; done.
Qed.

Lemma upsertLoop_replace (l1 l2 : list PendingPush) (existing push : PendingPush) :
  ProposalID existing = ProposalID push ->
  (forall q, In q l1 -> ProposalID q <> ProposalID push) ->
  upsertLoop (l1 ++ existing :: l2) push
  = Some (replacing push existing, l1 ++ replacing push existing :: l2).
Proof.
  intros He. induction l1 as [|q l1 IH]; intros Hl1; simpl.
  - rewrite He, string_eqb_refl. simpl. unfold replacing.
    destruct (Attempts push <? Attempts existing)%Z eqn:E.
    + apply Z.ltb_lt in E. rewrite Z.max_l by lia. reflexivity.
    + apply Z.ltb_ge in E. rewrite Z.max_r by lia.
      by destruct push.
  - assert (ProposalID q <> ProposalID push) as Hq by (apply Hl1; by left).
    apply string_eqb_neq in Hq. rewrite Hq. simpl.
    rewrite IH; [done|]. intros r Hr. apply Hl1. by right.
Qed.

Lemma upsertLoop_absent (pushes : list PendingPush) (push : PendingPush) :
  (forall q, In q pushes -> ProposalID q <> ProposalID push) ->
  upsertLoop pushes push = None.
Proof.
  induction pushes as [|q l IH]; intros H; simpl; [done|].
  assert (ProposalID q <> ProposalID push) as Hq by (apply H; by left).
  apply string_eqb_neq in Hq. rewrite Hq. simpl.
  rewrite IH; [done|]. intros r Hr. apply H. by right.
Qed.

(** C6, as amended. [UpsertPendingPush] is keyed by the trimmed
    proposal_id.  [norm] is the argument after normalisation and [pushes]
    the queue as loaded.  When an entry with that proposal_id exists, the
    first such entry is replaced by [norm] with the created_at of the
    existing entry and the larger of the two attempts; updated_at is the
    clock reading [now2].  When none exists, [norm] is appended: its
    updated_at is [now2], and its created_at is the created_at of the
    argument when that is not empty, the clock reading [now1] otherwise. *)
Theorem UpsertPendingPush_semantics
  (file pushes : list PendingPush) (now1 now2 : string) (push norm : PendingPush) :
  normalizePendingPush push true now1 now2 = Ok norm ->
  loadPendingPushesLocked file = Ok pushes ->
  ProposalID norm = TrimSpace (ProposalID push) /\
  (forall l1 existing l2,
      pushes = l1 ++ existing :: l2 ->
      ProposalID existing = ProposalID norm ->
      (forall q, In q l1 -> ProposalID q <> ProposalID norm) ->
      let stored := replacing norm existing in
      UpsertPendingPush file now1 now2 true push
      = (Ok stored, l1 ++ stored :: l2) /\
      CreatedAt stored = CreatedAt existing /\
      Attempts stored = Z.max (Attempts existing) (Attempts push) /\
      UpdatedAt stored = now2 /\
      stored = setAttempts (setCreatedAt norm (CreatedAt existing))
                           (Attempts stored)) /\
  ((forall q, In q pushes -> ProposalID q <> ProposalID norm) ->
   UpsertPendingPush file now1 now2 true push = (Ok norm, pushes ++ [norm]) /\
   UpdatedAt norm = now2 /\
   CreatedAt norm = (if string_eqb (CreatedAt push) "" then now1
                     else CreatedAt push)).
Proof.
  intros Hn Hl.
  pose proof (normalizePendingPush_ok _ _ _ _ _ Hn)
    as (Hid & _ & _ & _ & _ & _ & _ & _ & _ & Hatt & _ & _ & Hc & Hu).
  split; [done|]. unfold UpsertPendingPush. rewrite Hn, Hl. split.
  - intros l1 existing l2 -> He Hl1. simpl.
    rewrite upsertLoop_replace by done.
    repeat split; simpl; try done. by rewrite Hatt.
  - intros Habs. by rewrite upsertLoop_absent.
Qed.

Lemma updateLoop_found (l1 l2 : list PendingPush) (p : PendingPush)
      (pid status lastError now : string) :
  ProposalID p = pid ->
  (forall q, In q l1 -> ProposalID q <> pid) ->
  updateLoop (l1 ++ p :: l2) pid status lastError now
  = Some (l1 ++ markPush p status lastError now :: l2).
Proof.
  intros Hp. induction l1 as [|q l1 IH]; intros Hl1; simpl.
  - by rewrite Hp, string_eqb_refl.
  - assert (ProposalID q <> pid) as Hq by (apply Hl1; by left).
    apply string_eqb_neq in Hq. rewrite Hq. simpl.
    rewrite IH; [done|]. intros r Hr. apply Hl1. by right.
Qed.

Lemma updateLoop_absent (pushes : list PendingPush)
      (pid status lastError now : string) :
  updateLoop pushes pid status lastError now = None <->
  (forall q, In q pushes -> ProposalID q <> pid).
Proof.
  induction pushes as [|q l IH]; simpl; [by split|].
  destruct (string_eqb (ProposalID q) pid) eqn:E; simpl.
  - apply string_eqb_eq in E. split; [done|].
    intros H. exfalso. by apply (H q); [left|].
  - apply string_eqb_neq in E.
    destruct (updateLoop l pid status lastError now) eqn:U.
    + split; [done|]. intros H.
      assert (Some l0 = None) as [=]. apply IH. intros r Hr. apply H. by right.
    + split; [|done]. intros _ r [<- | Hr]; [done|]. by apply IH.
Qed.

Lemma wrapInt_small (z : Z) :
  (- 2 ^ 63 <= z < 2 ^ 63)%Z -> wrapInt z = z.
Proof. intros H. unfold wrapInt. rewrite Z.mod_small; lia. Qed.

(** C7, as amended. Each of [MarkPendingPushPending],
    [MarkPendingPushFailed] and [MarkPendingPushCompleted] trims the
    proposal_id it is given.  A blank one is refused with "proposal ID is
    required".  Otherwise, if no entry of the loaded queue has that
    proposal_id the call returns the not-found error and leaves the file
    alone, and not-found is returned in no other case.  Otherwise the first
    such entry gets the corresponding status, updated_at and last_tried_at
    set to the clock reading, attempts incremented by one (wrapping at the
    largest [int]); Completed sets completed_at and clears last_error,
    Pending and Failed store the trimmed message as last_error; the other
    fields and the other entries are unchanged. *)
Theorem Mark_semantics
  (m : Mark) (file pushes : list PendingPush) (now proposalID message : string) :
  loadPendingPushesLocked file = Ok pushes ->
  let pid := TrimSpace proposalID in
  (pid = "" ->
   forall saveOK,
     runMark m file now saveOK proposalID message
     = (Some ErrProposalIDRequired, file)) /\
  (forall saveOK,
     (exists x f, runMark m file now saveOK proposalID message
                  = (Some (ErrPushNotFound x), f))
     <-> pid <> "" /\ (forall q, In q pushes -> ProposalID q <> pid)) /\
  (pid <> "" -> (forall q, In q pushes -> ProposalID q <> pid) ->
   forall saveOK,
     runMark m file now saveOK proposalID message
     = (Some (ErrPushNotFound pid), file)) /\
  (forall l1 p l2,
      pid <> "" ->
      pushes = l1 ++ p :: l2 ->
      ProposalID p = pid ->
      (forall q, In q l1 -> ProposalID q <> pid) ->
      exists p',
        runMark m file now true proposalID message = (None, l1 ++ p' :: l2) /\
        Status p' = statusOf m /\
        UpdatedAt p' = now /\
        LastTriedAt p' = now /\
        Attempts p' = wrapInt (Attempts p + 1) /\
        ((- 2 ^ 63 <= Attempts p < 2 ^ 63 - 1)%Z ->
         Attempts p' = (Attempts p + 1)%Z) /\
        CompletedAt p' = (if m is MarkCompleted then now else CompletedAt p) /\
        LastError p' = (if m is MarkCompleted then "" else TrimSpace message) /\
        ProposalID p' = ProposalID p /\ Remote p' = Remote p /\
        SourceRef p' = SourceRef p /\ TargetRef p' = TargetRef p /\
        NewOID p' = NewOID p /\ GitArgs p' = GitArgs p /\
        CreatedAt p' = CreatedAt p).
Proof.
  intros Hl pid.
  assert (forall saveOK,
             runMark m file now saveOK proposalID message
             = updatePendingPushStatus file now saveOK proposalID (statusOf m)
                 (if m is MarkCompleted then "" else message)) as Hrun
      by (by destruct m).
  split; [|split; [|split]].
  - intros Hblank saveOK. rewrite Hrun. unfold updatePendingPushStatus.
    fold pid. by rewrite Hblank.
  - intros saveOK. rewrite Hrun. unfold updatePendingPushStatus. fold pid.
    destruct (string_eqb pid "") eqn:E.
    { apply string_eqb_eq in E. split; [by intros (x & f & [=]) | tauto]. }
    apply string_eqb_neq in E. rewrite Hl.
    destruct (updateLoop pushes pid _ _ now) as [pushes'|] eqn:U.
    + split.
      * destruct saveOK; by intros (x & f & [=]).
      * intros [_ H%(updateLoop_absent pushes pid (statusOf m)
                       (if m is MarkCompleted then "" else message) now)].
        congruence.
    + split; [|by eauto]. intros _. split; [done|].
      by eapply updateLoop_absent.
  - intros Hpid Habs saveOK. rewrite Hrun. unfold updatePendingPushStatus.
    fold pid. apply string_eqb_neq in Hpid. rewrite Hpid, Hl.
    apply (updateLoop_absent pushes pid (statusOf m)
             (if m is MarkCompleted then "" else message) now) in Habs.
    by rewrite Habs.
  - intros l1 p l2 Hpid -> Hp Hl1.
    exists (markPush p (statusOf m) (if m is MarkCompleted then "" else message) now).
    split.
    { rewrite Hrun. unfold updatePendingPushStatus. fold pid.
      apply string_eqb_neq in Hpid. rewrite Hpid, Hl.
      by rewrite updateLoop_found. }
    simpl. repeat split; try done.
    + intros Hr. apply wrapInt_small. lia.
    + by destruct m.
    + by destruct m.
Qed.

(** ** The pending-push processor *)

Section Processor.
Import Vcs.
Context {E : Env}.

Lemma processPush_skip only push st :
  selected only push = false -> processPush only push st = st.
Proof.
  unfold selected, processPush.
  destruct (string_eqb only ""), (string_eqb (ProposalID push) only),
    (string_eqb (Status push) PendingPushStatusCompleted); simpl; done.
Qed.

Lemma processPush_enter only push st :
  selected only push = true ->
  processPush only push st
  = let r := incChecked (result_ st) in
    let fe := firstErr st in
    let h := calls st in
    match store_ProposalStatus h (ProposalID push) with
    | inl statusErr => failPush push r fe h statusErr
    | inr status =>
        if Expired status then failPush push r fe h expiredMessage
        else if negb (Certified status) then
          if negb (HasQuorum status) then
            {| result_ := incPending r; firstErr := fe;
               calls := h ++ [CallMarkPending (ProposalID push)
                                              (waitingMessage status)] |}
          else
            match store_CertifyProposal h (ProposalID push) false with
            | Some certErr =>
                failPush push r fe (h ++ [CallCertify (ProposalID push) false])
                         certErr
            | None =>
                runPush push r fe (h ++ [CallCertify (ProposalID push) false])
            end
        else runPush push r fe h
    end.
Proof.
  unfold selected, processPush.
  destruct (string_eqb only ""), (string_eqb (ProposalID push) only),
    (string_eqb (Status push) PendingPushStatusCompleted); simpl; done.
Qed.

Lemma processPush_turn only push st :
  turn only push st (processPush only push st).
Proof.
  destruct (selected only push) eqn:Hsel.
  - rewrite processPush_enter by done.
    constructor; rewrite ?Hsel; unfold runPush, failPush, handled.
    + repeat case_match; simpl; lia.
    + repeat case_match; simpl; lia.
    + repeat case_match; simpl;
        first [ left; split; [lia | done] | right; split; [lia | eauto] ].
  - rewrite processPush_skip by done.
    constructor; rewrite ?Hsel; [lia | lia | by left].
Qed.

Lemma orFirst_sticks (fe : option errorT) (e e' : errorT) :
  fe = Some e -> orFirst fe e' = Some e.
Proof. by intros ->. Qed.

Lemma processLoop_app only l1 l2 st :
  processLoop only (l1 ++ l2) st = processLoop only l2 (processLoop only l1 st).
Proof. revert st. induction l1 as [|p l1 IH]; intros st; simpl; [done | apply IH]. Qed.

Lemma processLoop_totals only pushes st :
  let st' := processLoop only pushes st in
  Checked (result_ st')
  = (Checked (result_ st)
     + Z.of_nat (length (List.filter (selected only) pushes)))%Z /\
  handled (result_ st')
  = (handled (result_ st)
     + Z.of_nat (length (List.filter (selected only) pushes)))%Z /\
  (Failed (result_ st) <= Failed (result_ st'))%Z /\
  (forall e, firstErr st = Some e -> firstErr st' = Some e) /\
  ((firstErr st = None <-> Failed (result_ st) = 0%Z) ->
   (0 <= Failed (result_ st))%Z ->
   (firstErr st' = None <-> Failed (result_ st') = 0%Z)).
Proof.
  revert st. induction pushes as [|p l IH]; intros st.
  - simpl. repeat split; try lia; try done; tauto.
  - cbn [processLoop].
    destruct (IH (processPush only p st)) as (H1 & H2 & H3 & H4 & H5).
    destruct (processPush_turn only p st) as [T1 T2 T3].
    assert (Z.of_nat (length (List.filter (selected only) (p :: l)))
            = ((if selected only p then 1 else 0)
               + Z.of_nat (length (List.filter (selected only) l)))%Z) as Hlen.
    { simpl. destruct (selected only p); simpl length; lia. }
    rewrite H1, H2, T1, T2, Hlen.
    split; [lia|]. split; [lia|].
    split; [destruct T3 as [[? ?] | [? ?]]; lia|]. split.
    + intros e He. apply H4.
      destruct T3 as [[_ ->] | [_ [e' ->]]]; [done | by apply orFirst_sticks].
    + intros Hinv Hpos. apply H5.
      * destruct T3 as [[-> ->] | [-> [e' ->]]]; [done|].
        split; [by destruct (firstErr st) | lia].
      * destruct T3 as [[-> _] | [-> _]]; lia.
Qed.

(** C4. [processPendingPushes], read case by case in the order of the
    loop body.  It skips the entries whose status is completed (and those
    not asked for).  For a selected push whose proposal status is expired
    it counts a failure, marks the push failed with "proposal has expired"
    and goes on with the rest.  For one that is not expired, not certified
    and without quorum it counts it pending, marks it pending with the
    awaiting-quorum message and makes no other call: the backend push is
    not run.  It returns the counters, with every selected entry checked
    and counted once as executed, pending or failed, together with the
    first error met; an error does not stop the loop. *)
Theorem processPendingPushes_behaviour
  (only : string) (h : list Call) (pushes : list PendingPush) :
  store_ListPendingPushes h = inr pushes ->
  (* completed entries are skipped *)
  (forall push st,
      Status push = PendingPushStatusCompleted ->
      processPush only push st = st) /\
  (* an expired proposal *)
  (forall push rest st status,
      selected only push = true ->
      store_ProposalStatus (calls st) (ProposalID push) = inr status ->
      Expired status = true ->
      let st' := {| result_ := incFailed (incChecked (result_ st));
                    firstErr := orFirst (firstErr st) expiredMessage;
                    calls := calls st ++ [CallMarkFailed (ProposalID push)
                                                         expiredMessage] |} in
      processPush only push st = st' /\
      processLoop only (push :: rest) st = processLoop only rest st') /\
  (* no certificate and no quorum *)
  (forall push rest st status,
      selected only push = true ->
      store_ProposalStatus (calls st) (ProposalID push) = inr status ->
      Expired status = false ->
      Certified status = false ->
      HasQuorum status = false ->
      let st' := {| result_ := incPending (incChecked (result_ st));
                    firstErr := firstErr st;
                    calls := calls st ++ [CallMarkPending (ProposalID push)
                                                          (waitingMessage status)] |} in
      processPush only push st = st' /\
      processLoop only (push :: rest) st = processLoop only rest st' /\
      existsb isRunGit (skipn (length (calls st)) (calls st')) = false) /\
  (* the counters and the first error *)
  (forall r err h',
      processPendingPushes only h = (r, err, h') ->
      Checked r = Z.of_nat (length (List.filter (selected only) pushes)) /\
      Checked r = (Executed r + Pending r + Failed r)%Z /\
      (err = None <-> Failed r = 0%Z) /\
      (forall l1 l2 e,
          pushes = l1 ++ l2 ->
          firstErr (processLoop only l1
                      {| result_ := zeroResult; firstErr := None; calls := h |})
          = Some e ->
          err = Some e)).
Proof.
  intros Hlist. split; [|split; [|split]].
  - intros push st Hc. apply processPush_skip. unfold selected.
    rewrite Hc. simpl. apply andb_false_r.
  - intros push rest st status Hsel Hst Hexp st'.
    assert (processPush only push st = st') as Hp.
    { rewrite processPush_enter by done. simpl. by rewrite Hst, Hexp. }
    split; [done|]. simpl. by rewrite Hp.
  - intros push rest st status Hsel Hst Hexp Hcert Hq st'.
    assert (processPush only push st = st') as Hp.
    { rewrite processPush_enter by done. simpl. by rewrite Hst, Hexp, Hcert, Hq. }
    split; [done|]. split; [simpl; by rewrite Hp|].
    subst st'. simpl. by rewrite skipn_app, skipn_all, Nat.sub_diag.
  - intros r err h'. unfold processPendingPushes. rewrite Hlist.
    intros [= <- <- <-].
    set (st0 := {| result_ := zeroResult; firstErr := None; calls := h |}).
    destruct (processLoop_totals only pushes st0) as (H1 & H2 & _ & _ & H5).
    simpl in H1, H2. unfold handled in H2. simpl in H2.
    split; [lia|]. split; [lia|]. split; [by apply H5|].
    intros l1 l2 e -> He. rewrite processLoop_app.
    by apply processLoop_totals.
Qed.
End Processor.

(** ** The peer registry *)

Lemma AddPeer_absorbs {L : GoLib} (s : Store) (saveOK : bool) (raw normalized : string) :
  normalizePeer raw = Ok normalized ->
  In normalized (peers s) ->
  AddPeer s saveOK raw = (Ok normalized, s).
Proof.
  intros Hn Hin. unfold AddPeer. rewrite Hn.
  assert (existsb (string_eqb normalized) (peers s) = true) as ->; [|done].
  apply existsb_exists. exists normalized. split; [done | apply string_eqb_refl].
Qed.

(** ** Reading the log: [Ops] *)

Lemma StronglySorted_split {A : Type} (R : A -> A -> Prop) (l1 l2 : list A) :
  StronglySorted R (l1 ++ l2) ->
  StronglySorted R l1 /\ StronglySorted R l2 /\
  (forall a b, In a l1 -> In b l2 -> R a b).
Proof.
  induction l1 as [|x l1 IH]; simpl; intros H.
  - split; [constructor|]. split; [done|]. intros a b [].
  - apply StronglySorted_inv in H as [Hs Hall].
    destruct (IH Hs) as (H1 & H2 & H3).
    apply Forall_app in Hall as [Ha1 Ha2].
    split; [by constructor|]. split; [done|].
    intros a b [<- | Ha] Hb.
    + rewrite List.Forall_forall in Ha2. by apply Ha2.
    + by apply H3.
Qed.

Lemma sortStable_opLess_sorted (l : list Operation) :
  StronglySorted opBefore (sortStable opLess l).
Proof.
  apply sortStable_sorted.
  - apply opLess_before.
  - apply not_opLess_before.
  - apply opBefore_trans.
Qed.

(** X1. [Ops] returns the end of the log in (author, seq) order: the whole
    of it when [limit] is not positive, its last [limit] entries otherwise
    (all of them when there are no more than [limit]).  What it leaves out
    comes before what it returns. *)
Theorem Ops_is_tail {L : GoLib} (s : Store) (limit : Z) :
  exists older,
    sortStable opLess (ops s) = older ++ Ops s limit /\
    length (Ops s limit)
    = (if (0 <? limit)%Z then Nat.min (Z.to_nat limit) (length (ops s))
       else length (ops s)) /\
    StronglySorted opBefore (Ops s limit) /\
    (forall a b, In a older -> In b (Ops s limit) -> opBefore a b).
Proof.
  pose proof (sortStable_opLess_sorted (ops s)) as Hs.
  pose proof (Permutation_length (sortStable_perm opLess (ops s))) as Hlen.
  unfold Ops.
  set (ordered := sortStable opLess (ops s)) in *.
  destruct ((0 <? limit)%Z && (limit <? Z.of_nat (length ordered))%Z) eqn:E.
  - apply andb_true_iff in E as [Hpos Hlt].
    rewrite Hpos. apply Z.ltb_lt in Hpos, Hlt.
    set (k := (length ordered - Z.to_nat limit)%nat).
    exists (firstn k ordered).
    rewrite firstn_skipn. split; [done|].
    rewrite <- (firstn_skipn k ordered) in Hs.
    apply StronglySorted_split in Hs as (_ & H2 & H3).
    split; [|by split].
    rewrite length_skipn. unfold k. lia.
  - exists []. split; [done|].
    split; [|split; [done | intros a b []]].
    rewrite Hlen. destruct (0 <? limit)%Z eqn:Hpos; [|done].
    simpl in E. apply Z.ltb_ge in E. lia.
Qed.

(** X2. A peer that knows nothing ([nil] or empty summary) is sent the log
    from its beginning: on a reachable store [MissingFor] returns the first
    [limit] entries of the ordered log, where [Ops] returns the last
    [limit], and the whole of it, as [Ops] does, when [limit] is not
    positive. *)
Theorem MissingFor_nothing_known {L : GoLib} (s : Store) (limit : Z) :
  reachable s ->
  MissingFor s None limit = truncate limit (Ops s 0) /\
  MissingFor s (Some ∅) limit = truncate limit (Ops s 0) /\
  ((limit <= 0)%Z -> MissingFor s None limit = Ops s limit).
Proof.
  intros W%reachable_wf.
  assert (List.filter (newer ∅) (sortStable opLess (ops s))
          = sortStable opLess (ops s)) as Hall.
  { apply forallb_filter_id. apply forallb_forall. intros op Hin.
    eapply Permutation_in in Hin; [|apply sortStable_perm].
    pose proof (verified_seq_pos op (wf_verified s W op Hin)) as Hpos.
    unfold newer, seqOf. rewrite lookup_empty. simpl. apply N.ltb_lt. lia. }
  assert (MissingFor s None limit = truncate limit (Ops s 0)) as H.
  { unfold MissingFor. rewrite missingLoop_spec by (simpl; lia).
    simpl. by rewrite Hall. }
  split; [done|]. split; [exact H|].
  intros Hlim. rewrite H. unfold truncate, Ops.
  rewrite (proj2 (Z.ltb_ge 0 limit) Hlim). done.
Qed.

(** ** The peer registry: order and round trips *)

Lemma string_ltb_irrefl (a : string) : string_ltb a a = false.
Proof.
  destruct (string_ltb a a) eqn:E; [|done].
  apply string_ltb_lt in E. by apply String_as_OT.lt_not_eq in E.
Qed.

Lemma string_ltb_asym (a b : string) :
  string_ltb a b = true -> string_ltb b a = false.
Proof.
  intros H. destruct (string_ltb b a) eqn:E; [|done].
  pose proof (string_ltb_trans a b a H E) as C.
  by rewrite string_ltb_irrefl in C.
Qed.

(** [a <= b] for strings. *)
Lemma string_le_trans (a b c : string) :
  string_ltb b a = false -> string_ltb c b = false -> string_ltb c a = false.
Proof.
  intros H1 H2. destruct (string_ltb c a) eqn:E; [|done].
  destruct (decide (a = b)) as [-> | Hab]; [congruence|].
  pose proof (string_ltb_total b a H1 (not_eq_sym Hab)) as Hlt.
  pose proof (string_ltb_trans c a b E Hlt). congruence.
Qed.

Lemma sortStable_strings_sorted (l : list string) :
  StronglySorted (fun a b => string_ltb b a = false) (sortStable string_ltb l).
Proof.
  apply sortStable_sorted.
  - apply string_ltb_asym.
  - done.
  - apply string_le_trans.
Qed.

Lemma sorted_NoDup_strict (l : list string) :
  StronglySorted (fun a b => string_ltb b a = false) l ->
  List.NoDup l -> strictlySorted l.
Proof.
  induction 1 as [|x l Hs IH Hall]; intros Hnd; [constructor|].
  apply List.NoDup_cons_iff in Hnd as [Hx Hnd].
  constructor; [by apply IH|].
  rewrite List.Forall_forall in *. intros y Hy.
  apply string_ltb_total; [by apply Hall|]. intros ->. done.
Qed.

Lemma strictlySorted_NoDup (l : list string) :
  strictlySorted l -> List.NoDup l.
Proof.
  induction 1 as [|x l Hs IH Hall]; constructor; [|done].
  intros Hin. rewrite List.Forall_forall in Hall.
  pose proof (Hall x Hin) as C. by rewrite string_ltb_irrefl in C.
Qed.

Lemma strictlySorted_filter (f : string -> bool) (l : list string) :
  strictlySorted l -> strictlySorted (List.filter f l).
Proof.
  induction 1 as [|x l Hs IH Hall]; simpl; [constructor|].
  destruct (f x); [|done].
  constructor; [done|].
  rewrite List.Forall_forall in *. intros y [Hy _]%filter_In. by apply Hall.
Qed.

(** A stable sort leaves a sorted list alone. *)
Lemma sortStable_sorted_id {A : Type} (less : A -> A -> bool) (l : list A) :
  StronglySorted (fun a b => less b a = false) l -> sortStable less l = l.
Proof.
  induction 1 as [|x l Hs IH Hall]; simpl; [done|].
  fold (sortStable less l). rewrite IH.
  destruct l as [|y l]; [done|]. simpl.
  apply Forall_inv in Hall. by rewrite Hall.
Qed.

Lemma strictlySorted_le (l : list string) :
  strictlySorted l -> StronglySorted (fun a b => string_ltb b a = false) l.
Proof.
  induction 1 as [|x l Hs IH Hall]; constructor; [done|].
  eapply List.Forall_impl; [|exact Hall]. intros y. apply string_ltb_asym.
Qed.

(** Two strictly ascending lists with the same elements are equal. *)
Lemma strictlySorted_unique (l1 l2 : list string) :
  strictlySorted l1 -> strictlySorted l2 ->
  (forall x, In x l1 <-> In x l2) -> l1 = l2.
Proof.
  intros H1. revert l2.
  induction H1 as [|x l1 Hs1 IH Hall1]; intros l2 H2 Heq.
  - destruct l2 as [|y l2]; [done|]. destruct (proj2 (Heq y)). by left.
  - destruct H2 as [|y l2 Hs2 Hall2].
    { destruct (proj1 (Heq x)). by left. }
    rewrite List.Forall_forall in Hall1, Hall2.
    assert (x = y) as ->.
    { destruct (proj1 (Heq x)) as [E | Hx]; [by left | done |].
      destruct (proj2 (Heq y)) as [E | Hy]; [by left | done |].
      pose proof (string_ltb_asym _ _ (Hall1 y Hy)) as C.
      by rewrite (Hall2 x Hx) in C. }
    f_equal. apply IH; [done|].
    intros z. split; intros Hz.
    + destruct (proj1 (Heq z)) as [E | Hz']; [by right | | done].
      subst z. pose proof (Hall1 y Hz) as C. by rewrite string_ltb_irrefl in C.
    + destruct (proj2 (Heq z)) as [E | Hz']; [by right | | done].
      subst z. pose proof (Hall2 y Hz) as C. by rewrite string_ltb_irrefl in C.
Qed.

Section Peers.
Context {L : GoLib}.

Lemma loadPeersLoop_spec (file : list string) (seen : gset string)
      (normalized : list string) :
  List.NoDup normalized ->
  (forall p, p ∈ seen <-> In p normalized) ->
  match loadPeersLoop file seen normalized with
  | Ok ps =>
      List.NoDup ps /\
      forall p, In p ps <->
                In p normalized
                \/ exists raw, In raw file /\ normalizePeer raw = Ok p
  | Err e => exists raw, In raw file /\ normalizePeer raw = Err e
  end.
Proof.
  revert seen normalized.
  induction file as [|peer rest IH]; intros seen normalized Hnd Hseen; simpl.
  - split; [done|]. intros p. split; [by left|].
    intros [H | (raw & [] & _)]. done.
  - destruct (normalizePeer peer) as [norm|e] eqn:Hn.
    2:{ exists peer. split; [by left | done]. }
    case_decide as Hin.
    + specialize (IH seen normalized Hnd Hseen).
      destruct (loadPeersLoop rest seen normalized) as [ps|e].
      * destruct IH as [Hnd' IH]. split; [done|].
        intros p. rewrite IH. split.
        -- intros [H | (raw & Hr & Hp)]; [by left|]. right. exists raw. by split; [right|].
        -- intros [H | (raw & [<- | Hr] & Hp)]; [by left | |].
           ++ left. apply Hseen. congruence.
           ++ right. by exists raw.
      * destruct IH as (raw & Hr & He). exists raw. by split; [right|].
    + specialize (IH ({[norm]} ∪ seen) (normalized ++ [norm])).
      destruct (loadPeersLoop rest ({[norm]} ∪ seen) (normalized ++ [norm]))
        as [ps|e].
      * destruct IH as [Hnd' IH].
        { apply NoDup_ListNoDup. apply NoDup_app. split; [by apply NoDup_ListNoDup|].
          split; [|apply NoDup_singleton].
          intros x Hx ->%list_elem_of_singleton.
          apply Hin, Hseen. by apply list_elem_of_In. }
        { intros p. rewrite elem_of_union, elem_of_singleton, Hseen, in_app_iff.
          simpl. intuition (subst; auto). }
        split; [done|].
        intros p. rewrite IH, in_app_iff. simpl. split.
        -- intros [[H | [<- | []]] | (raw & Hr & Hp)].
           ++ by left.
           ++ right. exists peer. by split; [left|].
           ++ right. exists raw. by split; [right|].
        -- intros [H | (raw & [<- | Hr] & Hp)].
           ++ by left; left.
           ++ left. right. left. congruence.
           ++ right. by exists raw.
      * destruct IH as (raw & Hr & He).
        { apply NoDup_ListNoDup. apply NoDup_app. split; [by apply NoDup_ListNoDup|].
          split; [|apply NoDup_singleton].
          intros x Hx ->%list_elem_of_singleton.
          apply Hin, Hseen. by apply list_elem_of_In. }
        { intros p. rewrite elem_of_union, elem_of_singleton, Hseen, in_app_iff.
          simpl. intuition (subst; auto). }
        exists raw. by split; [right|].
Qed.

Lemma loadPeersLoop_all (file : list string) (seen : gset string)
      (normalized ps : list string) :
  loadPeersLoop file seen normalized = Ok ps ->
  forall raw, In raw file -> exists p, normalizePeer raw = Ok p.
Proof.
  revert seen normalized.
  induction file as [|peer rest IH]; intros seen normalized; simpl.
  - by intros _ raw [].
  - destruct (normalizePeer peer) as [norm|e] eqn:Hn; [|done].
    case_decide; intros Hl raw [<- | Hr]; eauto.
Qed.

(** X3. [loadPeers] fails exactly when an entry of [peers.json] does not
    normalise, with the error of such an entry.  Otherwise the registry it
    builds holds the normal forms of the entries and nothing else, each
    once, in ascending order; a missing file gives the empty registry. *)
Theorem loadPeers_normalises_sorts_dedups (entries : list string) :
  loadPeers None = Ok [] /\
  match loadPeers (Some entries) with
  | Ok ps =>
      strictlySorted ps /\
      (forall raw, In raw entries -> exists p, normalizePeer raw = Ok p) /\
      forall p, In p ps <-> exists raw, In raw entries /\ normalizePeer raw = Ok p
  | Err e => exists raw, In raw entries /\ normalizePeer raw = Err e
  end.
Proof.
  split; [done|]. unfold loadPeers.
  pose proof (loadPeersLoop_spec entries ∅ []) as H.
  pose proof (loadPeersLoop_all entries ∅ []) as Hall.
  destruct (loadPeersLoop entries ∅ []) as [ps|e].
  - destruct H as [Hnd H]; [constructor | set_solver |].
    split; [|split; [by apply (Hall ps)|]].
    + apply sorted_NoDup_strict; [apply sortStable_strings_sorted|].
      eapply Permutation_NoDup; [|exact Hnd].
      symmetry. apply sortStable_perm.
    + intros p. split.
      * intros Hp. eapply Permutation_in in Hp; [|apply sortStable_perm].
        by apply H in Hp as [[] | Hp].
      * intros Hp. eapply Permutation_in; [symmetry; apply sortStable_perm|].
        apply H. by right.
  - apply H; [constructor | set_solver].
Qed.

Lemma AddPeer_sorted (s : Store) (n : string) :
  strictlySorted (peers s) -> ~ In n (peers s) ->
  strictlySorted (sortStable string_ltb (peers s ++ [n])).
Proof.
  intros Hs Hno.
  apply sorted_NoDup_strict; [apply sortStable_strings_sorted|].
  eapply Permutation_NoDup; [symmetry; apply sortStable_perm|].
  apply NoDup_ListNoDup. apply NoDup_app.
  split; [by apply NoDup_ListNoDup, strictlySorted_NoDup|].
  split; [|apply NoDup_singleton].
  intros x Hx ->%list_elem_of_singleton.
  by apply list_elem_of_In in Hx.
Qed.

(** X4. A registry in ascending order without duplicates, as [loadPeers]
    builds it, stays so under [AddPeer] and [RemovePeer], whether or not
    the file could be written, and [ListPeers] returns it as it is. *)
Theorem peers_stay_sorted (s : Store) (saveOK : bool) (raw : string) :
  strictlySorted (peers s) ->
  strictlySorted (peers (snd (AddPeer s saveOK raw))) /\
  strictlySorted (peers (snd (RemovePeer s saveOK raw))) /\
  ListPeers s = peers s.
Proof.
  intros Hs. split; [|split].
  - unfold AddPeer. destruct (normalizePeer raw) as [n|e]; [|done].
    destruct (existsb (string_eqb n) (peers s)) eqn:E; [done|].
    assert (strictlySorted (sortStable string_ltb (peers s ++ [n]))) as H.
    { apply AddPeer_sorted; [done|]. intros Hx.
      assert (existsb (string_eqb n) (peers s) = true) as C; [|congruence].
      apply existsb_exists. exists n. split; [done | apply string_eqb_refl]. }
    by destruct saveOK.
  - unfold RemovePeer. destruct (normalizePeer raw) as [n|e]; [|done].
    assert (strictlySorted
              (List.filter (fun peer => negb (string_eqb peer n)) (peers s)))
      by (by apply strictlySorted_filter).
    by repeat case_match.
  - unfold ListPeers. apply sortStable_sorted_id. by apply strictlySorted_le.
Qed.

Lemma setPeers_same (s : Store) : setPeers s (peers s) = s.
Proof. by destruct s. Qed.

Lemma filter_absent (n : string) (l : list string) :
  ~ In n l -> List.filter (fun peer => negb (string_eqb peer n)) l = l.
Proof.
  intros H. apply forallb_filter_id. apply forallb_forall.
  intros x Hx. apply negb_true_iff, string_eqb_neq. intros ->. done.
Qed.

Lemma existsb_absent (n : string) (l : list string) :
  ~ In n l -> existsb (string_eqb n) l = false.
Proof.
  intros H. destruct (existsb (string_eqb n) l) eqn:E; [|done].
  apply existsb_exists in E as (x & Hx & ->%string_eqb_eq). done.
Qed.

(** X5. [RemovePeer] removes the normal form of its argument and nothing
    else.  When that peer is not registered the call succeeds and leaves
    the store as it is, whatever a write of the file would have done. *)
Theorem RemovePeer_removes_one (s : Store) (saveOK : bool) (raw n : string) :
  normalizePeer raw = Ok n ->
  let s' := snd (RemovePeer s saveOK raw) in
  ~ In n (peers s') /\
  (forall p, p <> n -> In p (peers s') <-> In p (peers s)) /\
  (~ In n (peers s) -> RemovePeer s saveOK raw = (Ok n, s)).
Proof.
  intros Hn. unfold RemovePeer. rewrite Hn. simpl.
  assert (forall r1 r2 r3 : result string,
    peers (snd (if negb (existsb (string_eqb n) (peers s))
                then (r1, setPeers s (List.filter (fun peer => negb (string_eqb peer n)) (peers s)))
                else if saveOK
                     then (r2, setPeers s (List.filter (fun peer => negb (string_eqb peer n)) (peers s)))
                     else (r3, setPeers s (List.filter (fun peer => negb (string_eqb peer n)) (peers s)))))
    = List.filter (fun peer => negb (string_eqb peer n)) (peers s)) as ->
    by (intros; by repeat case_match).
  split; [|split].
  - intros [_ H]%filter_In. by rewrite string_eqb_refl in H.
  - intros p Hp. rewrite filter_In. apply string_eqb_neq in Hp. rewrite Hp.
    simpl. tauto.
  - intros Hno. rewrite (existsb_absent n _ Hno), (filter_absent n _ Hno).
    simpl. by rewrite setPeers_same.
Qed.

(** X6. Adding a peer that is not registered and removing it again gives
    the store back: on a registry in ascending order the two calls, with
    any spellings of the same peer, are inverse to each other. *)
Theorem AddPeer_RemovePeer_round_trip (s : Store) (raw raw' n : string) :
  strictlySorted (peers s) ->
  normalizePeer raw = Ok n ->
  normalizePeer raw' = Ok n ->
  ~ In n (peers s) ->
  let added := AddPeer s true raw in
  fst added = Ok n /\
  In n (peers (snd added)) /\
  RemovePeer (snd added) true raw' = (Ok n, s).
Proof.
  intros Hs Hn Hn' Hno. unfold AddPeer. rewrite Hn.
  rewrite (existsb_absent n _ Hno). simpl.
  set (sorted := sortStable string_ltb (peers s ++ [n])).
  assert (forall x, In x sorted <-> In x (peers s) \/ x = n) as Hin.
  { intros x. unfold sorted. split; intros H.
    - eapply Permutation_in in H; [|apply sortStable_perm].
      apply in_app_iff in H as [H | [<- | []]]; auto.
    - eapply Permutation_in; [symmetry; apply sortStable_perm|].
      apply in_app_iff. destruct H as [H | ->]; [by left | right; by left]. }
  split; [done|]. split; [apply Hin; by right|].
  unfold RemovePeer. rewrite Hn'. simpl.
  assert (existsb (string_eqb n) sorted = true) as ->.
  { apply existsb_exists. exists n. split; [apply Hin; by right|].
    apply string_eqb_refl. }
  simpl. f_equal.
  rewrite <- (setPeers_same s) at 2. f_equal.
  apply strictlySorted_unique; [|done|].
  - apply strictlySorted_filter. by apply AddPeer_sorted.
  - intros x. rewrite filter_In, Hin. split.
    + intros [[H | ->] Hx]; [done|]. by rewrite string_eqb_refl in Hx.
    + intros H. split; [by left|].
      apply negb_true_iff, string_eqb_neq. intros ->. done.
Qed.
End Peers.

(** ** Opening a store: the replay of [ops.log] *)

Section Replay.
Context {L : GoLib}.
Context (decode : string -> option Operation).

(** A call of [addOperationLocked] leaves the store alone or appends the
    operation, and what it appended it accepts again on an equal store
    when it is replayed. *)
Lemma addOperationLocked_step s op persist appendOK added err s' :
  addOperationLocked s op persist appendOK = (added, err, s') ->
  s' = s \/
  (s' = appended s op /\
   forall ok, addOperationLocked s op false ok = (true, None, appended s op)).
Proof.
  unfold addOperationLocked, appended.
  destruct (verifyOperation op); [intros [= _ _ <-]; by left|].
  case_decide; [intros [= _ _ <-]; by left|].
  rewrite setPayload_clone.
  destruct (match authorSeqIndex s !! _ with Some _ => _ | None => false end);
    [intros [= _ _ <-]; by left|].
  simpl. intros Hadd. right.
  destruct (persist && negb appendOK); injection Hadd as _ _ <-; done.
Qed.

Lemma AppendLocalOp_step s now appendOK opType payload r s' :
  AppendLocalOp s now appendOK opType payload = (r, s') ->
  s' = s \/
  exists op added err, addOperationLocked s op true appendOK = (added, err, s').
Proof.
  unfold AppendLocalOp.
  repeat (case_match; try (intros [= _ <-]; by left)); subst;
    intros [= _ <-]; right; eauto.
Qed.

Lemma addOperationLocked_setPeers s op persist appendOK ps :
  addOperationLocked (setPeers s ps) op persist appendOK
  = (let '(added, err, s') := addOperationLocked s op persist appendOK in
     (added, err, setPeers s' ps)).
Proof.
  unfold addOperationLocked. simpl.
  by repeat case_match.
Qed.

(** One turn of the loop, with the line as it is trimmed. *)
Lemma loadOpsLoop_cons text rest line s :
  loadOpsLoop decode (text :: rest) line s
  = if negb (fitsBuffer text) then (Some ErrScanOpsLog, s)
    else if string_eqb (TrimSpace text) ""
    then loadOpsLoop decode rest (line + 1)%Z s
    else
      match decode (TrimSpace text) with
      | None => (Some (ErrDecodeOperation (line + 1)%Z), s)
      | Some op =>
          match addOperationLocked s op false false with
          | (_, Some err, s') => (Some (ErrLoadOperation (line + 1)%Z err), s')
          | (_, None, s') => loadOpsLoop decode rest (line + 1)%Z s'
          end
      end.
Proof. simpl. by rewrite TrimSpace_dropCR. Qed.

Lemma loadOpsLoop_app lines1 lines2 line s :
  loadOpsLoop decode (lines1 ++ lines2) line s
  = match loadOpsLoop decode lines1 line s with
    | (None, s') => loadOpsLoop decode lines2 (line + Z.of_nat (length lines1))%Z s'
    | failed => failed
    end.
Proof.
  revert line s. induction lines1 as [|text rest IH]; intros line s.
  - simpl. by rewrite Z.add_0_r.
  - rewrite <- app_comm_cons, !loadOpsLoop_cons.
    destruct (negb (fitsBuffer text)); [done|].
    destruct (string_eqb (TrimSpace text) "").
    { rewrite IH. case_match. case_match; [done|]. f_equal. simpl length. lia. }
    destruct (decode _) as [op|]; [|done].
    destruct (addOperationLocked s op false false) as [[added [err|]] s1];
      [done|].
    rewrite IH. case_match. case_match; [done|]. f_equal. simpl length. lia.
Qed.

Lemma loadOpsLoop_setPeers lines line s ps :
  loadOpsLoop decode lines line (setPeers s ps)
  = (let '(err, s') := loadOpsLoop decode lines line s in (err, setPeers s' ps)).
Proof.
  revert line s. induction lines as [|text rest IH]; intros line s; [done|].
  rewrite !loadOpsLoop_cons.
  destruct (negb (fitsBuffer text)); [done|].
  destruct (string_eqb (TrimSpace text) ""); [apply IH|].
  destruct (decode _) as [op|]; [|done].
  rewrite addOperationLocked_setPeers.
  destruct (addOperationLocked s op false false) as [[added [err|]] s1];
    [done | apply IH].
Qed.

Lemma filter_app_split {A : Type} (f : A -> bool) (l : list A) (a b : list A) :
  List.filter f l = a ++ b ->
  exists l1 l2, l = l1 ++ l2 /\ List.filter f l1 = a /\ List.filter f l2 = b.
Proof.
  revert a. induction l as [|x l IH]; intros a; simpl.
  - intros H. symmetry in H. apply app_eq_nil in H as [-> ->].
    by exists [], [].
  - destruct (f x) eqn:E.
    + destruct a as [|y a]; simpl.
      * intros <-. exists [], (x :: l). simpl. by rewrite E.
      * intros [= <- H]. destruct (IH a H) as (l1 & l2 & -> & <- & <-).
        exists (x :: l1), l2. simpl. by rewrite E.
    + intros H. destruct (IH a H) as (l1 & l2 & -> & <- & <-).
      exists (x :: l1), l2. simpl. by rewrite E.
Qed.

Lemma snoc_split {A : Type} (l : list A) (x : A) (l1 l2 : list A) :
  l ++ [x] = l1 ++ l2 -> l1 = l ++ [x] \/ exists l2', l = l1 ++ l2'.
Proof.
  destruct l2 as [|y l2] using rev_ind.
  - rewrite app_nil_r. intros <-. by left.
  - rewrite app_assoc. intros [E _]%app_inj_tail. right. by exists l2.
Qed.

Lemma loadOpsLoop_blank lines line s :
  Forall (fun text => fitsBuffer text = true) lines ->
  List.filter notBlank lines = [] -> loadOpsLoop decode lines line s = (None, s).
Proof.
  intros Hfit. revert line.
  induction Hfit as [|text rest Ht _ IH]; intros line; [done|].
  rewrite loadOpsLoop_cons, Ht. simpl. unfold notBlank at 1.
  destruct (string_eqb (TrimSpace text) ""); simpl; [apply IH | done].
Qed.

Lemma loadOpsLoop_one lines line s op :
  Forall (fun text => fitsBuffer text = true) lines ->
  carries decode lines [op] ->
  (forall ok, addOperationLocked s op false ok = (true, None, appended s op)) ->
  loadOpsLoop decode lines line s = (None, appended s op).
Proof.
  unfold carries. intros Hfit. revert line.
  induction Hfit as [|text rest Ht Hfit IH]; intros line Hc Hadd.
  - inversion Hc.
  - rewrite loadOpsLoop_cons, Ht. simpl in *.
    unfold notBlank at 1 in Hc.
    destruct (string_eqb (TrimSpace text) ""); simpl in Hc; [by apply IH|].
    inversion Hc as [|? ? ? ? Hd Hrest Hx]; subst.
    rewrite Hd, Hadd. apply loadOpsLoop_blank; [done|].
    destruct (List.filter notBlank rest); [done | inversion Hrest].
Qed.

Lemma replay_reachable s :
  reachable s ->
  forall lines line,
    Forall (fun text => fitsBuffer text = true) lines ->
    carries decode lines (ops s) ->
    loadOpsLoop decode lines line (unloaded s) = (None, s).
Proof.
  induction 1 as [id priv ps | s now ok ty payload r s' _ IH H
                  | s ok op r s' _ IH H | s ok raw r s' _ IH H
                  | s ok raw r s' _ IH H]; intros lines line Hfit Hc.
  - unfold carries in Hc. simpl in Hc. inversion Hc as [Hb|].
    by apply loadOpsLoop_blank.
  - apply AppendLocalOp_step in H as [-> | (op & added & err & H)];
      [by apply IH|].
    apply addOperationLocked_step in H as [-> | [-> Hadd]]; [by apply IH|].
    unfold carries in Hc. simpl in Hc.
    apply Forall2_app_inv_r in Hc as (f1 & f2 & H1 & H2 & Hf).
    apply filter_app_split in Hf as (l1 & l2 & -> & <- & <-).
    apply Forall_app in Hfit as [Hfit1 Hfit2].
    rewrite loadOpsLoop_app.
    change (unloaded (appended s op)) with (unloaded s).
    rewrite (IH l1 line Hfit1 H1). by apply loadOpsLoop_one.
  - destruct r as [added err].
    apply addOperationLocked_step in H as [-> | [-> Hadd]]; [by apply IH|].
    unfold carries in Hc. simpl in Hc.
    apply Forall2_app_inv_r in Hc as (f1 & f2 & H1 & H2 & Hf).
    apply filter_app_split in Hf as (l1 & l2 & -> & <- & <-).
    apply Forall_app in Hfit as [Hfit1 Hfit2].
    rewrite loadOpsLoop_app.
    change (unloaded (appended s op)) with (unloaded s).
    rewrite (IH l1 line Hfit1 H1). by apply loadOpsLoop_one.
  - assert (s' = s \/ exists ps, s' = setPeers s ps) as [-> | [ps ->]].
    { unfold AddPeer in H. repeat case_match; injection H as _ <-; eauto. }
    { by apply IH. }
    change (unloaded (setPeers s ps)) with (setPeers (unloaded s) ps).
    rewrite loadOpsLoop_setPeers. by rewrite (IH lines line Hfit Hc).
  - assert (s' = s \/ exists ps, s' = setPeers s ps) as [-> | [ps ->]].
    { unfold RemovePeer in H. repeat case_match; injection H as _ <-; eauto. }
    { by apply IH. }
    change (unloaded (setPeers s ps)) with (setPeers (unloaded s) ps).
    rewrite loadOpsLoop_setPeers. by rewrite (IH lines line Hfit Hc).
Qed.

(** The lines that carry the first operations of a reachable store are
    replayed without error as well. *)
Lemma replay_prefix s :
  reachable s ->
  forall lines line l1 l2,
    ops s = l1 ++ l2 ->
    Forall (fun text => fitsBuffer text = true) lines ->
    carries decode lines l1 ->
    exists s1, loadOpsLoop decode lines line (unloaded s) = (None, s1)
               /\ ops s1 = l1.
Proof.
  intros Hs.
  induction Hs as [id priv ps | s now ok ty payload r s' Hs IH H
                  | s ok op r s' Hs IH H | s ok raw r s' _ IH H
                  | s ok raw r s' _ IH H]; intros lines line l1 l2 E Hfit Hc.
  - simpl in E. symmetry in E. apply app_eq_nil in E as [-> _].
    exists (newStore id priv ps). split; [|done].
    unfold carries in Hc. inversion Hc. by apply loadOpsLoop_blank.
  - assert (reachable s') as Hs' by (by eapply reach_append).
    apply AppendLocalOp_step in H as [-> | (op & added & err & H)];
      [by eapply IH|].
    apply addOperationLocked_step in H as [-> | [-> Hadd]]; [by eapply IH|].
    simpl in E. apply snoc_split in E as [-> | (l2' & E)].
    + exists (appended s op). split; [|done]. by apply replay_reachable.
    + change (unloaded (appended s op)) with (unloaded s). by eapply IH.
  - assert (reachable s') as Hs' by (by eapply reach_remote).
    destruct r as [added err].
    apply addOperationLocked_step in H as [-> | [-> Hadd]]; [by eapply IH|].
    simpl in E. apply snoc_split in E as [-> | (l2' & E)].
    + exists (appended s op). split; [|done]. by apply replay_reachable.
    + change (unloaded (appended s op)) with (unloaded s). by eapply IH.
  - assert (s' = s \/ exists ps, s' = setPeers s ps) as [-> | [ps ->]].
    { unfold AddPeer in H. repeat case_match; injection H as _ <-; eauto. }
    { by eapply IH. }
    change (unloaded (setPeers s ps)) with (setPeers (unloaded s) ps).
    rewrite loadOpsLoop_setPeers.
    destruct (IH lines line l1 l2 E Hfit Hc) as (s1 & -> & <-).
    by exists (setPeers s1 ps).
  - assert (s' = s \/ exists ps, s' = setPeers s ps) as [-> | [ps ->]].
    { unfold RemovePeer in H. repeat case_match; injection H as _ <-; eauto. }
    { by eapply IH. }
    change (unloaded (setPeers s ps)) with (setPeers (unloaded s) ps).
    rewrite loadOpsLoop_setPeers.
    destruct (IH lines line l1 l2 E Hfit Hc) as (s1 & -> & <-).
    by exists (setPeers s1 ps).
Qed.

(** X7. The indexes of a store are a function of its log, as far as
    [loadOps] can read the log.  When the lines of [ops.log] decode to the
    operations a reachable store holds, in that order and with any blank
    lines between them, and each line is shorter than the 4 MiB that the
    scanner can hold, [loadOps] replays them without error on the store
    [OpenStore] has built so far and rebuilds that store: the same
    operations, ids, per-author sequence numbers and (author, seq) index.
    At the first line that is not shorter, [loadOps] fails with the error
    of the scanner and leaves the operations of the lines before it. *)
Theorem loadOps_rebuilds_store (s : Store) (lines : list string) :
  reachable s ->
  Forall2 (fun text op => decode (TrimSpace text) = Some op)
          (List.filter notBlank lines) (ops s) ->
  (Forall (fun text => fitsBuffer text = true) lines ->
   loadOps decode (Some lines) (unloaded s) = (None, s)) /\
  (forall before text after,
      lines = before ++ text :: after ->
      Forall (fun text => fitsBuffer text = true) before ->
      fitsBuffer text = false ->
      exists s' later,
        loadOps decode (Some lines) (unloaded s) = (Some ErrScanOpsLog, s') /\
        ops s = ops s' ++ later /\
        Forall2 (fun text op => decode (TrimSpace text) = Some op)
                (List.filter notBlank before) (ops s')).
Proof.
  intros Hr Hc. split; [intros Hfit; by apply replay_reachable|].
  intros before text after -> Hfit Hlong. simpl.
  rewrite List.filter_app in Hc.
  apply Forall2_app_inv_l in Hc as (l1 & l2 & H1 & _ & E).
  destruct (replay_prefix s Hr before 0%Z l1 l2 E Hfit H1) as (s1 & Hs1 & <-).
  exists s1, l2. rewrite loadOpsLoop_app, Hs1, loadOpsLoop_cons, Hlong. done.
Qed.

(** X8. When the append to [ops.log] fails, [AddRemoteOp] returns the
    error and keeps the operation in memory: it is in the log that [Ops]
    reads, and offering it again, even with a log that can be written,
    is answered as a duplicate, without error and without a write. *)
Theorem failed_append_keeps_operation (s s' : Store) (op : Operation) :
  AddRemoteOp s false op = (false, Some ErrAppendOp, s') ->
  In op (ops s') /\
  forall appendOK, AddRemoteOp s' appendOK op = (false, None, s').
Proof.
  unfold AddRemoteOp. intros H.
  pose proof (addOperationLocked_outcome s op true false) as O.
  rewrite H in O. inversion O as [e Hv | | |Hv Hid Hidx Heq]; subst.
  - by apply verifyOperation_error in Hv.
  - simpl in *.
    split; [apply in_or_app; right; by left|].
    intros appendOK. unfold addOperationLocked. rewrite Hv. simpl.
    case_decide as Hin; [done|]. exfalso. apply Hin. set_solver.
Qed.

(** X9. An error of [loadOps] names the line at which the loading
    stopped.  The line number in it is the position of that line in
    [ops.log], counted from one with the blank lines.  The line fits the
    scanner and is not blank; it does not decode, or it decodes to an
    operation that [addOperationLocked] refuses with the error reported.
    The error of the scanner has no line number: the loading stopped at
    the first line that does not fit.  In each case the lines before were
    loaded without error into the store that is left. *)
Theorem loadOps_error_line (lines : list string) (s s' : Store) (e : loadError) :
  loadOps decode (Some lines) s = (Some e, s') ->
  exists before text after,
    lines = before ++ text :: after /\
    loadOps decode (Some before) s = (None, s') /\
    match e with
    | ErrDecodeOperation line =>
        line = (Z.of_nat (length before) + 1)%Z /\
        fitsBuffer text = true /\ notBlank text = true /\
        decode (TrimSpace text) = None
    | ErrLoadOperation line err =>
        line = (Z.of_nat (length before) + 1)%Z /\
        fitsBuffer text = true /\ notBlank text = true /\
        exists op added,
          decode (TrimSpace text) = Some op /\
          addOperationLocked s' op false false = (added, Some err, s')
    | ErrScanOpsLog => fitsBuffer text = false
    end.
Proof.
  unfold loadOps.
  assert (forall line,
    loadOpsLoop decode lines line s = (Some e, s') ->
    exists before text after,
      lines = before ++ text :: after /\
      loadOpsLoop decode before line s = (None, s') /\
      match e with
      | ErrDecodeOperation n =>
          n = (line + Z.of_nat (length before) + 1)%Z /\
          fitsBuffer text = true /\ notBlank text = true /\
          decode (TrimSpace text) = None
      | ErrLoadOperation n err =>
          n = (line + Z.of_nat (length before) + 1)%Z /\
          fitsBuffer text = true /\ notBlank text = true /\
          exists op added,
            decode (TrimSpace text) = Some op /\
            addOperationLocked s' op false false = (added, Some err, s')
      | ErrScanOpsLog => fitsBuffer text = false
      end) as G.
  { revert s. induction lines as [|text rest IH]; intros s line; [done|].
    rewrite loadOpsLoop_cons.
    destruct (fitsBuffer text) eqn:Hfit; simpl.
    2:{ intros [= <- <-]. by exists [], text, rest. }
    assert (forall before t after,
      rest = before ++ t :: after ->
      loadOpsLoop decode (text :: before) line s
      = loadOpsLoop decode before (line + 1)%Z
          (snd (loadOpsLoop decode [text] line s)) ->
      loadOpsLoop decode before (line + 1)%Z
        (snd (loadOpsLoop decode [text] line s)) = (None, s') ->
      match e with
      | ErrDecodeOperation n =>
          n = (line + 1 + Z.of_nat (length before) + 1)%Z /\
          fitsBuffer t = true /\ notBlank t = true /\
          decode (TrimSpace t) = None
      | ErrLoadOperation n err =>
          n = (line + 1 + Z.of_nat (length before) + 1)%Z /\
          fitsBuffer t = true /\ notBlank t = true /\
          exists op added,
            decode (TrimSpace t) = Some op /\
            addOperationLocked s' op false false = (added, Some err, s')
      | ErrScanOpsLog => fitsBuffer t = false
      end ->
      exists before0 text0 after0,
        text :: rest = before0 ++ text0 :: after0 /\
        loadOpsLoop decode before0 line s = (None, s') /\
        match e with
        | ErrDecodeOperation n =>
            n = (line + Z.of_nat (length before0) + 1)%Z /\
            fitsBuffer text0 = true /\ notBlank text0 = true /\
            decode (TrimSpace text0) = None
        | ErrLoadOperation n err =>
            n = (line + Z.of_nat (length before0) + 1)%Z /\
            fitsBuffer text0 = true /\ notBlank text0 = true /\
            exists op added,
              decode (TrimSpace text0) = Some op /\
              addOperationLocked s' op false false = (added, Some err, s')
        | ErrScanOpsLog => fitsBuffer text0 = false
        end) as Step.
    { intros before t after -> E1 E2 He.
      exists (text :: before), t, after. split; [done|].
      split; [by rewrite E1|].
      destruct e as [n | n err |]; [| |done];
        destruct He as (-> & ?); (split; [simpl length; lia | done]). }
    destruct (string_eqb (TrimSpace text) "") eqn:Hb.
    { intros H. destruct (IH _ _ H) as (before & t & after & E & Hp & He).
      apply (Step before t after E); [| |done];
        rewrite !loadOpsLoop_cons, Hfit, Hb; simpl; done. }
    destruct (decode (TrimSpace text)) as [op|] eqn:Hd.
    2:{ intros [= <- <-]. exists [], text, rest. simpl.
        unfold notBlank. rewrite Hb. repeat split; try done. lia. }
    destruct (addOperationLocked s op false false) as [[added [err|]] s1] eqn:Ha.
    - intros [= <- <-]. exists [], text, rest. simpl.
      unfold notBlank. rewrite Hb.
      assert (s1 = s) as ->.
      { destruct (addOperationLocked_step _ _ _ _ _ _ _ Ha) as [-> | [_ Hok]];
          [done|].
        rewrite Hok in Ha. done. }
      repeat split; try done; [lia|]. by exists op, added.
    - intros H. destruct (IH _ _ H) as (before & t & after & E & Hp & He).
      apply (Step before t after E); [| |done];
        rewrite !loadOpsLoop_cons, Hfit, Hb, Hd, Ha; simpl; done. }
  intros H. destruct (G 0%Z H) as (before & t & after & H1 & H2 & H3).
  exists before, t, after. split; [done|]. split; [done|].
  destruct e; [| |done]; destruct H3 as (-> & ?); (split; [lia | done]).
Qed.
End Replay.

(** ** The pending-push queue: what is written can be read *)

Lemma isStatus_nonempty (st : string) : isStatus st = true -> st <> "".
Proof. by intros H ->. Qed.

Lemma normalForm_iff (p : PendingPush) :
  normalForm p <->
  TrimSpace (ProposalID p) = ProposalID p /\ ProposalID p <> "" /\
  TrimSpace (TargetRef p) = TargetRef p /\ TargetRef p <> "" /\
  TrimSpace (Remote p) = Remote p /\
  TrimSpace (SourceRef p) = SourceRef p /\
  TrimSpace (NewOID p) = NewOID p /\
  TrimSpace (LastError p) = LastError p /\
  isStatus (Status p) = true.
Proof.
  unfold normalForm, normalizePendingPush. split.
  - destruct p as [pid rem src tgt oid args st att le ca ua lt cpa]. simpl.
    destruct (string_eqb (TrimSpace pid) "") eqn:E1; [done|].
    destruct (string_eqb (TrimSpace tgt) "") eqn:E2; [done|].
    destruct (isStatus _) eqn:E3; [|done]. simpl.
    apply string_eqb_neq in E1, E2.
    intros H. injection H as H1 H2 H3 H4 H5 H6 H7.
    rewrite H1 in E1. rewrite H4 in E2. rewrite H6 in E3.
    repeat split; done.
  - intros (H1 & N1 & H2 & N2 & H3 & H4 & H5 & H6 & H7).
    rewrite H1, H2, H3, H4, H5, H6.
    apply string_eqb_neq in N1, N2. rewrite N1, N2.
    pose proof (isStatus_nonempty _ H7) as N3.
    apply string_eqb_neq in N3. rewrite N3, H7. simpl.
    by destruct p.
Qed.

Lemma normalizePendingPush_normal push forWrite now1 now2 norm :
  normalizePendingPush push forWrite now1 now2 = Ok norm -> normalForm norm.
Proof.
  intros H. apply normalForm_iff.
  pose proof (normalizePendingPush_ok _ _ _ _ _ H)
    as (H1 & N1 & H2 & H3 & H4 & H5 & H6 & _ & H7 & _).
  rewrite H1, H2, H3, H4, H5, H6, !TrimSpace_idempotent.
  rewrite <- H1. repeat split; try done.
  - unfold normalizePendingPush in H.
    destruct (string_eqb (TrimSpace (ProposalID push)) ""); [done|].
    destruct (string_eqb (TrimSpace (TargetRef push)) "") eqn:E; [done|].
    by apply string_eqb_neq in E.
  - rewrite H7. unfold normalizePendingPush in H.
    destruct (string_eqb (TrimSpace (ProposalID push)) ""); [done|].
    destruct (string_eqb (TrimSpace (TargetRef push)) ""); [done|].
    by destruct (isStatus _).
Qed.

Lemma normalizeAll_spec (file l : list PendingPush) :
  normalizeAll file = Ok l ->
  Forall normalForm l /\
  map ProposalID l = map (fun p => TrimSpace (ProposalID p)) file.
Proof.
  revert l. induction file as [|p rest IH]; intros l; simpl.
  - intros [= <-]. by split.
  - destruct (normalizePendingPush p false "" "") as [q|] eqn:Hq; [|done].
    destruct (normalizeAll rest) as [l'|]; [|done].
    intros [= <-]. destruct (IH l' eq_refl) as [H1 H2].
    split.
    + constructor; [by eapply normalizePendingPush_normal | done].
    + simpl. rewrite H2. f_equal.
      by apply normalizePendingPush_ok in Hq as [-> _].
Qed.

Lemma normalizeAll_normal (l : list PendingPush) :
  Forall normalForm l -> normalizeAll l = Ok l.
Proof.
  induction 1 as [|p l Hp _ IH]; simpl; [done|].
  unfold normalForm in Hp. by rewrite Hp, IH.
Qed.

(** The order of the queue. *)
Lemma pushLess_asym (a b : PendingPush) :
  pushLess a b = true -> pushLess b a = false.
Proof.
  unfold pushLess.
  destruct (string_eqb (CreatedAt a) (CreatedAt b)) eqn:E.
  - apply string_eqb_eq in E. rewrite E, string_eqb_refl. simpl.
    apply string_ltb_asym.
  - apply string_eqb_neq in E.
    assert (string_eqb (CreatedAt b) (CreatedAt a) = false) as ->
      by (apply string_eqb_neq; congruence).
    simpl. apply string_ltb_asym.
Qed.

Lemma not_pushLess_before (a b : PendingPush) :
  pushLess b a = false <-> pushBefore a b.
Proof.
  unfold pushLess, pushBefore.
  destruct (string_eqb (CreatedAt b) (CreatedAt a)) eqn:E; simpl.
  - apply string_eqb_eq in E. rewrite E, string_ltb_irrefl.
    split; [by right | by intros [? | [_ ?]]].
  - apply string_eqb_neq in E. split.
    + intros H. left. apply string_ltb_total; [done | done].
    + intros [H | [H _]]; [by apply string_ltb_asym | congruence].
Qed.

Lemma pushBefore_trans (a b c : PendingPush) :
  pushBefore a b -> pushBefore b c -> pushBefore a c.
Proof.
  unfold pushBefore. intros [H1 | [E1 H1]] [H2 | [E2 H2]].
  - left. by eapply string_ltb_trans.
  - left. by rewrite <- E2.
  - left. by rewrite E1.
  - right. split; [congruence|]. by eapply string_le_trans.
Qed.

Lemma sortStable_pushLess_sorted (l : list PendingPush) :
  StronglySorted (fun a b => pushLess b a = false) (sortStable pushLess l).
Proof.
  apply sortStable_sorted.
  - apply pushLess_asym.
  - done.
  - intros a b c. rewrite !not_pushLess_before. apply pushBefore_trans.
Qed.

Lemma loadPendingPushesLocked_normal (l : list PendingPush) :
  Forall normalForm l ->
  loadPendingPushesLocked l = Ok (sortStable pushLess l).
Proof.
  intros H. unfold loadPendingPushesLocked. by rewrite normalizeAll_normal.
Qed.

Lemma loadPendingPushesLocked_spec (file pushes : list PendingPush) :
  loadPendingPushesLocked file = Ok pushes ->
  Forall normalForm pushes /\
  Permutation (map ProposalID pushes)
              (map (fun p => TrimSpace (ProposalID p)) file) /\
  StronglySorted (fun a b => pushLess b a = false) pushes.
Proof.
  unfold loadPendingPushesLocked.
  destruct (normalizeAll file) as [l|] eqn:Hl; [|done].
  intros [= <-]. apply normalizeAll_spec in Hl as [H1 H2].
  split; [|split].
  - eapply Permutation_Forall; [symmetry; apply sortStable_perm | done].
  - rewrite <- H2. apply Permutation_map, sortStable_perm.
  - apply sortStable_pushLess_sorted.
Qed.

(** X10. What [normalizePendingPush] returns, on a write or on a read, it
    returns unchanged when the entry is read again: the identifiers are
    trimmed and not blank where required, and the status is one of the
    three. *)
Theorem normalizePendingPush_idempotent
  (push norm : PendingPush) (forWrite : bool) (now1 now2 : string) :
  normalizePendingPush push forWrite now1 now2 = Ok norm ->
  (forall t1 t2, normalizePendingPush norm false t1 t2 = Ok norm) /\
  isStatus (Status norm) = true /\
  ProposalID norm <> "" /\ TargetRef norm <> "".
Proof.
  intros H. pose proof (normalizePendingPush_normal _ _ _ _ _ H) as Hn.
  split; [|by apply normalForm_iff in Hn as (_ & ? & _ & ? & _ & _ & _ & _ & ?)].
  intros t1 t2. exact Hn.
Qed.

Lemma string_ltb_app (pre a b : string) :
  string_ltb (pre +:+ a) (pre +:+ b) = string_ltb a b.
Proof.
  unfold string_ltb. induction pre as [|c pre IH]; [done|].
  change (match String.compare (String c (pre +:+ a)) (String c (pre +:+ b)) with
          | Lt => true | _ => false end
          = match String.compare a b with Lt => true | _ => false end).
  simpl. assert (Ascii.compare c c = Eq) as ->; [|exact IH].
  unfold Ascii.compare. apply N.compare_refl.
Qed.

(** A stamp with a fraction comes before the stamp of the whole second:
    a full stop is smaller than [Z]. *)
Lemma fraction_before_second (second fraction : string) :
  string_ltb (second +:+ "." +:+ fraction +:+ "Z") (second +:+ "Z") = true.
Proof. by rewrite string_ltb_app. Qed.

Lemma sorted_occurs_before {A : Type} (R : A -> A -> Prop) (l : list A) (a b : A) :
  StronglySorted R l -> In a l -> In b l -> a <> b -> ~ R b a ->
  exists l1 l2 l3, l = l1 ++ a :: l2 ++ b :: l3.
Proof.
  intros Hs Ha Hb Hne Hba.
  induction Hs as [|x l Hs IH Hall]; [done|].
  rewrite List.Forall_forall in Hall.
  destruct Ha as [-> | Ha], Hb as [-> | Hb].
  - done.
  - apply in_split in Hb as (l2 & l3 & ->). by exists [], l2, l3.
  - destruct Hba. by apply Hall.
  - destruct (IH Ha Hb) as (l1 & l2 & l3 & ->). by exists (x :: l1), l2, l3.
Qed.

(** X11. [ListPendingPushes] returns the queue in the order of the text
    of created_at, compared byte by byte, and of proposal_id among entries
    with the same text.  It returns one entry for each entry of the file,
    under its trimmed proposal_id, and a file with the entries it returned
    reads back as the same list.  The order of the texts is not the order
    of creation: [RFC3339Nano] prints a whole second without a fraction,
    and a full stop sorts before [Z], so that an entry stamped within a
    second is listed before an entry stamped at the start of that
    second. *)
Theorem ListPendingPushes_sorted_by_text (file pushes : list PendingPush) :
  ListPendingPushes file = Ok pushes ->
  StronglySorted pushBefore pushes /\
  Permutation (map ProposalID pushes)
              (map (fun p => TrimSpace (ProposalID p)) file) /\
  ListPendingPushes pushes = Ok pushes /\
  (forall second fraction a b,
      In a pushes -> In b pushes ->
      CreatedAt a = second +:+ "." +:+ fraction +:+ "Z" ->
      CreatedAt b = second +:+ "Z" ->
      exists l1 l2 l3, pushes = l1 ++ a :: l2 ++ b :: l3).
Proof.
  unfold ListPendingPushes. intros H.
  apply loadPendingPushesLocked_spec in H as (Hn & Hp & Hs).
  assert (StronglySorted pushBefore pushes) as Hsorted.
  { clear Hn Hp. induction Hs as [|p l _ IH Hall]; constructor; [done|].
    eapply List.Forall_impl; [|exact Hall].
    intros q. apply not_pushLess_before. }
  split; [done|]. split; [done|]. split.
  - rewrite loadPendingPushesLocked_normal by done.
    f_equal. by apply sortStable_sorted_id.
  - intros second fraction a b Ha Hb Ea Eb.
    pose proof (fraction_before_second second fraction) as Hlt.
    rewrite <- Ea, <- Eb in Hlt.
    apply (sorted_occurs_before pushBefore); try done.
    + intros ->. by rewrite string_ltb_irrefl in Hlt.
    + intros [C | [C _]].
      * by rewrite (string_ltb_asym _ _ Hlt) in C.
      * rewrite C in Hlt. by rewrite string_ltb_irrefl in Hlt.
Qed.

Lemma upsertLoop_Some (pushes l' : list PendingPush) (push p' : PendingPush) :
  upsertLoop pushes push = Some (p', l') ->
  exists l1 existing l2,
    pushes = l1 ++ existing :: l2 /\ l' = l1 ++ p' :: l2 /\
    ProposalID existing = ProposalID push /\
    (p' = setCreatedAt push (CreatedAt existing)
     \/ p' = setAttempts (setCreatedAt push (CreatedAt existing))
                         (Attempts existing)).
Proof.
  revert l'. induction pushes as [|q rest IH]; intros l'; simpl; [done|].
  destruct (string_eqb (ProposalID q) (ProposalID push)) eqn:E; simpl.
  - apply string_eqb_eq in E. intros [= <- <-].
    exists [], q, rest. repeat split; try done.
    destruct (Attempts push <? Attempts q)%Z; [by right | by left].
  - destruct (upsertLoop rest push) as [[p1 l1']|]; [|done].
    intros [= <- <-].
    destruct (IH l1' eq_refl) as (l1 & ex & l2 & -> & -> & H1 & H2).
    by exists (q :: l1), ex, l2.
Qed.

Lemma upsertLoop_None (pushes : list PendingPush) (push : PendingPush) :
  upsertLoop pushes push = None ->
  ~ In (ProposalID push) (map ProposalID pushes).
Proof.
  induction pushes as [|q rest IH]; simpl; [tauto|].
  destruct (string_eqb (ProposalID q) (ProposalID push)) eqn:E; simpl; [done|].
  apply string_eqb_neq in E.
  destruct (upsertLoop rest push) as [[p1 l1']|]; [done|].
  intros _ [H | H]; [done | by apply IH].
Qed.

Lemma updateLoop_Some (pushes l' : list PendingPush)
      (pid status lastError now : string) :
  updateLoop pushes pid status lastError now = Some l' ->
  exists l1 p l2,
    pushes = l1 ++ p :: l2 /\ ProposalID p = pid /\
    l' = l1 ++ markPush p status lastError now :: l2.
Proof.
  revert l'. induction pushes as [|q rest IH]; intros l'; simpl; [done|].
  destruct (string_eqb (ProposalID q) pid) eqn:E; simpl.
  - apply string_eqb_eq in E. intros [= <-]. by exists [], q, rest.
  - destruct (updateLoop rest pid status lastError now) as [l1'|]; [|done].
    intros [= <-]. destruct (IH l1' eq_refl) as (l1 & p & l2 & -> & H1 & ->).
    by exists (q :: l1), p, l2.
Qed.

Lemma normalForm_setCreatedAt (p : PendingPush) (v : string) :
  normalForm p -> normalForm (setCreatedAt p v).
Proof. rewrite !normalForm_iff. done. Qed.

Lemma normalForm_setAttempts (p : PendingPush) (v : Z) :
  normalForm p -> normalForm (setAttempts p v).
Proof. rewrite !normalForm_iff. done. Qed.

Lemma normalForm_markPush (p : PendingPush) (status lastError now : string) :
  normalForm p -> isStatus status = true ->
  normalForm (markPush p status lastError now).
Proof.
  rewrite !normalForm_iff. simpl.
  intros (H1 & N1 & H2 & N2 & H3 & H4 & H5 & H6 & H7) Hst.
  repeat split; try done.
  destruct (string_eqb status PendingPushStatusCompleted); [done|].
  apply TrimSpace_idempotent.
Qed.

Lemma queueOK_normal (l : list PendingPush) :
  Forall normalForm l -> List.NoDup (map ProposalID l) -> queueOK l.
Proof.
  intros Hn Hd. exists (sortStable pushLess l).
  split; [by apply loadPendingPushesLocked_normal|].
  eapply Permutation_NoDup; [|exact Hd].
  apply Permutation_map. symmetry. apply sortStable_perm.
Qed.

(** What a successful [UpsertPendingPush] writes. *)
Lemma UpsertPendingPush_written
  (file file' pushes : list PendingPush) (now1 now2 : string)
  (push stored : PendingPush) :
  loadPendingPushesLocked file = Ok pushes ->
  UpsertPendingPush file now1 now2 true push = (Ok stored, file') ->
  Forall normalForm file' /\ In stored file' /\
  ProposalID stored = TrimSpace (ProposalID push) /\
  (map ProposalID file' = map ProposalID pushes
   \/ (file' = pushes ++ [stored]
       /\ ~ In (ProposalID stored) (map ProposalID pushes))).
Proof.
  intros Hload. unfold UpsertPendingPush. rewrite Hload.
  destruct (normalizePendingPush push true now1 now2) as [norm|] eqn:Hn;
    [|done].
  pose proof (normalizePendingPush_normal _ _ _ _ _ Hn) as Hnorm.
  apply normalizePendingPush_ok in Hn as [Hid _].
  apply loadPendingPushesLocked_spec in Hload as (Hall & _ & _).
  destruct (upsertLoop pushes norm) as [[p' l']|] eqn:Hu.
  - intros [= <- <-].
    apply upsertLoop_Some in Hu as (l1 & ex & l2 & -> & -> & He & Hp).
    assert (normalForm p' /\ ProposalID p' = ProposalID norm) as [Hp1 Hp2].
    { destruct Hp as [-> | ->]; split; try done.
      - by apply normalForm_setCreatedAt.
      - by apply normalForm_setAttempts, normalForm_setCreatedAt. }
    apply Forall_app in Hall as [Ha1 Ha2]. apply Forall_cons in Ha2 as [_ Ha2].
    split; [apply Forall_app; split; [done | by constructor]|].
    split; [apply in_or_app; right; by left|].
    split; [congruence|].
    left. rewrite !map_app. simpl. congruence.
  - intros [= <- <-].
    split; [apply Forall_app; split; [done | by constructor; [|constructor]]|].
    split; [apply in_or_app; right; by left|].
    split; [done|]. right. split; [done|]. by apply upsertLoop_None.
Qed.

(** X12. The queue file stays readable and keeps one entry for a
    proposal_id at most: that holds of the empty queue, and when it holds
    of the file before [UpsertPendingPush] or one of the three
    [MarkPendingPush...] calls it holds of the file afterwards, whether
    the call succeeded or not. *)
Theorem queue_stays_readable_and_unique
  (file : list PendingPush) (now1 now2 now : string) (saveOK : bool)
  (push : PendingPush) (m : Mark) (proposalID message : string) :
  queueOK file ->
  queueOK [] /\
  queueOK (snd (UpsertPendingPush file now1 now2 saveOK push)) /\
  queueOK (snd (runMark m file now saveOK proposalID message)).
Proof.
  intros Hq. split; [exists []; split; [done | constructor]|].
  pose proof Hq as (pushes & Hload & Hnd).
  pose proof (loadPendingPushesLocked_spec _ _ Hload) as (Hall & _ & _).
  split.
  - destruct saveOK.
    2:{ unfold UpsertPendingPush. rewrite Hload.
        repeat case_match; simpl; done. }
    destruct (UpsertPendingPush file now1 now2 true push) as [[stored|e] file']
      eqn:Hu.
    2:{ unfold UpsertPendingPush in Hu. rewrite Hload in Hu.
        destruct (normalizePendingPush push true now1 now2) as [norm|];
          [|by injection Hu as _ <-].
        destruct (upsertLoop pushes norm) as [[? ?]|]; simpl in Hu; done. }
    destruct (UpsertPendingPush_written _ _ _ _ _ _ _ Hload Hu)
      as (Hn & _ & _ & Hids).
    simpl. apply queueOK_normal; [done|].
    destruct Hids as [-> | [-> Hnew]]; [done|].
    rewrite map_app. simpl.
    apply NoDup_ListNoDup, NoDup_app.
    split; [by apply NoDup_ListNoDup|]. split; [|apply NoDup_singleton].
    intros x Hx ->%list_elem_of_singleton. by apply list_elem_of_In in Hx.
  - assert (runMark m file now saveOK proposalID message
            = updatePendingPushStatus file now saveOK proposalID (statusOf m)
                (if m is MarkCompleted then "" else message)) as ->
      by (by destruct m).
    unfold updatePendingPushStatus.
    destruct (string_eqb (TrimSpace proposalID) ""); [done|].
    rewrite Hload.
    destruct (updateLoop pushes _ _ _ _) as [l'|] eqn:Hu; [|done].
    destruct saveOK; [|done]. simpl.
    apply updateLoop_Some in Hu as (l1 & p & l2 & -> & Hp & ->).
    apply Forall_app in Hall as [Ha1 Ha2]. apply Forall_cons in Ha2 as [Hp' Ha2].
    apply queueOK_normal.
    + apply Forall_app. split; [done|]. constructor; [|done].
      apply normalForm_markPush; [done | by destruct m].
    + by rewrite map_app in *.
Qed.

(** X13. A push that [UpsertPendingPush] has stored is found by the
    three [MarkPendingPush...] calls under the proposal_id it was given,
    trimmed or not: the file it wrote reads back, holds the stored entry,
    and a mark with that proposal_id succeeds when the file can be
    written and never answers that the push was not found. *)
Theorem upserted_push_is_found
  (file file' : list PendingPush) (now1 now2 now : string)
  (push stored : PendingPush) (m : Mark) (message : string) :
  UpsertPendingPush file now1 now2 true push = (Ok stored, file') ->
  ProposalID stored = TrimSpace (ProposalID push) /\
  (exists pushes', ListPendingPushes file' = Ok pushes' /\ In stored pushes') /\
  fst (runMark m file' now true (ProposalID push) message) = None /\
  (forall saveOK x f,
      runMark m file' now saveOK (ProposalID push) message
      <> (Some (ErrPushNotFound x), f)).
Proof.
  intros Hu.
  assert (exists pushes, loadPendingPushesLocked file = Ok pushes)
    as [pushes Hload].
  { unfold UpsertPendingPush in Hu.
    destruct (normalizePendingPush _ _ _ _); [|done].
    destruct (loadPendingPushesLocked file); [by eexists | done]. }
  destruct (UpsertPendingPush_written _ _ _ _ _ _ _ Hload Hu)
    as (Hn & Hin & Hid & _).
  pose proof (loadPendingPushesLocked_normal _ Hn) as Hload'.
  assert (In stored (sortStable pushLess file')) as Hin'.
  { eapply Permutation_in; [symmetry; apply sortStable_perm | done]. }
  split; [done|]. split; [by eexists|].
  assert (forall saveOK,
    runMark m file' now saveOK (ProposalID push) message
    = updatePendingPushStatus file' now saveOK (ProposalID push) (statusOf m)
        (if m is MarkCompleted then "" else message)) as Hm
    by (by destruct m).
  assert (TrimSpace (ProposalID push) <> "") as Hne.
  { rewrite <- Hid. rewrite List.Forall_forall in Hn.
    by apply Hn, normalForm_iff in Hin as (_ & ? & _). }
  apply string_eqb_neq in Hne.
  destruct (updateLoop (sortStable pushLess file') (TrimSpace (ProposalID push))
              (statusOf m) (if m is MarkCompleted then "" else message) now)
    as [l'|] eqn:Hl.
  2:{ exfalso. eapply updateLoop_absent in Hl; [|exact Hin']. by apply Hl. }
  split.
  - rewrite Hm. unfold updatePendingPushStatus. by rewrite Hne, Hload', Hl.
  - intros saveOK x f. rewrite Hm. unfold updatePendingPushStatus.
    rewrite Hne, Hload', Hl. by destruct saveOK.
Qed.

(** ** Arguments of [vcs push] *)

Section PushArguments.
Import Vcs.

Lemma consumeLoop_spec (args : list string) (flag : string) (found : bool)
      (out : list string) :
  consumeLoop args flag found out
  = (found || existsb (fun arg => string_eqb arg flag) args,
     out ++ List.filter (fun arg => negb (string_eqb arg flag)) args).
Proof.
  revert found out. induction args as [|arg rest IH]; intros found out; simpl.
  - by rewrite orb_false_r, app_nil_r.
  - destruct (string_eqb arg flag); simpl; rewrite IH.
    + by rewrite orb_true_r.
    + by rewrite <- app_assoc.
Qed.

Lemma consumeExactFlag_spec (args : list string) (flag : string) :
  consumeExactFlag args flag
  = (existsb (fun arg => string_eqb arg flag) args,
     List.filter (fun arg => negb (string_eqb arg flag)) args).
Proof. unfold consumeExactFlag. by rewrite consumeLoop_spec. Qed.

Lemma existsb_flag (args : list string) (flag : string) :
  existsb (fun arg => string_eqb arg flag) args = true <-> In flag args.
Proof.
  rewrite existsb_exists. split.
  - by intros (x & Hx & ->%string_eqb_eq).
  - intros H. exists flag. split; [done | apply string_eqb_refl].
Qed.

(** X14. [consumeExactFlag] reports whether the flag occurs among the
    arguments and returns the arguments without its occurrences, the
    others in their order.  So the three flags that [cmdPush] consumes
    are recognised wherever and however often they stand, and none of them
    is left in the arguments passed on to git. *)
Theorem cmdPush_flags_are_consumed (args : list string) :
  (forall flag,
      let '(found, out) := consumeExactFlag args flag in
      (found = true <-> In flag args) /\
      out = List.filter (fun arg => negb (string_eqb arg flag)) args /\
      ~ In flag out) /\
  let own := ["--process-pending"; "--list-pending"; "--no-auto-proposal"] in
  let '(processPendingOnly, listPendingOnly, noAutoProposal, gitArgs) :=
    cmdPushFlags args in
  (processPendingOnly = true <-> In "--process-pending" args) /\
  (listPendingOnly = true <-> In "--list-pending" args) /\
  (noAutoProposal = true <-> In "--no-auto-proposal" args) /\
  gitArgs = List.filter (fun arg => negb (existsb (string_eqb arg) own)) args /\
  (forall flag, In flag own -> ~ In flag gitArgs).
Proof.
  split.
  - intros flag. rewrite consumeExactFlag_spec.
    split; [apply existsb_flag|]. split; [done|].
    intros [_ H]%filter_In. by rewrite string_eqb_refl in H.
  - unfold cmdPushFlags. rewrite !consumeExactFlag_spec.
    assert (forall (f g : string -> bool) (l : list string),
               List.filter g (List.filter f l)
               = List.filter (fun x => f x && g x) l) as Hff.
    { intros f g l. induction l as [|x l IH]; simpl; [done|].
      destruct (f x); simpl; [destruct (g x)|]; by rewrite IH. }
    rewrite !Hff.
    assert (forall flag other (l : list string),
               flag <> other ->
               In flag (List.filter (fun arg => negb (string_eqb arg other)) l)
               <-> In flag l) as Hkeep.
    { intros flag other l Hne. rewrite filter_In.
      apply string_eqb_neq in Hne. rewrite Hne. simpl. tauto. }
    split; [apply existsb_flag|].
    split; [rewrite existsb_flag; by apply Hkeep|].
    split.
    { rewrite existsb_flag, filter_In.
      split; [by intros [? _]|]. intros H. by split. }
    split.
    { apply filter_ext. intros arg. simpl.
      rewrite orb_false_r, !negb_orb, andb_assoc. done. }
    intros flag Hin [_ Hf]%filter_In.
    simpl in Hin. destruct Hin as [<- | [<- | [<- | []]]]; done.
Qed.

Lemma noDash_plain (arg : string) :
  hasPrefix arg "-" = false ->
  string_eqb arg "--" = false /\ hasPrefix arg "--" = false.
Proof.
  destruct arg as [|c arg]; [done|]. simpl.
  destruct (bool_decide ("-"%char = c)) eqn:E; [done|]. intros _.
  split; [|done].
  apply string_eqb_neq. intros [= -> _]. by apply bool_decide_eq_false in E.
Qed.

Lemma positionalsLoop_plain (args : list string) (positionals : list string) :
  (forall arg, In arg args -> hasPrefix arg "-" = false) ->
  positionalsLoop args false positionals = positionals ++ args.
Proof.
  revert positionals.
  induction args as [|arg rest IH]; intros acc H; cbn [positionalsLoop].
  - by rewrite app_nil_r.
  - assert (hasPrefix arg "-" = false) as Hd by (apply H; by left).
    destruct (noDash_plain arg Hd) as [H1 H2].
    rewrite H1, H2, Hd. cbn [andb].
    rewrite IH by (intros a Ha; apply H; by right).
    by rewrite <- app_assoc.
Qed.

Lemma positionalsLoop_spec (args : list string) (expectValue : bool)
      (positionals : list string) :
  exists picked,
    positionalsLoop args expectValue positionals = positionals ++ picked /\
    sublist picked args /\
    (~ In "--" args ->
     forall p, In p picked -> hasPrefix p "-" = false \/ p = "-").
Proof.
  revert expectValue positionals.
  induction args as [|arg rest IH]; intros ev acc; cbn [positionalsLoop In].
  - exists []. rewrite app_nil_r. split; [done|]. split; [constructor|].
    by intros _ p [].
  - assert (forall ev' acc', exists picked,
               positionalsLoop rest ev' acc' = acc' ++ picked /\
               sublist picked (arg :: rest) /\
               (~ (arg = "--" \/ In "--" rest) ->
                forall p, In p picked -> hasPrefix p "-" = false \/ p = "-"))
      as Hskip.
    { intros ev' acc'. destruct (IH ev' acc') as (picked & H1 & H2 & H3).
      exists picked. split; [done|]. split; [by constructor|].
      intros Hno. apply H3. tauto. }
    destruct ev; [apply Hskip|].
    destruct (string_eqb arg "--") eqn:E1.
    { apply string_eqb_eq in E1 as ->. exists rest.
      split; [done|]. split; [by constructor|]. intros []. by left. }
    destruct (hasPrefix arg "--") eqn:E2.
    { repeat case_match; apply Hskip. }
    destruct (hasPrefix arg "-" && negb (string_eqb arg "-")) eqn:E3.
    { repeat case_match; apply Hskip. }
    destruct (IH false (acc ++ [arg])) as (picked & H1 & H2 & H3).
    exists (arg :: picked). rewrite H1, <- app_assoc.
    split; [done|]. split; [by constructor|].
    intros Hno p [<- | Hp]; [|apply H3; tauto].
    apply andb_false_iff in E3 as [E3 | E3]; [by left|].
    right. by apply negb_false_iff, string_eqb_eq in E3.
Qed.

(** X15. [extractPushPositionals] picks its result among the arguments,
    in their order.  Without a [--] among them it picks no option: what it
    returns does not start with a dash, the lone [-] apart.  Arguments
    that are no options are all returned, and after such arguments a [--]
    is dropped and what follows it is returned as it stands. *)
Theorem extractPushPositionals_picks (args : list string) :
  sublist (extractPushPositionals args) args /\
  (~ In "--" args ->
   forall p, In p (extractPushPositionals args) ->
             hasPrefix p "-" = false \/ p = "-") /\
  ((forall arg, In arg args -> hasPrefix arg "-" = false) ->
   extractPushPositionals args = args /\
   forall rest, extractPushPositionals (args ++ "--" :: rest) = args ++ rest).
Proof.
  unfold extractPushPositionals.
  destruct (positionalsLoop_spec args false []) as (picked & H1 & H2 & H3).
  rewrite H1. cbn [app]. split; [done|]. split; [done|].
  intros Hplain. split.
  - change picked with ([] ++ picked). rewrite <- H1.
    by rewrite positionalsLoop_plain.
  - intros rest.
    assert (forall acc, positionalsLoop (args ++ "--" :: rest) false acc
                        = acc ++ args ++ rest) as G; [|by rewrite G].
    clear H1 H2 H3.
    induction args as [|arg l IH]; intros acc; cbn [positionalsLoop app].
    { by rewrite string_eqb_refl. }
    assert (hasPrefix arg "-" = false) as Hd by (apply Hplain; by left).
    destruct (noDash_plain arg Hd) as [E1 E2].
    rewrite E1, E2, Hd. cbn [andb].
    rewrite IH by (intros a Ha; apply Hplain; by right).
    by rewrite <- app_assoc.
Qed.
End PushArguments.

(** ** The push intent *)

Lemma cutAt_first (c : ascii) (a b : string) :
  contains a (String c "") = false ->
  cutAt (a +:+ String c b) (String c "") = Some (a, b).
Proof.
  induction a as [|d a IH]; intros H.
  - change (cutAt (String c b) (String c "")
            = Some (EmptyString, b)).
    cbn [cutAt hasPrefix]. by rewrite bool_decide_eq_true_2.
  - change (cutAt (String d (a +:+ String c b)) (String c "")
            = Some (String d a, b)).
    cbn [contains hasPrefix] in H. apply orb_false_iff in H as [H1 H2].
    cbn [cutAt hasPrefix]. rewrite andb_true_r in *. rewrite H1.
    by rewrite (IH H2).
Qed.

Lemma cutAt_none (s sep : string) :
  contains s sep = false -> cutAt s sep = None.
Proof.
  induction s as [|d s IH]; intros H.
  - cbn [contains] in H. rewrite orb_false_r in H.
    cbn [cutAt]. by rewrite H.
  - cbn [contains] in H. apply orb_false_iff in H as [H1 H2].
    cbn [cutAt]. by rewrite H1, (IH H2).
Qed.

Lemma cutAt_some (s sep : string) :
  contains s sep = true -> exists a b, cutAt s sep = Some (a, b).
Proof.
  induction s as [|d s IH]; intros H.
  - cbn [contains] in H. rewrite orb_false_r in H.
    cbn [cutAt]. rewrite H. eauto.
  - cbn [contains] in H. cbn [cutAt].
    destruct (hasPrefix (String d s) sep); [eauto|].
    destruct (IH H) as (a & b & ->). eauto.
Qed.

Lemma string_app_nonempty (a b : string) : b <> "" -> a +:+ b <> "".
Proof. destruct a; [done|]. by intros _. Qed.

Section PushIntentFacts.
Import Vcs.

(** X16. [parseUpstream] reads the name that git prints for the upstream
    of a branch: [remote/branch], or [refs/remotes/remote/branch], gives
    the remote and the branch, split at the first slash, so that the
    branch may hold slashes and the remote may not; a name without a slash
    is a branch without remote, and a blank name gives neither. *)
Theorem parseUpstream_splits_at_first_slash (remote branch : string) :
  contains remote "/" = false ->
  let short := remote +:+ "/" +:+ branch in
  let full := "refs/remotes/" +:+ short in
  (TrimSpace short = short -> hasPrefix short "refs/remotes/" = false ->
   parseUpstream short = (remote, branch)) /\
  (TrimSpace full = full -> parseUpstream full = (remote, branch)) /\
  (TrimSpace remote = remote -> parseUpstream remote = ("", remote)) /\
  (forall blank, TrimSpace blank = "" -> parseUpstream blank = ("", "")).
Proof.
  intros Hno short full.
  assert (SplitN2 short "/" = [remote; branch]) as Hsplit.
  { unfold SplitN2, short.
    change ("/" +:+ branch) with (String "/" branch).
    by rewrite (cutAt_first "/" remote branch Hno). }
  split; [|split; [|split]].
  - intros Ht Hp. unfold parseUpstream. rewrite Ht, Hp, Hsplit.
    assert (string_eqb short "" = false) as ->; [|done].
    apply string_eqb_neq. by apply string_app_nonempty.
  - intros Ht. unfold parseUpstream. rewrite Ht.
    change (string_eqb full "") with false.
    change (hasPrefix full "refs/remotes/") with true. cbn iota.
    change (trimPrefix full "refs/remotes/") with short.
    by rewrite Hsplit.
  - intros Ht. unfold parseUpstream. rewrite Ht.
    destruct (string_eqb remote "") eqn:E.
    { by apply string_eqb_eq in E as ->. }
    assert (hasPrefix remote "refs/remotes/" = false) as ->.
    { destruct (hasPrefix remote "refs/remotes/") eqn:Hp; [|done].
      apply hasPrefix_split in Hp as (rest & -> & _).
      cbn in Hno. rewrite ?orb_true_r in Hno. done. }
    unfold SplitN2. by rewrite (cutAt_none _ _ Hno).
  - intros blank Hb. unfold parseUpstream. by rewrite Hb.
Qed.

Lemma normalizeTargetRef_shape (spec currentBranch : string) :
  let chosen :=
    if string_eqb (TrimSpace spec) "" || string_eqb (TrimSpace spec) "HEAD"
    then currentBranch else TrimSpace spec in
  let '(ref, branch) := normalizeTargetRef spec currentBranch in
  (chosen = "" /\ ref = "" /\ branch = "") \/
  (chosen <> "" /\ hasPrefix ref "refs/" = true /\
   (branch = "" \/ ref = "refs/heads/" +:+ branch)).
Proof.
  unfold normalizeTargetRef. cbv zeta.
  set (chosen := if string_eqb (TrimSpace spec) ""
                    || string_eqb (TrimSpace spec) "HEAD"
                 then currentBranch else TrimSpace spec).
  destruct (string_eqb chosen "") eqn:E0; cbv beta iota.
  { apply string_eqb_eq in E0. by left. }
  apply string_eqb_neq in E0.
  destruct (hasPrefix chosen "refs/heads/") eqn:E1; cbv beta iota.
  { right. split; [done|]. unfold trimPrefix. rewrite E1.
    apply hasPrefix_split in E1 as (rest & Hc & ->).
    split; [by rewrite Hc | by right]. }
  destruct (hasPrefix chosen "refs/") eqn:E2; cbv beta iota.
  { right. split; [done|]. by split; [|left]. }
  destruct (hasPrefix chosen "heads/") eqn:E3; cbv beta iota;
    right; (split; [done|]); (split; [done | by right]).
Qed.

(** X17. [normalizeTargetRef] resolves the target of a push to a full ref
    name.  The result is empty exactly when the spec is blank or [HEAD]
    and there is no current branch to stand for it; otherwise it is a name
    under [refs/], and it is [refs/heads/] followed by the branch returned
    whenever a branch is returned. *)
Theorem normalizeTargetRef_gives_full_ref (spec currentBranch : string) :
  let named := negb (string_eqb (TrimSpace spec) "")
               && negb (string_eqb (TrimSpace spec) "HEAD") in
  let ref := fst (normalizeTargetRef spec currentBranch) in
  let branch := snd (normalizeTargetRef spec currentBranch) in
  (ref = "" <-> named = false /\ currentBranch = "") /\
  (ref <> "" -> hasPrefix ref "refs/" = true) /\
  (branch <> "" -> ref = "refs/heads/" +:+ branch).
Proof.
  intros named ref branch.
  pose proof (normalizeTargetRef_shape spec currentBranch) as H.
  cbv zeta in H. fold ref branch in H.
  assert (normalizeTargetRef spec currentBranch = (ref, branch)) as Hn
    by apply surjective_pairing.
  rewrite Hn in H.
  assert ((if string_eqb (TrimSpace spec) "" || string_eqb (TrimSpace spec) "HEAD"
           then currentBranch else TrimSpace spec) = "" <->
          named = false /\ currentBranch = "") as Hchosen.
  { unfold named.
    destruct (string_eqb (TrimSpace spec) "") eqn:E1; simpl; [tauto|].
    destruct (string_eqb (TrimSpace spec) "HEAD"); simpl; [tauto|].
    apply string_eqb_neq in E1. split; [done | by intros [? _]]. }
  split; [|split].
  - rewrite <- Hchosen. destruct H as [(? & ? & ?) | (? & Hp & _)]; [done|].
    split; [|done]. intros Hr. by rewrite Hr in Hp.
  - destruct H as [(? & ? & ?) | (? & Hp & _)]; done.
  - destruct H as [(? & ? & ?) | (? & _ & [? | ?])]; done.
Qed.

(** *** A ref name is not blank *)

Lemma trimLeftFuel_tokens (fuel : nat) (tokens : list string) (s : string) :
  exists toks,
    List.Forall (fun t => In t tokens) toks /\
    s = fold_right String.append "" toks +:+ trimLeftFuel fuel tokens s.
Proof.
  revert s. induction fuel as [|fuel IH]; intros s; simpl.
  { by exists []. }
  destruct (leadingSpace tokens s) as [n|] eqn:E; [|by exists []].
  apply leadingSpace_Some in E as (t & Ht & Hp & ->).
  apply hasPrefix_split in Hp as (rest & -> & ->).
  destruct (IH rest) as (toks & Hall & Hrest).
  exists (t :: toks). split; [by constructor|].
  simpl. rewrite string_app_assoc. by rewrite <- Hrest.
Qed.

Lemma chars_app (a b : string) :
  list_ascii_of_string (a +:+ b)
  = list_ascii_of_string a ++ list_ascii_of_string b.
Proof. induction a as [|c a IH]; simpl; [done | by rewrite IH]. Qed.

Lemma chars_rev (s : string) :
  list_ascii_of_string (rev_string s) = rev (list_ascii_of_string s).
Proof. unfold rev_string. by rewrite list_ascii_of_string_of_list_ascii. Qed.

Lemma chars_tokens (c : ascii) (tokens toks : list string) :
  List.Forall (fun t => In t tokens) toks ->
  In c (list_ascii_of_string (fold_right String.append "" toks)) ->
  exists t, In t tokens /\ In c (list_ascii_of_string t).
Proof.
  induction 1 as [|t toks Ht _ IH]; simpl; [done|].
  rewrite chars_app, in_app_iff. intros [H | H]; [by exists t | by apply IH].
Qed.

(** A string that starts with a byte of no white-space token is not
    trimmed away. *)
Lemma TrimSpace_keeps (c : ascii) (rest : string) :
  (forall t, In t whiteSpace -> ~ In c (list_ascii_of_string t)) ->
  TrimSpace (String c rest) <> "".
Proof.
  intros Hc. unfold TrimSpace, trimLeft.
  assert (leadingSpace whiteSpace (String c rest) = None) as Hl.
  { apply leadingSpace_None. intros t Ht.
    destruct t as [|d t']; [by destruct (whiteSpace_nonempty "" Ht)|].
    cbn [hasPrefix]. destruct (bool_decide (d = c)) eqn:E; [|done].
    apply bool_decide_eq_true in E as ->.
    destruct (Hc _ Ht). by left. }
  rewrite (trimLeftFuel_none _ _ _ Hl). unfold trimRight.
  set (r := rev_string (String c rest)).
  destruct (trimLeftFuel_tokens (String.length r) (map rev_string whiteSpace) r)
    as (toks & Hall & Hr).
  intros Hy.
  assert (trimLeftFuel (String.length r) (map rev_string whiteSpace) r = "")
    as Hy'.
  { rewrite <- (rev_string_involutive (trimLeftFuel _ _ _)). by rewrite Hy. }
  rewrite Hy' in Hr.
  assert (In c (list_ascii_of_string r)) as Hin.
  { unfold r. rewrite chars_rev. apply in_rev. rewrite rev_involutive.
    by left. }
  rewrite Hr, chars_app, app_nil_r in Hin.
  destruct (chars_tokens c _ _ Hall Hin) as (t & Ht & Hct).
  apply in_map_iff in Ht as (t0 & <- & Ht0).
  rewrite chars_rev in Hct. apply in_rev in Hct. by apply (Hc t0).
Qed.

Lemma TrimSpace_ref (ref : string) :
  hasPrefix ref "refs/" = true -> TrimSpace ref <> "".
Proof.
  intros (rest & -> & _)%hasPrefix_split.
  change ("refs/" +:+ rest) with (String "r" ("efs/" +:+ rest)).
  apply TrimSpace_keeps.
  assert (forallb (fun t => negb (existsb (Ascii.eqb "r")
                                           (list_ascii_of_string t)))
                  whiteSpace = true) as H by reflexivity.
  rewrite forallb_forall in H. intros t Ht Hin.
  apply H in Ht. apply negb_true_iff in Ht.
  assert (existsb (Ascii.eqb "r") (list_ascii_of_string t) = true) as C;
    [|congruence].
  apply existsb_exists. exists "r"%char. split; [done | apply Ascii.eqb_refl].
Qed.

Lemma normalizeSourceRef_named (spec currentBranch : string) :
  currentBranch <> "" -> currentBranch <> "HEAD" ->
  normalizeSourceRef spec currentBranch <> ""
  /\ normalizeSourceRef spec currentBranch <> "HEAD".
Proof.
  intros H1 H2. unfold normalizeSourceRef.
  destruct (string_eqb (TrimSpace spec) "") eqn:E1; simpl; [done|].
  destruct (string_eqb (TrimSpace spec) "HEAD") eqn:E2; simpl; [done|].
  by apply string_eqb_neq in E1, E2.
Qed.

Section WithGit.
Context (git : nat -> list string -> errorT + string).

(** X18. [resolvePushIntent] does not run into the index panic of its
    refspec split.  When it succeeds, the intent names a remote, a source
    that is neither blank nor [HEAD], a target ref under [refs/] (which is
    [refs/heads/] and the target branch when there is one) and a new
    object id; the old object id is looked up only for a target branch.
    The queue entry that [cmdPush] builds from it for a proposal whose id
    is not blank is accepted by [normalizePendingPush], as pending, with
    the arguments of the command. *)
Theorem resolvePushIntent_result (gitArgs : list string) :
  resolvePushIntent git gitArgs <> inl PanicIndex /\
  forall intent,
    resolvePushIntent git gitArgs = inr intent ->
    PushIntent.Remote intent <> "" /\
    PushIntent.SourceRef intent <> "" /\
    PushIntent.SourceRef intent <> "HEAD" /\
    hasPrefix (PushIntent.TargetRef intent) "refs/" = true /\
    (PushIntent.TargetBranch intent = ""
     \/ PushIntent.TargetRef intent
        = "refs/heads/" +:+ PushIntent.TargetBranch intent) /\
    PushIntent.NewOID intent <> "" /\
    (PushIntent.TargetBranch intent = "" -> PushIntent.OldOID intent = "") /\
    forall proposalID now1 now2,
      TrimSpace proposalID <> "" ->
      exists norm,
        normalizePendingPush (pendingOf proposalID intent gitArgs)
                             true now1 now2 = Ok norm /\
        Status norm = PendingPushStatusPending /\
        GitArgs norm = gitArgs /\
        CreatedAt norm = now1.
Proof.
  unfold resolvePushIntent.
  set (currentBranch := TrimSpace (tryGitOutput git 0 _)).
  destruct (string_eqb currentBranch "" || string_eqb currentBranch "HEAD")
    eqn:Hcb; [by split|].
  apply orb_false_iff in Hcb as [Hcb1 Hcb2].
  apply string_eqb_neq in Hcb1, Hcb2.
  destruct (parseUpstream _) as [upstreamRemote upstreamBranch].
  set (positionals := extractPushPositionals gitArgs).
  set (remote := match positionals with
                 | p0 :: _ => TrimSpace p0
                 | [] => if string_eqb upstreamRemote "" then "origin"
                         else upstreamRemote
                 end).
  destruct (string_eqb remote "") eqn:Hremote; [by split|].
  apply string_eqb_neq in Hremote.
  set (refspec := match positionals with
                  | _ :: p1 :: _ => TrimSpace p1
                  | _ => ""
                  end).
  set (specs := if negb (string_eqb refspec "") then _ else _).
  assert (exists sourceSpec targetSpec, specs = Some (sourceSpec, targetSpec))
    as (sourceSpec & targetSpec & ->).
  { unfold specs. destruct (negb (string_eqb refspec "")).
    - destruct (contains refspec ":") eqn:Hc; [|eauto].
      unfold SplitN2. destruct (cutAt_some _ _ Hc) as (a & b & ->). eauto.
    - destruct (negb (string_eqb upstreamBranch "")); eauto. }
  pose proof (normalizeTargetRef_shape targetSpec currentBranch) as Hshape.
  cbv zeta in Hshape.
  destruct (normalizeTargetRef targetSpec currentBranch)
    as [targetRef targetBranch].
  destruct (string_eqb targetRef "") eqn:Htarget; [by split|].
  apply string_eqb_neq in Htarget.
  destruct Hshape as [(_ & ? & _) | (_ & Hprefix & Hbranch)]; [done|].
  set (sourceRef := normalizeSourceRef sourceSpec currentBranch).
  destruct (normalizeSourceRef_named sourceSpec currentBranch Hcb1 Hcb2)
    as [Hs1 Hs2]. fold sourceRef in Hs1, Hs2.
  set (newOID := TrimSpace (tryGitOutput git 2 _)).
  destruct (string_eqb newOID "") eqn:Hoid; [by split|].
  apply string_eqb_neq in Hoid.
  split; [done|]. intros intent [= <-]. simpl.
  repeat (split; [done|]).
  split.
  { intros ->. done. }
  intros proposalID now1 now2 Hpid.
  unfold normalizePendingPush, pendingOf. simpl.
  apply string_eqb_neq in Hpid. rewrite Hpid.
  pose proof (TrimSpace_ref targetRef Hprefix) as Hnb.
  apply string_eqb_neq in Hnb. rewrite Hnb. simpl.
  eexists. split; [done|]. done.
Qed.
End WithGit.
End PushIntentFacts.

(** ** The pending-push processor: what it asks of the store and of git *)

Section ProcessorTrace.
Import Vcs.
Context {E : Env}.

Lemma count_app {A : Type} (f : A -> bool) (l1 l2 : list A) :
  count f (l1 ++ l2) = (count f l1 + count f l2)%Z.
Proof. unfold count. rewrite List.filter_app, length_app. lia. Qed.

(** What one turn of the loop adds to the calls. *)
Lemma processPush_trace only pushes push st :
  In push pushes ->
  let st' := processPush only push st in
  exists new,
    calls st' = calls st ++ new /\
    Executed (result_ st')
    = (Executed (result_ st) + count (isMark MarkCompleted) new)%Z /\
    Pending (result_ st')
    = (Pending (result_ st) + count (isMark MarkPending) new)%Z /\
    Failed (result_ st')
    = (Failed (result_ st) + count (isMark MarkFailed) new)%Z /\
    count isRecordGitEvent new = count (isMark MarkCompleted) new /\
    (count (isMark MarkCompleted) new <= count isRunGit new
     <= count (isMark MarkCompleted) new + count (isMark MarkFailed) new)%Z /\
    List.Forall (expected pushes) new.
Proof.
  intros Hin. unfold processPush, runPush, failPush.
  repeat case_match; simpl; rewrite <- ?app_assoc; simpl;
    (eexists; split; [try reflexivity; symmetry; apply app_nil_r|]);
    unfold count; simpl;
    repeat (split; [lia|]);
    repeat constructor; unfold expected; eauto.
Qed.

Lemma processLoop_trace only pushes l st :
  (forall push, In push l -> In push pushes) ->
  let st' := processLoop only l st in
  exists new,
    calls st' = calls st ++ new /\
    Executed (result_ st')
    = (Executed (result_ st) + count (isMark MarkCompleted) new)%Z /\
    Pending (result_ st')
    = (Pending (result_ st) + count (isMark MarkPending) new)%Z /\
    Failed (result_ st')
    = (Failed (result_ st) + count (isMark MarkFailed) new)%Z /\
    count isRecordGitEvent new = count (isMark MarkCompleted) new /\
    (count (isMark MarkCompleted) new <= count isRunGit new
     <= count (isMark MarkCompleted) new + count (isMark MarkFailed) new)%Z /\
    List.Forall (expected pushes) new.
Proof.
  revert st. induction l as [|push rest IH]; intros st Hsub; simpl.
  - exists []. rewrite app_nil_r. unfold count. simpl.
    repeat (split; [done || lia|]). constructor.
  - destruct (processPush_trace only pushes push st (Hsub push (or_introl eq_refl)))
      as (n1 & C1 & E1 & P1 & F1 & R1 & G1 & A1).
    destruct (IH (processPush only push st)
                 (fun p Hp => Hsub p (or_intror Hp)))
      as (n2 & C2 & E2 & P2 & F2 & R2 & G2 & A2).
    exists (n1 ++ n2). rewrite C2, C1, E2, E1, P2, P1, F2, F1, !count_app.
    rewrite <- app_assoc.
    repeat (split; [done || lia|]). by apply Forall_app.
Qed.

(** X19. [processPendingPushes] only adds to what was done before, and
    each outcome it counts it has recorded: the pushes counted executed,
    pending and failed are as many as the entries it marked completed,
    pending and failed, and a git-push event is recorded for each executed
    push.  The backend is run for every executed push and otherwise only
    for pushes counted failed, always as [push] followed by the stored
    arguments of an entry of the queue, and certification is never
    forced.  When the queue cannot be read nothing is done. *)
Theorem processPendingPushes_records_outcomes (only : string) (h : list Call) :
  let '(r, err, h') := processPendingPushes only h in
  match store_ListPendingPushes h with
  | inl listErr => r = zeroResult /\ err = Some listErr /\ h' = h
  | inr pushes =>
      exists new,
        h' = h ++ new /\
        Executed r = count (isMark MarkCompleted) new /\
        Pending r = count (isMark MarkPending) new /\
        Failed r = count (isMark MarkFailed) new /\
        Executed r = count isRecordGitEvent new /\
        (Executed r <= count isRunGit new <= Executed r + Failed r)%Z /\
        List.Forall (expected pushes) new
  end.
Proof.
  unfold processPendingPushes.
  destruct (store_ListPendingPushes h) as [listErr|pushes]; [done|].
  destruct (processLoop_trace only pushes pushes
              {| result_ := zeroResult; firstErr := None; calls := h |}
              (fun p Hp => Hp))
    as (new & C & E1 & P1 & F1 & R1 & G1 & A1).
  simpl in *. exists new. rewrite E1, P1, F1.
  repeat (split; [done || lia|]). done.
Qed.
End ProcessorTrace.

(** ** Comma-separated lists *)

Section CSV.
Import Vcs.

Lemma parseCSVLoop_spec (parts : list string) (seen : gset string)
      (out : list string) :
  List.NoDup out ->
  (forall x, x ∈ seen <-> In x out) ->
  let result := parseCSVLoop parts seen out in
  List.NoDup result /\
  (exists picked, result = out ++ picked) /\
  forall x, In x result <->
            In x out \/ (x <> "" /\ exists part, In part parts /\ TrimSpace part = x).
Proof.
  revert seen out. induction parts as [|part rest IH]; intros seen out Hnd Hseen;
    cbn [parseCSVLoop].
  - split; [done|]. split; [exists []; by rewrite app_nil_r|].
    intros x. split; [by left|]. intros [H | (_ & p & [] & _)]. done.
  - cbv zeta. destruct (string_eqb (TrimSpace part) "") eqn:E1.
    { destruct (IH seen out Hnd Hseen) as (H1 & H2 & H3).
      split; [done|]. split; [done|]. intros x. rewrite H3.
      apply string_eqb_eq in E1.
      split; intros [H | (Hx & p & Hp & Ht)]; auto.
      - right. split; [done|]. exists p. by split; [right|].
      - destruct Hp as [<- | Hp]; [congruence|].
        right. split; [done|]. by exists p. }
    apply string_eqb_neq in E1.
    case_decide as Hin.
    { destruct (IH seen out Hnd Hseen) as (H1 & H2 & H3).
      split; [done|]. split; [done|]. intros x. rewrite H3.
      split; intros [H | (Hx & p & Hp & Ht)]; auto.
      - right. split; [done|]. exists p. by split; [right|].
      - destruct Hp as [<- | Hp].
        + left. apply Hseen. by rewrite <- Ht.
        + right. split; [done|]. by exists p. }
    destruct (IH ({[TrimSpace part]} ∪ seen) (out ++ [TrimSpace part]))
      as (H1 & (picked & H2) & H3).
    { apply NoDup_ListNoDup, NoDup_app.
      split; [by apply NoDup_ListNoDup|]. split; [|apply NoDup_singleton].
      intros x Hx ->%list_elem_of_singleton.
      apply Hin, Hseen. by apply list_elem_of_In. }
    { intros x. rewrite elem_of_union, elem_of_singleton, Hseen, in_app_iff.
      simpl. intuition (subst; auto). }
    split; [done|].
    split; [exists (TrimSpace part :: picked); by rewrite H2, <- app_assoc|].
    intros x. rewrite H3, in_app_iff. simpl.
    split.
    + intros [[H | [<- | []]] | (Hx & p & Hp & Ht)]; auto.
      * right. split; [done|]. exists part. by split; [left|].
      * right. split; [done|]. exists p. by split; [right|].
    + intros [H | (Hx & p & [<- | Hp] & Ht)]; auto.
      right. split; [done|]. by exists p.
Qed.

(** X20. [parseCSV] returns the trimmed, non-blank parts of its argument
    between commas, each once: an entry is in the result exactly when it is
    not blank and is the trimmed form of a part, and no entry occurs
    twice. *)
Theorem parseCSV_trims_and_dedups (raw : string) :
  List.NoDup (parseCSV raw) /\
  (forall x, In x (parseCSV raw) <->
             x <> "" /\ exists part, In part (Split raw ",") /\ TrimSpace part = x) /\
  (forall x, In x (parseCSV raw) -> TrimSpace x = x).
Proof.
  unfold parseCSV.
  destruct (parseCSVLoop_spec (Split raw ",") ∅ []) as (H1 & _ & H3);
    [constructor | set_solver |].
  split; [done|].
  assert (forall x, In x (parseCSVLoop (Split raw ",") ∅ []) <->
                    x <> "" /\ exists part, In part (Split raw ",")
                                            /\ TrimSpace part = x) as H.
  { intros x. rewrite H3. simpl. tauto. }
  split; [done|].
  intros x (_ & part & _ & <-)%H. apply TrimSpace_idempotent.
Qed.
End CSV.

(** ** Opening a store *)

Section Open.
Context {L : GoLib}.
Context (decode : string -> option Operation).

Lemma loadPeers_sorted (file : option (list string)) (ps : list string) :
  loadPeers file = Ok ps -> strictlySorted ps.
Proof.
  destruct file as [entries|]; simpl; [|intros [= <-]; constructor].
  pose proof (loadPeersLoop_spec entries ∅ []) as H.
  destruct (loadPeersLoop entries ∅ []) as [l|e]; [|done].
  intros [= <-]. destruct H as [Hnd _]; [constructor | set_solver |].
  apply sorted_NoDup_strict; [apply sortStable_strings_sorted|].
  eapply Permutation_NoDup; [|exact Hnd]. symmetry. apply sortStable_perm.
Qed.

Lemma loadOpsLoop_reachable (lines : list string) (line : Z) (s s' : Store)
      (e : option loadError) :
  reachable s ->
  loadOpsLoop decode lines line s = (e, s') ->
  reachable s' /\ identity s' = identity s /\ privateKey s' = privateKey s /\
  peers s' = peers s /\
  (forall op, In op (ops s') ->
              In op (ops s)
              \/ exists text, In text lines /\ notBlank text = true
                              /\ decode (TrimSpace text) = Some op).
Proof.
  revert line s. induction lines as [|text rest IH]; intros line s Hr.
  - intros [= <- <-]. repeat split; auto.
  - rewrite loadOpsLoop_cons.
    destruct (negb (fitsBuffer text)).
    { intros [= <- <-]. repeat split; auto. }
    destruct (string_eqb (TrimSpace text) "") eqn:Hb.
    { intros H. destruct (IH _ _ Hr H) as (H1 & H2 & H3 & H4 & H5).
      repeat split; try done. intros op Hop.
      destruct (H5 op Hop) as [? | (t & ? & ? & ?)]; [by left|].
      right. exists t. by split; [right|]. }
    destruct (decode (TrimSpace text)) as [op|] eqn:Hd.
    2:{ intros [= <- <-]. repeat split; auto. }
    destruct (addOperationLocked s op false false) as [[added err] s1] eqn:Ha.
    assert (reachable s1) as Hr1.
    { eapply reach_remote; [exact Hr|]. rewrite <- (replay_step s op false). exact Ha. }
    assert (identity s1 = identity s /\ privateKey s1 = privateKey s /\
            peers s1 = peers s /\
            forall o, In o (ops s1) -> In o (ops s) \/ o = op)
      as (I1 & I2 & I3 & I4).
    { destruct (addOperationLocked_step _ _ _ _ _ _ _ Ha) as [-> | [-> _]].
      - repeat split; auto.
      - repeat split; try done. simpl. intros o [Ho | [<- | []]]%in_app_or; auto. }
    assert (forall o, In o (ops s1) ->
                      In o (ops s)
                      \/ exists t, In t (text :: rest) /\ notBlank t = true
                                   /\ decode (TrimSpace t) = Some o) as I5.
    { intros o [Ho | ->]%I4; [by left|]. right. exists text.
      split; [by left|]. split; [|done]. unfold notBlank. by rewrite Hb. }
    destruct err as [err|].
    + intros [= <- <-]. by repeat split.
    + intros H. destruct (IH _ _ Hr1 H) as (H1 & H2 & H3 & H4 & H5).
      repeat split; try congruence. intros o Ho.
      destruct (H5 o Ho) as [Ho' | (t & ? & ? & ?)]; [by apply I5|].
      right. exists t. by split; [right|].
Qed.

(** X21. A store that [OpenStore] returns is a reachable store, so that
    what holds of reachable stores holds of every store read from disk.
    It has the identity and key that were loaded, the registry that
    [loadPeers] built, in ascending order, and a log whose operations each
    verify and each come from a line of [ops.log]. *)
Theorem OpenStore_reachable
  (id : Identity) (priv : bytes) (peersFile log : option (list string))
  (s : Store) :
  OpenStore decode id priv peersFile log = inr s ->
  reachable s /\
  identity s = id /\ privateKey s = priv /\
  loadPeers peersFile = Ok (peers s) /\ strictlySorted (peers s) /\
  forall op, In op (ops s) ->
    verifyOperation op = None /\
    exists lines text,
      log = Some lines /\ In text lines /\ decode (TrimSpace text) = Some op.
Proof.
  unfold OpenStore.
  destruct (loadPeers peersFile) as [ps|e] eqn:Hp; [|done].
  destruct (loadOps decode log (newStore id priv ps)) as [[e|] s1] eqn:Hl;
    [done|]. intros [= <-].
  pose proof (loadPeers_sorted _ _ Hp) as Hs.
  destruct log as [lines|]; simpl in Hl.
  - destruct (loadOpsLoop_reachable lines 0 _ _ _ (reach_new id priv ps) Hl)
      as (H1 & H2 & H3 & H4 & H5).
    simpl in *. rewrite H4. repeat split; try done.
    + by apply (wf_verified _ (reachable_wf _ H1)).
    + destruct (H5 op H) as [[] | (t & ? & ? & ?)]. by exists lines, t.
  - injection Hl as <-. simpl.
    repeat split; try done; apply reach_new.
Qed.
End Open.

(** ** The log: next sequence number, exact index, catching up *)

Section LogFacts.
Context {L : GoLib}.

(** X22. A successful [AppendLocalOp] returns the operation it appended
    at the end of the log: authored by the local node under its public
    key, with the trimmed type, the clock reading as timestamp, the given
    payload ([{}] for an empty one) and the sequence number that follows
    the largest one of the node, which becomes the node's entry of the
    summary.  After [2^64 - 1] there is no next number: every further call
    fails and leaves the store as it is. *)
Theorem AppendLocalOp_appends_next
  (s : Store) (now : string) (appendOK : bool) (opType : string)
  (payload : bytes) :
  let self := NodeID (identity s) in
  let last := seqOf (seqByAuthor s) self in
  (forall op s',
      AppendLocalOp s now appendOK opType payload = (Ok op, s') ->
      appendOK = true /\
      ops s' = ops s ++ [op] /\
      Author op = self /\
      PublicKey op = IdPublicKey (identity s) /\
      Type_ op = TrimSpace opType /\
      Timestamp op = now /\
      Payload op = (if Nat.eqb (length payload) 0 then emptyObject else payload) /\
      Seq op = wrapUint64 (last + 1) /\
      (last < 2 ^ 64 -> Seq op = last + 1 /\ Summary s' !! self = Some (last + 1))) /\
  (last = 2 ^ 64 - 1 ->
   exists e, AppendLocalOp s now appendOK opType payload = (Err e, s)).
Proof.
  intros self last. unfold AppendLocalOp. fold self. fold last.
  destruct (string_eqb (TrimSpace opType) "").
  { split; [done|]. eauto. }
  set (payload' := if Nat.eqb (length payload) 0 then emptyObject else payload).
  destruct (negb (json_Valid payload')).
  { split; [done|]. eauto. }
  set (op0 := {| ID := ""; Type_ := TrimSpace opType; Author := self;
                 Seq := wrapUint64 (last + 1); Timestamp := now;
                 Payload := cloneRawJSON payload';
                 PublicKey := IdPublicKey (identity s); Signature := "" |}).
  destruct (signOperation op0 (privateKey s)) as [[signature opID]|e].
  2:{ split; [done|]. eauto. }
  set (op := setID (setSignature op0 signature) opID).
  pose proof (addOperationLocked_outcome s op true appendOK) as O.
  destruct (addOperationLocked s op true appendOK) as [[added err] s1] eqn:Ha.
  split.
  - intros op' s' H.
    inversion O as [e Hv | Hv Hid | x Hv Hid Hx Hne | Hv Hid Hx]; subst;
      try done.
    destruct appendOK; simpl in *;
      match goal with E : (_, _, _) = (_, _, _) |- _ => injection E as <- <- <- end;
      [|done].
    injection H as <- <-.
    split; [done|]. split; [done|]. simpl.
    rewrite cloneRawJSON_id. repeat (split; [done|]).
    intros Hlast.
    assert (wrapUint64 (last + 1) = last + 1) as Hw.
    { pose proof (verified_seq_pos op Hv) as Hpos. simpl in Hpos.
      unfold wrapUint64 in *.
      destruct (decide (last + 1 = 2 ^ 64)) as [E | E].
      - rewrite E, N.Div0.mod_same in Hpos. done.
      - apply N.mod_small. lia. }
    split; [done|]. unfold Summary. simpl. fold self. fold last.
    rewrite Hw.
    assert ((last <? last + 1) = true) as -> by (apply N.ltb_lt; lia).
    apply lookup_insert_eq.
  - intros Hlast.
    assert (verifyOperation op <> None) as Hv.
    { intros Hv%verified_seq_pos. simpl in Hv. apply Hv.
      unfold wrapUint64. rewrite Hlast.
      replace (2 ^ 64 - 1 + 1) with (2 ^ 64) by lia.
      apply N.Div0.mod_same. }
    inversion O as [e Hv' | Hv' Hid | x Hv' Hid Hx Hne | Hv' Hid Hx]; subst;
      try done.
    eauto.
Qed.

Lemma indexed_newStore id priv ps : indexed (newStore id priv ps).
Proof.
  constructor; simpl.
  - constructor.
  - intros op [].
  - intros key i H. by rewrite lookup_empty in H.
Qed.

Lemma indexed_appended s op :
  wf s -> indexed s ->
  ID op ∉ opIDs s ->
  (forall existingID,
      authorSeqIndex s !! authorSeqKey (Author op) (Seq op) = Some existingID ->
      existingID = ID op) ->
  indexed (appended s op).
Proof.
  intros W [I1 I2 I3] Hid Hx.
  assert (forall o, In o (ops s) ->
                    authorSeqKey (Author o) (Seq o)
                    <> authorSeqKey (Author op) (Seq op)) as Hkeys.
  { intros o Ho E. pose proof (I2 o Ho) as Hk. rewrite E in Hk.
    apply Hx in Hk. apply Hid. rewrite <- Hk. by apply (wf_ids s W). }
  constructor; simpl.
  - rewrite map_app. simpl.
    apply NoDup_ListNoDup, NoDup_app.
    split; [by apply NoDup_ListNoDup|]. split; [|apply NoDup_singleton].
    intros i Hi ->%list_elem_of_singleton. apply Hid.
    apply list_elem_of_In, in_map_iff in Hi as (o & <- & Ho).
    by apply (wf_ids s W).
  - intros o [Ho | [<- | []]]%in_app_or.
    + rewrite lookup_insert_ne by (apply not_eq_sym; by apply Hkeys).
      by apply I2.
    + apply lookup_insert_eq.
  - intros key i Hk.
    destruct (decide (authorSeqKey (Author op) (Seq op) = key)) as [<- | Hne].
    + rewrite lookup_insert_eq in Hk. injection Hk as <-.
      exists op. split; [apply in_or_app; right; by left | done].
    + rewrite lookup_insert_ne in Hk by done.
      destruct (I3 key i Hk) as (o & Ho & H1 & H2).
      exists o. split; [apply in_or_app; by left | done].
Qed.

Lemma indexed_setPeers s ps : indexed s -> indexed (setPeers s ps).
Proof. intros []. by constructor. Qed.

Lemma indexed_add s op persist appendOK r s' :
  wf s -> indexed s ->
  addOperationLocked s op persist appendOK = (r, s') -> indexed s'.
Proof.
  intros W I H.
  pose proof (addOperationLocked_outcome s op persist appendOK) as O.
  rewrite H in O. inversion O; subst; try done.
  destruct (persist && negb appendOK);
    match goal with E : _ = (_, s') |- _ => injection E as _ <- end;
    by apply indexed_appended.
Qed.

Lemma reachable_indexed s : reachable s -> indexed s.
Proof.
  induction 1 as [id priv ps | s now ok ty payload r s' Hs IH H
                  | s ok op r s' Hs IH H | s ok raw r s' _ IH H
                  | s ok raw r s' _ IH H].
  - apply indexed_newStore.
  - apply AppendLocalOp_step in H as [-> | (op & added & err & H)]; [done|].
    eapply indexed_add; [by apply reachable_wf | exact IH | exact H].
  - eapply indexed_add; [by apply reachable_wf | exact IH | exact H].
  - unfold AddPeer in H. repeat case_match; injection H as _ <-; try done;
      by apply indexed_setPeers.
  - unfold RemovePeer in H. repeat case_match; injection H as _ <-; try done;
      by apply indexed_setPeers.
Qed.

Lemma NoDup_map_eq {A B : Type} (f : A -> B) (l : list A) (a b : A) :
  List.NoDup (map f l) -> In a l -> In b l -> f a = f b -> a = b.
Proof.
  induction l as [|o l IH]; [done|]. simpl.
  intros [Hno Hnd]%List.NoDup_cons_iff [<- | Ha] [<- | Hb] E; try done.
  - destruct Hno. rewrite E. by apply in_map.
  - destruct Hno. rewrite <- E. by apply in_map.
  - by apply IH.
Qed.

(** X23. No equivocation is stored.  In a reachable store no two logged
    operations have the same id, no two have the same author and sequence
    number, and the (author, seq) index holds, under the key of each
    logged operation, the id of that operation. *)
Theorem log_keys_are_unique (s : Store) :
  reachable s ->
  List.NoDup (map ID (ops s)) /\
  (forall a b, In a (ops s) -> In b (ops s) ->
               Author a = Author b -> Seq a = Seq b -> a = b) /\
  (forall op, In op (ops s) ->
     authorSeqIndex s !! authorSeqKey (Author op) (Seq op) = Some (ID op)).
Proof.
  intros [I1 I2 I3]%reachable_indexed.
  split; [done|]. split; [|done].
  intros a b Ha Hb EA ES.
  apply (NoDup_map_eq ID (ops s)); try done.
  pose proof (I2 a Ha) as Ka. pose proof (I2 b Hb) as Kb.
  rewrite EA, ES in Ka. congruence.
Qed.
End LogFacts.

(** *** One round of anti-entropy *)

Lemma fmtN_inj (n m : N) : fmtN n = fmtN m -> n = m.
Proof.
  unfold fmtN. intros H.
  assert (forall k, N.to_uint k <> Decimal.Nil) as Hnn.
  { intros [|p]; [done | apply DecimalPos.Unsigned.to_uint_nonnil]. }
  apply DecimalN.Unsigned.to_uint_inj.
  pose proof (NilZero.usu _ (Hnn n)) as Hn.
  pose proof (NilZero.usu _ (Hnn m)) as Hm.
  rewrite H in Hn. congruence.
Qed.

Lemma hexDigit_no_colon (n : N) : n < 16 -> hexDigit n <> ":"%char.
Proof.
  intros H.
  assert (forallb (fun k => negb (Ascii.eqb (hexDigit (N.of_nat k)) ":"))
                  (seq 0 16) = true) as Hall by reflexivity.
  rewrite forallb_forall in Hall.
  specialize (Hall (N.to_nat n)). rewrite N2Nat.id in Hall.
  intros E. rewrite E in Hall. discriminate Hall.
  apply in_seq. lia.
Qed.

Lemma hexEncode_no_colon (l : bytes) : contains (hexEncode l) ":" = false.
Proof.
  induction l as [|b l IH]; [done|].
  change (hexEncode (b :: l))
    with (String (hexDigit (Byte.to_N b / 16))
            (String (hexDigit (Byte.to_N b mod 16)) (hexEncode l))).
  pose proof (Byte.to_N_bounded b) as Hb.
  assert (Byte.to_N b / 16 < 16) as H1
      by (apply N.Div0.div_lt_upper_bound; lia).
  assert (Byte.to_N b mod 16 < 16) as H2 by (apply N.mod_lt; lia).
  apply hexDigit_no_colon in H1, H2.
  cbn [contains hasPrefix]. rewrite IH, !andb_true_r, !orb_false_r.
  apply orb_false_iff. split; apply bool_decide_eq_false; congruence.
Qed.

Section Round.
Context {L : GoLib}.

(** The (author, seq) key tells the author and the sequence number of a
    verified operation. *)
Lemma authorSeqKey_inj (a b : Operation) :
  verifyOperation a = None -> verifyOperation b = None ->
  authorSeqKey (Author a) (Seq a) = authorSeqKey (Author b) (Seq b) ->
  Author a = Author b /\ Seq a = Seq b.
Proof.
  intros (pa & sa & ca & Va)%verifyOperation_ok
         (pb & sb & cb & Vb)%verifyOperation_ok.
  unfold authorSeqKey. rewrite (v_node _ _ _ _ Va), (v_node _ _ _ _ Vb).
  unfold nodeIDFromPublicKey. intros E.
  apply (f_equal (fun k => cutAt k ":")) in E.
  change (":" +:+ fmtN (Seq a)) with (String ":" (fmtN (Seq a))) in E.
  change (":" +:+ fmtN (Seq b)) with (String ":" (fmtN (Seq b))) in E.
  rewrite !cutAt_first in E by apply hexEncode_no_colon.
  injection E as E1 E2. split; [done | by apply fmtN_inj].
Qed.

Lemma MissingFor_unlimited (s : Store) (summary : gmap string N) (limit : Z)
      (op : Operation) :
  (limit <= 0)%Z ->
  In op (MissingFor s (Some summary) limit)
  <-> In op (ops s) /\ seqOf summary (Author op) < Seq op.
Proof.
  intros Hlim. unfold MissingFor. simpl.
  rewrite missingLoop_spec by (by left). simpl. unfold truncate.
  rewrite (proj2 (Z.ltb_ge 0 limit) Hlim), filter_In.
  unfold newer. rewrite N.ltb_lt.
  split; intros [Hin Hlt]; (split; [|done]).
  - eapply Permutation_in; [apply sortStable_perm | done].
  - eapply Permutation_in; [symmetry; apply sortStable_perm | done].
Qed.

(** What the receiver holds while it takes in operations of [A]: it is
    reachable, and an id that it shares with [A] stands for the same
    author and sequence number. *)
Lemma receive_step (A s : Store) (appendOK : bool) (op : Operation) :
  reachable A -> reachable s ->
  (forall a b, In a (ops A) -> In b (ops s) -> ID a = ID b ->
               Author a = Author b /\ Seq a = Seq b) ->
  In op (ops A) ->
  let s' := snd (AddRemoteOp s appendOK op) in
  reachable s' /\
  (forall a b, In a (ops A) -> In b (ops s') -> ID a = ID b ->
               Author a = Author b /\ Seq a = Seq b) /\
  (forall o, In o (ops s) -> In o (ops s')) /\
  exists op', In op' (ops s') /\ Author op' = Author op /\ Seq op' = Seq op.
Proof.
  intros HA Hs Hids Hop s'.
  pose proof (reachable_wf A HA) as WA.
  pose proof (reachable_wf s Hs) as W.
  pose proof (reachable_indexed s Hs) as I.
  pose proof (wf_verified A WA op Hop) as Hv.
  assert (reachable s') as Hs'.
  { eapply reach_remote; [exact Hs|]. apply surjective_pairing. }
  split; [done|].
  pose proof (addOperationLocked_outcome s op true appendOK) as O.
  unfold s', AddRemoteOp in *.
  destruct (addOperationLocked s op true appendOK) as [[added err] s1] eqn:Ha.
  simpl.
  inversion O as [e Hv' Hr | Hv' Hid Hr | x Hv' Hid Hx Hne Hr | Hv' Hid Hx Hr];
    try congruence.
  - subst added err s1. split; [done|]. split; [done|].
    destruct (wf_ids_back s W _ Hid) as (b & Hb & Eb).
    exists b. split; [done|].
    destruct (Hids op b Hop Hb (eq_sym Eb)) as [-> ->]. done.
  - subst added err s1. split; [done|]. split; [done|].
    destruct (ix_back s I _ _ Hx) as (b & Hb & Kb & _).
    exists b. split; [done|].
    apply authorSeqKey_inj; [by apply W | done | done].
  - assert (s1 = appended s op) as ->.
    { destruct appendOK; simpl in Hr; by injection Hr as _ _ <-. }
    simpl. split; [|split].
    + intros a b Ha' [Hb | [<- | []]]%in_app_or E; [by apply Hids|].
      by rewrite (NoDup_map_eq ID (ops A) a op
                    (ix_ids A (reachable_indexed A HA)) Ha' Hop E).
    + intros o Ho. apply in_or_app. by left.
    + exists op. split; [apply in_or_app; right; by left | done].
Qed.

Lemma receive_all (A s : Store) (appendOK : bool) (delta : list Operation) :
  reachable A -> reachable s ->
  (forall a b, In a (ops A) -> In b (ops s) -> ID a = ID b ->
               Author a = Author b /\ Seq a = Seq b) ->
  (forall op, In op delta -> In op (ops A)) ->
  let s' := receive s appendOK delta in
  reachable s' /\
  (forall o, In o (ops s) -> In o (ops s')) /\
  forall op, In op delta ->
    exists op', In op' (ops s') /\ Author op' = Author op /\ Seq op' = Seq op.
Proof.
  intros HA. revert s.
  induction delta as [|op rest IH]; intros s Hs Hids Hsub; simpl.
  - by split; [|split].
  - destruct (receive_step A s appendOK op HA Hs Hids (Hsub op (or_introl eq_refl)))
      as (H1 & H2 & H3 & (o1 & Ho1 & Ea & Es)).
    destruct (IH _ H1 H2 (fun o Ho => Hsub o (or_intror Ho)))
      as (G1 & G2 & G3).
    split; [done|]. split; [by intros o Ho; apply G2, H3|].
    intros o [<- | Ho]; [|by apply G3].
    exists o1. split; [by apply G2 | done].
Qed.

Lemma seqOf_bound (s : Store) (op : Operation) :
  wf s -> In op (ops s) -> Seq op <= seqOf (seqByAuthor s) (Author op).
Proof.
  intros W Hin. destruct (wf_bound s W op Hin) as (n & Hn & Hle).
  unfold seqOf. by rewrite Hn.
Qed.

(** X24. One round of anti-entropy brings the receiver up to the
    sender.  When [B] is offered everything that [A] reports as missing
    from the summary of [B], without limit, then [B] keeps what it had,
    its new summary is nowhere below the summary of [A], and [A] has
    nothing left to report for it.  The only assumption is that an id
    shared by an operation of [A] and an operation of [B] stands for one
    author and sequence number, as it does short of a hash collision. *)
Theorem gossip_round_catches_up
  (A B : Store) (appendOK : bool) (limit : Z) :
  reachable A -> reachable B ->
  (forall a b, In a (ops A) -> In b (ops B) -> ID a = ID b ->
               Author a = Author b /\ Seq a = Seq b) ->
  (limit <= 0)%Z ->
  let B' := receive B appendOK (MissingFor A (Some (Summary B)) limit) in
  reachable B' /\
  (forall op, In op (ops B) -> In op (ops B')) /\
  (forall author,
      seqOf (Summary A) author <= seqOf (Summary B') author) /\
  (forall limit', MissingFor A (Some (Summary B')) limit' = []).
Proof.
  intros HA HB Hids Hlim B'.
  pose proof (reachable_wf A HA) as WA.
  pose proof (reachable_wf B HB) as WB.
  destruct (receive_all A B appendOK (MissingFor A (Some (Summary B)) limit)
              HA HB Hids) as (H1 & H2 & H3).
  { intros op Hop. by apply MissingFor_unlimited in Hop as [? _]. }
  fold B' in H1, H2, H3.
  pose proof (reachable_wf B' H1) as WB'.
  assert (forall author,
             seqOf (Summary A) author <= seqOf (Summary B') author) as Hdom.
  { intros author. unfold Summary, seqOf at 1.
    destruct (seqByAuthor A !! author) as [n|] eqn:En; simpl; [|lia].
    destruct (wf_attained A WA author n En) as (op & Hop & <- & <-).
    destruct (decide (seqOf (Summary B) (Author op) < Seq op)) as [Hlt | Hge].
    - destruct (H3 op) as (o & Ho & <- & <-).
      { apply MissingFor_unlimited; [done | by split]. }
      by apply seqOf_bound.
    - unfold Summary, seqOf in Hge.
      destruct (seqByAuthor B !! Author op) as [m|] eqn:Em; simpl in Hge.
      + destruct (wf_attained B WB _ m Em) as (o & Ho & Ea & Es).
        pose proof (seqOf_bound B' o WB' (H2 o Ho)) as Hb.
        rewrite Ea, Es in Hb. lia.
      + pose proof (verified_seq_pos op (wf_verified A WA op Hop)). lia. }
  split; [done|]. split; [done|]. split; [done|].
  intros limit'. unfold MissingFor. simpl.
  assert (forall l out,
             (forall op, In op l -> In op (ops A)) ->
             missingLoop (Summary B') limit' l out = out) as G.
  { induction l as [|op l IH]; intros out Hsub; simpl; [done|].
    assert ((seqOf (Summary B') (Author op) <? Seq op) = false) as ->.
    { apply N.ltb_ge.
      pose proof (seqOf_bound A op WA (Hsub op (or_introl eq_refl))) as Hb.
      specialize (Hdom (Author op)). unfold Summary in *. lia. }
    apply IH. intros o Ho. apply Hsub. by right. }
  apply G. intros op Hop.
  eapply Permutation_in; [apply sortStable_perm | done].
Qed.
End Round.

(** ** The peer registry: a peer is registered once *)

(** X26. [AddPeer] registers the normal form of its argument and touches
    no other entry.  The entry is in the registry in memory also when
    [peers.json] could not be written and the call returned that error.
    A peer that is registered, under any spelling, is added again without
    change and without a write: the call succeeds whatever a write would
    have done. *)
Theorem AddPeer_registers_once {L : GoLib}
  (s : Store) (saveOK : bool) (raw n : string) :
  normalizePeer raw = Ok n ->
  let s' := snd (AddPeer s saveOK raw) in
  In n (peers s') /\
  (forall p, p <> n -> In p (peers s') <-> In p (peers s)) /\
  (forall saveOK' raw',
      normalizePeer raw' = Ok n -> AddPeer s' saveOK' raw' = (Ok n, s')) /\
  (In n (peers s) -> AddPeer s saveOK raw = (Ok n, s)).
Proof.
  intros Hn s'.
  assert (In n (peers s') /\
          (forall p, p <> n -> In p (peers s') <-> In p (peers s))) as [H1 H2].
  { unfold s', AddPeer. rewrite Hn.
    destruct (existsb (string_eqb n) (peers s)) eqn:E; simpl.
    - apply existsb_exists in E as (x & Hx & ->%string_eqb_eq). by split.
    - assert (forall p, In p (sortStable string_ltb (peers s ++ [n]))
                        <-> In p (peers s) \/ p = n) as Hin.
      { intros p. split; intros H.
        - eapply Permutation_in in H; [|apply sortStable_perm].
          apply in_app_iff in H as [H | [<- | []]]; auto.
        - eapply Permutation_in; [symmetry; apply sortStable_perm|].
          apply in_app_iff. destruct H as [H | ->]; [by left | right; by left]. }
      destruct saveOK; simpl; (split; [apply Hin; by right|]);
        intros p Hp; rewrite Hin; split; auto; by intros [? | ?]. }
  split; [done|]. split; [done|]. split.
  - intros saveOK' raw' Hn'. by apply AddPeer_absorbs.
  - intros Hin. by apply AddPeer_absorbs.
Qed.

(** ** Texts that a separator cuts *)

Lemma hexEncode_lacks (c : ascii) (l : bytes) :
  forallb (fun k => negb (Ascii.eqb (hexDigit (N.of_nat k)) c)) (seq 0 16) = true ->
  contains (hexEncode l) (String c "") = false.
Proof.
  intros Hall. rewrite forallb_forall in Hall.
  assert (forall n, n < 16 -> hexDigit n <> c) as Hd.
  { intros n Hn E. specialize (Hall (N.to_nat n)). rewrite N2Nat.id in Hall.
    rewrite E, Ascii.eqb_refl in Hall. discriminate Hall. apply in_seq. lia. }
  induction l as [|b l IH]; [done|].
  change (hexEncode (b :: l))
    with (String (hexDigit (Byte.to_N b / 16))
            (String (hexDigit (Byte.to_N b mod 16)) (hexEncode l))).
  pose proof (Byte.to_N_bounded b) as Hb.
  assert (Byte.to_N b / 16 < 16) as H1
      by (apply N.Div0.div_lt_upper_bound; lia).
  assert (Byte.to_N b mod 16 < 16) as H2 by (apply N.mod_lt; lia).
  apply Hd in H1, H2.
  cbn [contains hasPrefix]. rewrite IH, !andb_true_r, !orb_false_r.
  apply orb_false_iff. split; apply bool_decide_eq_false; congruence.
Qed.

Lemma fmtN_lacks_comma (n : N) : contains (fmtN n) "," = false.
Proof.
  unfold fmtN.
  assert (forall d, contains (NilEmpty.string_of_uint d) "," = false) as G.
  { induction d as [|d IH|d IH|d IH|d IH|d IH|d IH|d IH|d IH|d IH|d IH];
      [done|..]; cbn [NilEmpty.string_of_uint contains hasPrefix];
      by rewrite IH. }
  unfold NilZero.string_of_uint. destruct (N.to_uint n); try apply G. done.
Qed.

(** Two texts that a separator ends, neither of them holding it, are
    equal when what they begin is equal, and so is what follows them. *)
Lemma app_cut_inj (c : ascii) (a a' r r' : string) :
  contains a (String c "") = false ->
  contains a' (String c "") = false ->
  a +:+ String c r = a' +:+ String c r' ->
  a = a' /\ r = r'.
Proof.
  intros Ha Ha' E. apply (f_equal (fun x => cutAt x (String c ""))) in E.
  rewrite !cutAt_first in E by done. by injection E.
Qed.

Lemma list_byte_of_string_inj (a b : string) :
  list_byte_of_string a = list_byte_of_string b -> a = b.
Proof.
  intros E. apply (f_equal string_of_list_byte) in E.
  by rewrite !string_of_list_byte_of_string in E.
Qed.

(** ** The operation log on concrete stores *)

Import Reference Examples.

Lemma bytesEqual_refl (a : bytes) : bytesEqual a a = true.
Proof.
  induction a as [|x a IH]; simpl; [done|].
  by rewrite (Byte.byte_dec_lb eq_refl), IH.
Qed.

(** The reference library satisfies the laws. *)
#[export] Instance refLib_laws : GoLibLaws (L := refLib).
Proof.
  constructor.
  - intros seed pub priv Hs [= <- <-].
    rewrite length_app, !length_map, Hs. done.
  - intros priv m Hp. change (length (refSign priv m) = SignatureSize).
    unfold refSign, refPublic, refTag, checksum.
    rewrite length_app, length_skipn, length_map, length_seq, Hp. done.
  - intros seed pub priv m Hs [= <- <-].
    change (bytesEqual (refSign (seed ++ map (fun b => byteOfN (Byte.to_N b + 32)) seed) m)
              (map (fun b => byteOfN (Byte.to_N b + 32)) seed ++ refTag m) = true).
    unfold refSign, refPublic.
    rewrite skipn_app, skipn_all2, Hs by (rewrite Hs; done).
    apply bytesEqual_refl.
  - apply hexDecode_hexEncode.
  - intros m. change (length (refDigest m) = 32%nat).
    unfold refDigest, checksum. by rewrite length_map, length_seq.
  - done.
Qed.

(** The canonical bytes of the reference library tell every field. *)
Lemma refMarshalSignable_inj
  (type author : string) (seq : N) (timestamp : string) (payload : bytes)
  (publicKey : string)
  (type' author' : string) (seq' : N) (timestamp' : string) (payload' : bytes)
  (publicKey' : string) (b : bytes) :
  refMarshalSignable type author seq timestamp payload publicKey = Some b ->
  refMarshalSignable type' author' seq' timestamp' payload' publicKey' = Some b ->
  type = type' /\ author = author' /\ seq = seq' /\ timestamp = timestamp' /\
  payload = payload' /\ publicKey = publicKey'.
Proof.
  unfold refMarshalSignable, hexText. intros [= <-] [= E].
  apply list_byte_of_string_inj in E.
  repeat match type of E with
         | context [append EmptyString ?r] =>
             change (append EmptyString r) with r in E
         | context [append (String ?c ?x) ?r] =>
             change (append (String c x) r) with (String c (append x r)) in E
         end.
  apply app_cut_inj in E as [E1 E]; [|by apply hexEncode_lacks..].
  apply app_cut_inj in E as [E2 E]; [|by apply hexEncode_lacks..].
  apply app_cut_inj in E as [E3 E]; [|apply fmtN_lacks_comma..].
  apply app_cut_inj in E as [E4 E]; [|by apply hexEncode_lacks..].
  apply app_cut_inj in E as [E5 E]; [|by apply hexEncode_lacks..].
  apply app_cut_inj in E as [E6 _]; [|by apply hexEncode_lacks..].
  apply hexEncode_inj, list_byte_of_string_inj in E1, E2, E4, E6.
  apply hexEncode_inj in E5. apply fmtN_inj in E3. done.
Qed.

#[export] Instance refLib_marshal : MarshalLaws (L := refLib).
Proof.
  constructor;
    intros t a n ts p k t' a' n' ts' p' k' b H1 H2;
    destruct (refMarshalSignable_inj _ _ _ _ _ _ _ _ _ _ _ _ _ H1 H2)
      as (? & ? & ? & ? & ? & ?); done.
Qed.

Lemma pair_of_fst {A B : Type} (p : A * B) (a : A) : fst p = a -> p = (a, snd p).
Proof. intros <-. by destruct p. Qed.

Lemma callA1_ok : callA1 = (Ok opA1, storeA1).
Proof. apply pair_of_fst. by vm_compute. Qed.

Lemma callA2_ok : callA2 = (Ok opA2, storeA2).
Proof. apply pair_of_fst. by vm_compute. Qed.

Lemma callB1_ok : callB1 = (true, None, storeB1).
Proof. apply pair_of_fst. by vm_compute. Qed.

Lemma reachable_storeA1 : reachable storeA1.
Proof.
  exact (reach_append storeA t1 true "git.commit" [] (Ok opA1) storeA1
           (reach_new _ _ _) callA1_ok).
Qed.

Lemma reachable_storeA2 : reachable storeA2.
Proof.
  exact (reach_append storeA1 t2 true "git.push" (jsonObject "hash" "abc")
           (Ok opA2) storeA2 reachable_storeA1 callA2_ok).
Qed.

Lemma reachable_storeB1 : reachable storeB1.
Proof.
  exact (reach_remote storeB true opA2 (true, None) storeB1
           (reach_new _ _ _) callB1_ok).
Qed.

Lemma reachableLocal_storeA1 : reachableLocal storeA1.
Proof.
  exact (local_append storeA t1 true "git.commit" [] (Ok opA1) storeA1
           (local_new _ _ _) callA1_ok).
Qed.

(** C1, counterexample.  [AppendLocalOp] with an empty payload returns an
    operation whose payload is [{}]; with the payload field emptied again
    the operation differs from the one returned and [verifyOperation]
    still accepts it. *)
Lemma tamper_payload_accepted :
  AppendLocalOp storeA t1 true "git.commit" [] = (Ok opA1, storeA1) /\
  Payload opA1 = emptyObject /\
  Payload (setPayload opA1 []) <> Payload opA1 /\
  verifyOperation (setPayload opA1 []) = None.
Proof.
  split; [apply callA1_ok|]. split; [by vm_compute|].
  split; [by vm_compute|]. by vm_compute.
Qed.

(** C1 at the first operation of node A: it verifies; with another id
    or another author it does not; and with another seq, timestamp, type
    or payload under the same id it does not either, unless the digest
    maps what is hashed for the two operations to one value. *)
Lemma sign_verify_tamper_witness :
  AppendLocalOp storeA t1 true "git.commit" [] = (Ok opA1, storeA1) /\
  verifyOperation opA1 = None /\
  verifyOperation (setID opA1 "00") <> None /\
  verifyOperation (setAuthor opA1 "someone") <> None /\
  (verifyOperation (setSeq opA1 2) <> None
   \/ idCollision (setSeq opA1 2) opA1) /\
  (verifyOperation (setTimestamp opA1 t2) <> None
   \/ idCollision (setTimestamp opA1 t2) opA1) /\
  (verifyOperation (setType opA1 "git.push") <> None
   \/ idCollision (setType opA1 "git.push") opA1) /\
  (verifyOperation (setPayload opA1 (jsonObject "hash" "abc")) <> None
   \/ idCollision (setPayload opA1 (jsonObject "hash" "abc")) opA1).
Proof.
  split; [apply callA1_ok|].
  destruct (sign_verify_tamper storeA storeA1 t1 true "git.commit" [] opA1 callA1_ok)
    as (H1 & H2 & H3 & H4).
  split; [exact H1|]. split; [|split; [|split; [|split; [|split]]]].
  - apply H2. by vm_compute.
  - apply H3. by vm_compute.
  - apply H4; [reflexivity|]. left. by vm_compute.
  - apply H4; [reflexivity|]. right. left. by vm_compute.
  - apply H4; [reflexivity|]. do 4 right. left.
    split; [by vm_compute|]. split; by vm_compute.
  - apply H4; [reflexivity|]. do 5 right. left. by vm_compute.
Defined.

(** C2, counterexample.  The store holds [opA2]; the same operation with
    another payload, as in TestLocalOperationAppendAndTamperRejection, has
    an id that is already in the log, and [AddRemoteOp] returns the
    verification error, not [(false, nil)]. *)
Lemma duplicate_id_not_verified :
  reachable storeA2 /\
  In opA2 (ops storeA2) /\
  ID tamperedA2 = ID opA2 /\
  fst (AddRemoteOp storeA2 true tamperedA2) = (false, Some ErrSignature) /\
  fst (AddRemoteOp storeA2 true tamperedA2) <> (false, None).
Proof.
  split; [apply reachable_storeA2|].
  split; [vm_compute; tauto|]. split; [reflexivity|].
  assert (fst (AddRemoteOp storeA2 true tamperedA2) = (false, Some ErrSignature))
    as -> by (by vm_compute).
  done.
Qed.

Lemma storeA2_ops : ops storeA2 = [opA1; opA2].
Proof. by vm_compute. Qed.

(** C2 on the store of node A after two appends: the second operation
    again is a duplicate, the same without id fails verification, another
    operation signed by A with seq 2 is a conflict. *)
Lemma AddRemoteOp_duplicate_conflict_witness :
  reachable storeA2 /\
  AddRemoteOp storeA2 true opA2 = (false, None, storeA2) /\
  AddRemoteOp storeA2 true (setID opA2 "")
  = (false, Some ErrIDRequired, storeA2) /\
  AddRemoteOp storeA2 true opA2'
  = (false, Some (ErrConflict (Author opA2') (Seq opA2')), storeA2).
Proof.
  split; [apply reachable_storeA2|].
  destruct (AddRemoteOp_duplicate_conflict storeA2 true opA2 reachable_storeA2)
    as (_ & Hdup & _).
  destruct (AddRemoteOp_duplicate_conflict storeA2 true (setID opA2 "")
              reachable_storeA2) as (Hbad & _ & _).
  destruct (AddRemoteOp_duplicate_conflict storeA2 true opA2' reachable_storeA2)
    as (_ & _ & Hconflict).
  split; [|split].
  - apply Hdup; [by vm_compute|]. exists opA2.
    split; [rewrite storeA2_ops; right; by left | done].
  - apply Hbad. by vm_compute.
  - apply Hconflict; [by vm_compute | |].
    + rewrite storeA2_ops. intros (op0 & [<- | [<- | []]] & Hid);
        by vm_compute in Hid.
    + exists opA2. split; [rewrite storeA2_ops; right; by left|].
      split; by vm_compute.
Defined.

Lemma storeB1_summary : seqByAuthor storeB1 !! Author opA2 = Some 2.
Proof. by vm_compute. Qed.

Lemma storeB1_ops : ops storeB1 = [opA2].
Proof. by vm_compute. Qed.

Lemma opA2_seq : Seq opA2 = 2.
Proof. by vm_compute. Qed.

(** Scenario S3: with a summary that has the first operation of A,
    [MissingFor] returns the second. *)
Example MissingFor_catch_up :
  MissingFor storeA2 (Some {[Author opA1 := 1]}) 0 = [opA2].
Proof. by vm_compute. Qed.

(** C5 on the store of node A with the summary of scenario S3 and no
    limit. *)
Lemma MissingFor_correct_witness :
  (0 <= 0)%Z /\
  MissingFor storeA2 (Some {[Author opA1 := 1]}) 0
  = truncate 0 (List.filter (newer (default ∅ (Some {[Author opA1 := 1]})))
                            (sortStable opLess (ops storeA2))) /\
  (forall op,
      In op (MissingFor storeA2 (Some {[Author opA1 := 1]}) 0)
      <-> In op (ops storeA2)
          /\ seqOf (default ∅ (Some {[Author opA1 := 1]})) (Author op) < Seq op).
Proof.
  split; [done|].
  destruct (MissingFor_correct storeA2 (Some {[Author opA1 := 1]}) 0)
    as (_ & _ & H3 & H4).
  split; [exact H3 | by apply H4].
Defined.

(** C3, counterexample.  Node B accepts the second operation of node A
    without having the first: its summary maps A to 2 and its log has no
    operation of A with seq 1. *)
Lemma gap_after_remote_op :
  reachable storeB1 /\ ~ dense storeB1.
Proof.
  split; [apply reachable_storeB1|].
  intros D.
  destruct (D (Author opA2) 2 storeB1_summary 1
              (conj (N.le_refl 1) (N.le_succ_diag_r 1)))
    as (op & Hin & _ & Hseq).
  rewrite storeB1_ops in Hin. destruct Hin as [E | []].
  rewrite <- E, opA2_seq in Hseq. discriminate.
Qed.

(** C3 on the store of node B, which has a gap, and on the store of node
    A after its first append, which has none. *)
Lemma sequence_bounds_and_local_density_witness :
  (forall op, In op (ops storeB1) ->
      exists m, seqByAuthor storeB1 !! Author op = Some m /\ 1 <= Seq op <= m) /\
  dense storeA1.
Proof.
  destruct (sequence_bounds_and_local_density storeB1) as [H _].
  destruct (sequence_bounds_and_local_density storeA1) as [_ H'].
  split.
  - apply (H reachable_storeB1).
  - apply H'. apply reachableLocal_storeA1.
Defined.

(** C9 on the store of node B. *)
Lemma Summary_faithful_witness :
  reachable storeB1 /\
  (forall A, A ∈ dom (Summary storeB1) <->
             exists op, In op (ops storeB1) /\ Author op = A) /\
  (forall A n, Summary storeB1 !! A = Some n ->
     (exists op, In op (ops storeB1) /\ Author op = A /\ Seq op = n) /\
     (forall op, In op (ops storeB1) -> Author op = A -> Seq op <= n)).
Proof.
  split; [apply reachable_storeB1|].
  apply (Summary_faithful storeB1 reachable_storeB1).
Defined.

(** C10 for the tampered operation offered to the store of node A. *)
Lemma AddRemoteOp_rejection_atomic_witness :
  fst (AddRemoteOp storeA2 true tamperedA2) = (false, Some ErrSignature) /\
  isVerificationError ErrSignature = true /\
  (forall limit,
      Ops (snd (AddRemoteOp storeA2 true tamperedA2)) limit = Ops storeA2 limit) /\
  Summary (snd (AddRemoteOp storeA2 true tamperedA2)) = Summary storeA2.
Proof.
  assert (fst (AddRemoteOp storeA2 true tamperedA2) = (false, Some ErrSignature))
    as Hcall by (by vm_compute).
  split; [exact Hcall|]. split; [reflexivity|].
  apply (AddRemoteOp_rejection_atomic storeA2 _ true tamperedA2
           (Some ErrSignature)).
  - by apply pair_of_fst.
  - right. exists ErrSignature. split; [done|]. by left.
Defined.

(** ** The peer registry on concrete inputs *)

(** C8. The three spellings of the spec normalise to one value and leave
    one registry entry.  Normalisation is not idempotent: only one
    trailing slash is removed, so an input that ends in two slashes is
    accepted with an output that normalises to something else; the entry
    that [AddPeer] stores for it is not removed by [RemovePeer] called with
    the stored string. *)
Theorem normalizePeer_collapses_but_not_idempotent :
  normalizePeer "127.0.0.1:8787" = Ok "http://127.0.0.1:8787" /\
  normalizePeer "127.0.0.1:8787/" = Ok "http://127.0.0.1:8787" /\
  normalizePeer "http://127.0.0.1:8787" = Ok "http://127.0.0.1:8787" /\
  peersAfter3 = ["http://127.0.0.1:8787"] /\
  normalizePeer "http://peer.example/gossip//" = Ok "http://peer.example/gossip/" /\
  normalizePeer "http://peer.example/gossip/" = Ok "http://peer.example/gossip" /\
  peers storeSlashes = ["http://peer.example/gossip/"] /\
  peers (snd (RemovePeer storeSlashes true "http://peer.example/gossip/"))
  = ["http://peer.example/gossip/"].
Proof. repeat split; by vm_compute. Qed.

(** ** The pending-push queue on concrete inputs *)

(** C6, counterexample.  The queue is empty and the argument carries a
    created_at: the inserted record keeps it, so its created_at is neither
    its updated_at nor the current time (both clock readings are [t1]
    here). *)
Lemma upsert_keeps_given_created_at :
  loadPendingPushesLocked [] = Ok [] /\
  UpsertPendingPush [] t1 t1 true (setCreatedAt pushP1 oldStamp)
  = (Ok storedOld, [storedOld]) /\
  CreatedAt storedOld <> UpdatedAt storedOld /\
  CreatedAt storedOld <> t1.
Proof. repeat split; by vm_compute. Qed.

(** C6 for a first insert into the empty queue and for a second upsert of
    the same proposal with three attempts. *)
Lemma UpsertPendingPush_semantics_witness :
  UpsertPendingPush [] t1 t2 true pushP1 = (Ok storedP1, [] ++ [storedP1]) /\
  UpsertPendingPush [storedP1] t2 t2 true (setAttempts pushP1 3)
  = (Ok (replacing normP1' storedP1), [] ++ replacing normP1' storedP1 :: []) /\
  CreatedAt (replacing normP1' storedP1) = t1 /\
  Attempts (replacing normP1' storedP1) = 3%Z.
Proof.
  destruct (UpsertPendingPush_semantics [] [] t1 t2 pushP1 storedP1
              eq_refl eq_refl) as (_ & _ & Hins).
  destruct (UpsertPendingPush_semantics [storedP1] [storedP1] t2 t2
              (setAttempts pushP1 3) normP1' eq_refl eq_refl) as (_ & Hrep & _).
  split; [apply Hins; by intros q []|].
  destruct (Hrep [] storedP1 [] eq_refl eq_refl) as (H1 & H2 & H3 & _);
    [by intros q []|].
  split; [exact H1|]. split; [exact H2 | exact H3].
Defined.

(** C7, counterexample.  The message is stored trimmed, not as given; and
    for a blank proposal_id, which no queue entry has, the error is
    "proposal ID is required", not the not-found error. *)
Lemma mark_trims_and_blank_id :
  MarkPendingPushFailed [storedP1] t2 true "p1" " push rejected "
  = (None, [markPush storedP1 "failed" " push rejected " t2]) /\
  LastError (markPush storedP1 "failed" " push rejected " t2) = "push rejected" /\
  LastError (markPush storedP1 "failed" " push rejected " t2) <> " push rejected " /\
  (forall q, In q [storedP1] -> ProposalID q <> "  ") /\
  MarkPendingPushFailed [storedP1] t2 true "  " "x"
  = (Some ErrProposalIDRequired, [storedP1]).
Proof.
  split; [by vm_compute|]. split; [by vm_compute|]. split; [by vm_compute|].
  split; [|by vm_compute].
  intros q [<- | []]. by vm_compute.
Qed.

(** C7 for a completed push and for a proposal that is not queued. *)
Lemma Mark_semantics_witness :
  runMark MarkCompleted [storedP1] t2 true " p1" ""
  = (None, [] ++ markPush storedP1 "completed" "" t2 :: []) /\
  runMark MarkFailed [storedP1] t2 true "p2" "boom"
  = (Some (ErrPushNotFound "p2"), [storedP1]).
Proof.
  destruct (Mark_semantics MarkCompleted [storedP1] [storedP1] t2 " p1" ""
              eq_refl) as (_ & _ & _ & Hfound).
  destruct (Mark_semantics MarkFailed [storedP1] [storedP1] t2 "p2" "boom"
              eq_refl) as (_ & _ & Habsent & _).
  split.
  - destruct (Hfound [] storedP1 []) as (p' & Hrun & _); try done.
  - apply Habsent; [done|]. intros q [<- | []]. done.
Defined.

(** ** The pending-push processor on a concrete environment *)

(** A run over four queue entries. *)
Example processPendingPushes_run :
  Vcs.processPendingPushes (E := exampleEnv) "" []
  = ({| Vcs.Checked := 3; Vcs.Executed := 1; Vcs.Pending := 1; Vcs.Failed := 1 |},
     Some "proposal has expired",
     [Vcs.CallMarkFailed "p-expired" "proposal has expired";
      Vcs.CallMarkPending "p-waiting" "awaiting quorum yes=1/2 required=2";
      Vcs.CallCertify "p-ready" false;
      Vcs.CallRunGit ["push"; "origin"; "main"];
      Vcs.CallMarkCompleted "p-ready";
      Vcs.CallRecordGitEvent "git.push" (pushWith "p-ready" "failed") "certified"]).
Proof. by vm_compute. Qed.

(** C4 on that run: the completed entry is skipped, the expired one is
    marked failed, the one without quorum is marked pending, and the first
    error is the one returned. *)
Lemma processPendingPushes_behaviour_witness :
  Vcs.store_ListPendingPushes (Env := exampleEnv) [] = inr examplePushes /\
  Vcs.processPush (E := exampleEnv) "" (pushWith "p-done" "completed") startState
  = startState /\
  Vcs.processPush (E := exampleEnv) "" (pushWith "p-expired" "pending") startState
  = {| Vcs.result_ := {| Vcs.Checked := 1; Vcs.Executed := 0;
                         Vcs.Pending := 0; Vcs.Failed := 1 |};
       Vcs.firstErr := Some "proposal has expired";
       Vcs.calls := [Vcs.CallMarkFailed "p-expired" "proposal has expired"] |} /\
  Vcs.processPush (E := exampleEnv) "" (pushWith "p-waiting" "pending") startState
  = {| Vcs.result_ := {| Vcs.Checked := 1; Vcs.Executed := 0;
                         Vcs.Pending := 1; Vcs.Failed := 0 |};
       Vcs.firstErr := None;
       Vcs.calls := [Vcs.CallMarkPending "p-waiting"
                       "awaiting quorum yes=1/2 required=2"] |} /\
  Vcs.Checked (fst (fst (Vcs.processPendingPushes (E := exampleEnv) "" []))) = 3%Z /\
  snd (fst (Vcs.processPendingPushes (E := exampleEnv) "" []))
  = Some "proposal has expired".
Proof.
  split; [reflexivity|].
  destruct (processPendingPushes_behaviour (E := exampleEnv) "" [] examplePushes
              eq_refl) as (Hskip & Hexp & Hwait & Htot).
  split; [by apply Hskip|]. split; [|split].
  - by destruct (Hexp (pushWith "p-expired" "pending") [] startState
                   (exampleStatus true false false) eq_refl eq_refl eq_refl)
      as [H _].
  - by destruct (Hwait (pushWith "p-waiting" "pending") [] startState
                   (exampleStatus false false false)
                   eq_refl eq_refl eq_refl eq_refl eq_refl)
      as [H _].
  - destruct (Htot _ _ _ processPendingPushes_run) as (H1 & _ & _ & H4).
    split; [exact H1|].
    apply (H4 [pushWith "p-done" "completed"; pushWith "p-expired" "pending"]
              [pushWith "p-waiting" "pending"; pushWith "p-ready" "failed"]);
      by vm_compute.
Defined.
(** ** The further properties on concrete inputs *)

(** X2 on the store of node A after two appends, without limit. *)
Lemma MissingFor_nothing_known_witness :
  reachable storeA2 /\
  MissingFor storeA2 None 0 = truncate 0 (Ops storeA2 0) /\
  MissingFor storeA2 None 0 = Ops storeA2 0.
Proof.
  split; [exact reachable_storeA2|].
  destruct (MissingFor_nothing_known storeA2 0 reachable_storeA2)
    as (H1 & _ & H3).
  split; [exact H1 | by apply H3].
Defined.

Lemma storeP_peers : peers storeP = ["http://127.0.0.1:8787"].
Proof. by vm_compute. Qed.

Lemma storeP_sorted : strictlySorted (peers storeP).
Proof. rewrite storeP_peers. repeat constructor. Qed.

Lemma normalizePeer_slash :
  normalizePeer "127.0.0.1:8787/" = Ok "http://127.0.0.1:8787".
Proof. by vm_compute. Qed.

Lemma normalizePeer_bare :
  normalizePeer "127.0.0.1:8787" = Ok "http://127.0.0.1:8787".
Proof. by vm_compute. Qed.

Lemma normalizePeer_other :
  normalizePeer "https://peer.example/gossip/" = Ok "https://peer.example/gossip".
Proof. by vm_compute. Qed.

(** X4 on the registry with one peer, for another peer and a write that
    fails. *)
Lemma peers_stay_sorted_witness :
  strictlySorted (peers storeP) /\
  strictlySorted
    (peers (snd (AddPeer storeP false "https://peer.example/gossip/"))) /\
  strictlySorted
    (peers (snd (RemovePeer storeP false "https://peer.example/gossip/"))) /\
  ListPeers storeP = peers storeP.
Proof.
  split; [exact storeP_sorted|].
  exact (peers_stay_sorted storeP false "https://peer.example/gossip/"
           storeP_sorted).
Defined.

(** X5 on the registry with one peer: another spelling of it removes it,
    and a peer that is not registered is removed without a write. *)
Lemma RemovePeer_removes_one_witness :
  normalizePeer "127.0.0.1:8787/" = Ok "http://127.0.0.1:8787" /\
  ~ In "http://127.0.0.1:8787"
       (peers (snd (RemovePeer storeP true "127.0.0.1:8787/"))) /\
  normalizePeer "https://peer.example/gossip/" = Ok "https://peer.example/gossip" /\
  ~ In "https://peer.example/gossip" (peers storeP) /\
  RemovePeer storeP false "https://peer.example/gossip/"
  = (Ok "https://peer.example/gossip", storeP).
Proof.
  split; [exact normalizePeer_slash|].
  split; [exact (proj1 (RemovePeer_removes_one storeP true _ _
                          normalizePeer_slash))|].
  split; [exact normalizePeer_other|].
  assert (~ In "https://peer.example/gossip" (peers storeP)) as Hno.
  { rewrite storeP_peers. by intros [[=] | []]. }
  split; [exact Hno|].
  exact (proj2 (proj2 (RemovePeer_removes_one storeP false _ _
                         normalizePeer_other)) Hno).
Defined.

(** X6 on the empty registry of node A, adding under one spelling and
    removing under another. *)
Lemma AddPeer_RemovePeer_round_trip_witness :
  strictlySorted (peers storeA) /\
  normalizePeer "127.0.0.1:8787" = Ok "http://127.0.0.1:8787" /\
  normalizePeer "127.0.0.1:8787/" = Ok "http://127.0.0.1:8787" /\
  ~ In "http://127.0.0.1:8787" (peers storeA) /\
  fst (AddPeer storeA true "127.0.0.1:8787") = Ok "http://127.0.0.1:8787" /\
  In "http://127.0.0.1:8787" (peers storeP) /\
  RemovePeer storeP true "127.0.0.1:8787/" = (Ok "http://127.0.0.1:8787", storeA).
Proof.
  assert (strictlySorted (peers storeA)) as Hs by constructor.
  assert (~ In "http://127.0.0.1:8787" (peers storeA)) as Hno by (by intros []).
  split; [exact Hs|]. split; [exact normalizePeer_bare|].
  split; [exact normalizePeer_slash|]. split; [exact Hno|].
  exact (AddPeer_RemovePeer_round_trip storeA "127.0.0.1:8787"
           "127.0.0.1:8787/" "http://127.0.0.1:8787"
           Hs normalizePeer_bare normalizePeer_slash Hno).
Defined.

Lemma exampleLog_carries :
  Forall2 (fun text op => exampleDecode (TrimSpace text) = Some op)
          (List.filter notBlank exampleLog) (ops storeA2).
Proof.
  rewrite storeA2_ops.
  change (List.filter notBlank exampleLog) with [" first" +:+ cr; "second "].
  repeat constructor.
Qed.

Lemma exampleLog_fits :
  Forall (fun text => fitsBuffer text = true) exampleLog.
Proof. repeat constructor. Qed.

Lemma length_spaces (n : nat) : String.length (spaces n) = n.
Proof. induction n as [|n IH]; simpl; [done | by rewrite IH]. Qed.

Lemma longLine_too_long : fitsBuffer longLine = false.
Proof.
  unfold fitsBuffer, longLine. rewrite length_spaces, N2Nat.id.
  apply N.ltb_irrefl.
Qed.

Lemma longLine_blank : notBlank longLine = false.
Proof.
  assert (forall n, trimLeftFuel n whiteSpace (spaces n) = "") as G.
  { induction n as [|n IH]; [done | exact IH]. }
  unfold notBlank, TrimSpace, trimLeft, longLine.
  by rewrite length_spaces, G.
Qed.

Lemma longLog_carries :
  Forall2 (fun text op => exampleDecode (TrimSpace text) = Some op)
          (List.filter notBlank longLog) (ops storeA2).
Proof.
  unfold longLog. cbn [List.filter]. rewrite longLine_blank.
  exact exampleLog_carries.
Qed.

(** X7 on the store of node A after two appends: a log with a blank line
    rebuilds it; the log with the long line is given up at that line, with
    the first operation loaded. *)
Lemma loadOps_rebuilds_store_witness :
  reachable storeA2 /\
  Forall2 (fun text op => exampleDecode (TrimSpace text) = Some op)
          (List.filter notBlank exampleLog) (ops storeA2) /\
  loadOps exampleDecode (Some exampleLog) (unloaded storeA2) = (None, storeA2) /\
  fitsBuffer longLine = false /\
  exists s' later,
    loadOps exampleDecode (Some longLog) (unloaded storeA2)
    = (Some ErrScanOpsLog, s') /\
    ops storeA2 = ops s' ++ later /\
    Forall2 (fun text op => exampleDecode (TrimSpace text) = Some op)
            (List.filter notBlank [" first" +:+ cr]) (ops s').
Proof.
  split; [exact reachable_storeA2|]. split; [exact exampleLog_carries|].
  split.
  - exact (proj1 (loadOps_rebuilds_store exampleDecode storeA2 exampleLog
                    reachable_storeA2 exampleLog_carries) exampleLog_fits).
  - split; [exact longLine_too_long|].
    apply (proj2 (loadOps_rebuilds_store exampleDecode storeA2 longLog
                    reachable_storeA2 longLog_carries)
             [" first" +:+ cr] longLine ["second "] eq_refl).
    + repeat constructor.
    + exact longLine_too_long.
Defined.

Lemma failed_append_call :
  fst (AddRemoteOp storeB false opA2) = (false, Some ErrAppendOp).
Proof. by vm_compute. Qed.

(** X8 on node B, which receives the second operation of node A while
    its log cannot be written. *)
Lemma failed_append_keeps_operation_witness :
  AddRemoteOp storeB false opA2
  = (false, Some ErrAppendOp, snd (AddRemoteOp storeB false opA2)) /\
  In opA2 (ops (snd (AddRemoteOp storeB false opA2))) /\
  AddRemoteOp (snd (AddRemoteOp storeB false opA2)) true opA2
  = (false, None, snd (AddRemoteOp storeB false opA2)).
Proof.
  assert (AddRemoteOp storeB false opA2
          = (false, Some ErrAppendOp, snd (AddRemoteOp storeB false opA2)))
    as Hcall by exact (pair_of_fst _ _ failed_append_call).
  split; [exact Hcall|].
  destruct (failed_append_keeps_operation storeB _ opA2 Hcall) as [H1 H2].
  split; [exact H1 | exact (H2 true)].
Defined.

Lemma brokenLog_call :
  fst (loadOps exampleDecode (Some brokenLog) storeB)
  = Some (ErrDecodeOperation 3).
Proof. by vm_compute. Qed.

Lemma longLog_call :
  loadOps exampleDecode (Some longLog) storeB
  = (Some ErrScanOpsLog,
     snd (loadOpsLoop exampleDecode [" first" +:+ cr] 0 storeB)).
Proof.
  change (loadOps exampleDecode (Some longLog) storeB)
    with (loadOpsLoop exampleDecode ([" first" +:+ cr] ++ longLine :: ["second "])
            0 storeB).
  rewrite loadOpsLoop_app.
  assert (fst (loadOpsLoop exampleDecode [" first" +:+ cr] 0 storeB) = None)
    as H by (by vm_compute).
  rewrite (pair_of_fst _ _ H).
  rewrite loadOpsLoop_cons, longLine_too_long.
  reflexivity.
Qed.

(** X9 on a log whose third line does not decode, and on the log whose
    second line the scanner cannot hold. *)
Lemma loadOps_error_line_witness :
  loadOps exampleDecode (Some brokenLog) storeB
  = (Some (ErrDecodeOperation 3),
     snd (loadOps exampleDecode (Some brokenLog) storeB)) /\
  (exists before text after,
     brokenLog = before ++ text :: after /\
     loadOps exampleDecode (Some before) storeB
     = (None, snd (loadOps exampleDecode (Some brokenLog) storeB)) /\
     3%Z = (Z.of_nat (length before) + 1)%Z /\
     fitsBuffer text = true /\ notBlank text = true /\
     exampleDecode (TrimSpace text) = None) /\
  (exists before text after,
     longLog = before ++ text :: after /\
     loadOps exampleDecode (Some before) storeB
     = (None, snd (loadOpsLoop exampleDecode [" first" +:+ cr] 0 storeB)) /\
     fitsBuffer text = false).
Proof.
  assert (loadOps exampleDecode (Some brokenLog) storeB
          = (Some (ErrDecodeOperation 3),
             snd (loadOps exampleDecode (Some brokenLog) storeB)))
    as Hcall by exact (pair_of_fst _ _ brokenLog_call).
  split; [exact Hcall|]. split.
  - exact (loadOps_error_line exampleDecode brokenLog storeB _ _ Hcall).
  - exact (loadOps_error_line exampleDecode longLog storeB _ _ longLog_call).
Defined.

Lemma normalize_pushP1 :
  normalizePendingPush pushP1 true t1 t2 = Ok storedP1.
Proof. by vm_compute. Qed.

(** X10 on the push of the upsert example. *)
Lemma normalizePendingPush_idempotent_witness :
  normalizePendingPush pushP1 true t1 t2 = Ok storedP1 /\
  (forall t1 t2, normalizePendingPush storedP1 false t1 t2 = Ok storedP1) /\
  isStatus (Status storedP1) = true /\
  ProposalID storedP1 <> "" /\ TargetRef storedP1 <> "".
Proof.
  split; [exact normalize_pushP1|].
  exact (normalizePendingPush_idempotent pushP1 storedP1 true t1 t2
           normalize_pushP1).
Defined.

Lemma list_examplePushes : ListPendingPushes examplePushes = Ok exampleQueue.
Proof. by vm_compute. Qed.

Lemma list_stampedPushes : ListPendingPushes stampedPushes = Ok stampedQueue.
Proof. by vm_compute. Qed.

(** X11 on three entries stamped within two seconds: the entry stamped
    half a second after the first one is listed before it. *)
Lemma ListPendingPushes_sorted_by_text_witness :
  ListPendingPushes stampedPushes = Ok stampedQueue /\
  StronglySorted pushBefore stampedQueue /\
  Permutation (map ProposalID stampedQueue)
              (map (fun p => TrimSpace (ProposalID p)) stampedPushes) /\
  ListPendingPushes stampedQueue = Ok stampedQueue /\
  exists l1 l2 l3,
    stampedQueue
    = l1 ++ pushAt "p-second" "2026-02-10T04:13:37.5Z"
         :: l2 ++ pushAt "p-first" "2026-02-10T04:13:37Z" :: l3.
Proof.
  split; [exact list_stampedPushes|].
  destruct (ListPendingPushes_sorted_by_text stampedPushes stampedQueue
              list_stampedPushes) as (H1 & H2 & H3 & H4).
  split; [exact H1|]. split; [exact H2|]. split; [exact H3|].
  apply (H4 "2026-02-10T04:13:37" "5").
  - left. reflexivity.
  - right. left. reflexivity.
  - reflexivity.
  - reflexivity.
Defined.

Lemma queueOK_examplePushes : queueOK examplePushes.
Proof.
  exists exampleQueue. split; [exact list_examplePushes|].
  apply NoDup_ListNoDup. apply (bool_decide_unpack _). by vm_compute.
Qed.

(** X12 on the queue of the processor example: a new push is stored and
    an entry is marked. *)
Lemma queue_stays_readable_and_unique_witness :
  queueOK examplePushes /\
  queueOK [] /\
  queueOK (snd (UpsertPendingPush examplePushes t1 t2 true pushP1)) /\
  queueOK (snd (runMark MarkFailed examplePushes t2 true "p-waiting" "no route")).
Proof.
  split; [exact queueOK_examplePushes|].
  exact (queue_stays_readable_and_unique examplePushes t1 t2 t2 true pushP1
           MarkFailed "p-waiting" "no route" queueOK_examplePushes).
Defined.

Lemma upsert_pushP1 :
  UpsertPendingPush [] t1 t2 true pushP1 = (Ok storedP1, [storedP1]).
Proof. by vm_compute. Qed.

(** X13 on the empty queue: the push stored under [p1] is found under
    the id with blanks that it was given. *)
Lemma upserted_push_is_found_witness :
  UpsertPendingPush [] t1 t2 true pushP1 = (Ok storedP1, [storedP1]) /\
  ProposalID storedP1 = TrimSpace (ProposalID pushP1) /\
  (exists pushes', ListPendingPushes [storedP1] = Ok pushes'
                   /\ In storedP1 pushes') /\
  fst (runMark MarkCompleted [storedP1] t2 true (ProposalID pushP1) "") = None /\
  (forall saveOK x f,
      runMark MarkCompleted [storedP1] t2 saveOK (ProposalID pushP1) ""
      <> (Some (ErrPushNotFound x), f)).
Proof.
  split; [exact upsert_pushP1|].
  exact (upserted_push_is_found [] [storedP1] t1 t2 t2 pushP1 storedP1
           MarkCompleted "" upsert_pushP1).
Defined.

(** X15 on the arguments of a push with a remote and a branch. *)
Lemma extractPushPositionals_picks_witness :
  (forall arg, In arg ["origin"; "main"] -> hasPrefix arg "-" = false) /\
  Vcs.extractPushPositionals ["origin"; "main"] = ["origin"; "main"] /\
  Vcs.extractPushPositionals (["origin"; "main"] ++ "--" :: ["-x"])
  = ["origin"; "main"] ++ ["-x"].
Proof.
  assert (forall arg, In arg ["origin"; "main"] -> hasPrefix arg "-" = false)
    as Hplain by (by intros arg [<- | [<- | []]]).
  split; [exact Hplain|].
  destruct (extractPushPositionals_picks ["origin"; "main"]) as (_ & _ & H).
  destruct (H Hplain) as [H1 H2].
  split; [exact H1 | exact (H2 ["-x"])].
Defined.

(** X16 on the upstream [origin/feature/x]. *)
Lemma parseUpstream_splits_at_first_slash_witness :
  contains "origin" "/" = false /\
  Vcs.parseUpstream "origin/feature/x" = ("origin", "feature/x") /\
  Vcs.parseUpstream "refs/remotes/origin/feature/x" = ("origin", "feature/x") /\
  Vcs.parseUpstream "origin" = ("", "origin").
Proof.
  assert (contains "origin" "/" = false) as Hno by reflexivity.
  split; [exact Hno|].
  destruct (parseUpstream_splits_at_first_slash "origin" "feature/x" Hno)
    as (H1 & H2 & H3 & _).
  split; [exact (H1 eq_refl eq_refl)|].
  split; [exact (H2 eq_refl) | exact (H3 eq_refl)].
Defined.

(** X17 on the spec [heads/main]. *)
Lemma normalizeTargetRef_gives_full_ref_witness :
  fst (Vcs.normalizeTargetRef "heads/main" "") <> "" /\
  hasPrefix (fst (Vcs.normalizeTargetRef "heads/main" "")) "refs/" = true /\
  snd (Vcs.normalizeTargetRef "heads/main" "") <> "" /\
  fst (Vcs.normalizeTargetRef "heads/main" "")
  = "refs/heads/" +:+ snd (Vcs.normalizeTargetRef "heads/main" "").
Proof.
  assert (fst (Vcs.normalizeTargetRef "heads/main" "") <> "") as H1 by done.
  assert (snd (Vcs.normalizeTargetRef "heads/main" "") <> "") as H2 by done.
  destruct (normalizeTargetRef_gives_full_ref "heads/main" "") as (_ & G1 & G2).
  split; [exact H1|]. split; [exact (G1 H1)|].
  split; [exact H2 | exact (G2 H2)].
Defined.

Lemma resolve_example :
  Vcs.resolvePushIntent exampleGit examplePushArgs = inr exampleIntent.
Proof. by vm_compute. Qed.

(** X18 for a push of [topic] to [release] on [origin]. *)
Lemma resolvePushIntent_result_witness :
  Vcs.resolvePushIntent exampleGit examplePushArgs = inr exampleIntent /\
  TrimSpace " p1 " <> "" /\
  hasPrefix (Vcs.PushIntent.TargetRef exampleIntent) "refs/" = true /\
  exists norm,
    normalizePendingPush (Vcs.pendingOf " p1 " exampleIntent examplePushArgs)
                         true t1 t2 = Ok norm /\
    Status norm = PendingPushStatusPending /\
    GitArgs norm = examplePushArgs /\
    CreatedAt norm = t1.
Proof.
  assert (TrimSpace " p1 " <> "") as Hpid by done.
  split; [exact resolve_example|]. split; [exact Hpid|].
  destruct (resolvePushIntent_result exampleGit examplePushArgs) as [_ H].
  destruct (H exampleIntent resolve_example) as (_ & _ & _ & H4 & _ & _ & _ & H8).
  split; [exact H4 | exact (H8 " p1 " t1 t2 Hpid)].
Defined.

Lemma callOpen_ok : isOpened callOpen = true.
Proof. by vm_compute. Qed.

Lemma opened_of_isOpened (r : openError + Store) (fallback : Store) :
  isOpened r = true -> r = inr (opened r fallback).
Proof. by destruct r. Qed.

(** X21 for node B opened on the log of node A and a registry file that
    names one peer twice. *)
Lemma OpenStore_reachable_witness :
  callOpen = inr (opened callOpen storeB) /\
  reachable (opened callOpen storeB) /\
  strictlySorted (peers (opened callOpen storeB)).
Proof.
  assert (callOpen = inr (opened callOpen storeB)) as Hcall
    by exact (opened_of_isOpened _ storeB callOpen_ok).
  split; [exact Hcall|].
  destruct (OpenStore_reachable exampleDecode (identityOf privB) privB _ _ _ Hcall)
    as (H1 & _ & _ & _ & H5 & _).
  split; [exact H1 | exact H5].
Defined.

Lemma storeA1_last : seqOf (seqByAuthor storeA1) (NodeID (identity storeA1)) = 1.
Proof. by vm_compute. Qed.

(** X22 on the second append of node A. *)
Lemma AppendLocalOp_appends_next_witness :
  callA2 = (Ok opA2, storeA2) /\
  seqOf (seqByAuthor storeA1) (NodeID (identity storeA1)) < 2 ^ 64 /\
  ops storeA2 = ops storeA1 ++ [opA2] /\
  Seq opA2 = seqOf (seqByAuthor storeA1) (NodeID (identity storeA1)) + 1 /\
  Summary storeA2 !! NodeID (identity storeA1)
  = Some (seqOf (seqByAuthor storeA1) (NodeID (identity storeA1)) + 1).
Proof.
  assert (seqOf (seqByAuthor storeA1) (NodeID (identity storeA1)) < 2 ^ 64)
    as Hlast by (rewrite storeA1_last; lia).
  split; [exact callA2_ok|]. split; [exact Hlast|].
  destruct (AppendLocalOp_appends_next storeA1 t2 true "git.push"
              (jsonObject "hash" "abc")) as [H _].
  destruct (H opA2 storeA2 callA2_ok) as (_ & H2 & _ & _ & _ & _ & _ & _ & H9).
  split; [exact H2 | exact (H9 Hlast)].
Defined.

(** X23 on the store of node A after two appends. *)
Lemma log_keys_are_unique_witness :
  reachable storeA2 /\
  List.NoDup (map ID (ops storeA2)) /\
  (forall a b, In a (ops storeA2) -> In b (ops storeA2) ->
               Author a = Author b -> Seq a = Seq b -> a = b).
Proof.
  split; [exact reachable_storeA2|].
  destruct (log_keys_are_unique storeA2 reachable_storeA2) as (H1 & H2 & _).
  split; [exact H1 | exact H2].
Defined.

Lemma reachable_storeB0 : reachable storeB0.
Proof.
  exact (reach_remote storeB true opA1 _ _ (reach_new _ _ _)
           (surjective_pairing _)).
Qed.

Lemma storeB0_ops : ops storeB0 = [opA1].
Proof. by vm_compute. Qed.

Lemma ids_differ : ID opA2 <> ID opA1.
Proof. by vm_compute. Qed.

Lemma shared_ids_agree (a b : Operation) :
  In a (ops storeA2) -> In b (ops storeB0) -> ID a = ID b ->
  Author a = Author b /\ Seq a = Seq b.
Proof.
  rewrite storeA2_ops, storeB0_ops.
  intros [<- | [<- | []]] [<- | []] E.
  - split; reflexivity.
  - destruct (ids_differ E).
Qed.

(** X24 for node B, which holds the first operation of node A, and node
    A after two appends. *)
Lemma gossip_round_catches_up_witness :
  reachable storeA2 /\ reachable storeB0 /\
  (forall a b, In a (ops storeA2) -> In b (ops storeB0) -> ID a = ID b ->
               Author a = Author b /\ Seq a = Seq b) /\
  (0 <= 0)%Z /\
  (forall author,
      seqOf (Summary storeA2) author
      <= seqOf (Summary (receive storeB0 true
                           (MissingFor storeA2 (Some (Summary storeB0)) 0)))
               author) /\
  (forall limit',
      MissingFor storeA2
        (Some (Summary (receive storeB0 true
                          (MissingFor storeA2 (Some (Summary storeB0)) 0))))
        limit' = []).
Proof.
  split; [exact reachable_storeA2|]. split; [exact reachable_storeB0|].
  split; [exact shared_ids_agree|]. split; [done|].
  destruct (gossip_round_catches_up storeA2 storeB0 true 0
              reachable_storeA2 reachable_storeB0 shared_ids_agree
              (Z.le_refl 0)) as (_ & _ & H3 & H4).
  split; [exact H3 | exact H4].
Defined.

Lemma storeA_generated :
  generateIdentity (seedOf 1) true = Ok (identity storeA, privateKey storeA).
Proof. by vm_compute. Qed.

Lemma storeA_next :
  seqOf (seqByAuthor storeA) (NodeID (identity storeA)) + 1 < 2 ^ 64.
Proof. by vm_compute. Qed.

(** X25 on the first append of node A, whose identity [generateIdentity]
    made, on the reference library. *)
Lemma AppendLocalOp_builds_witness :
  length (seedOf 1) = SeedSize /\
  generateIdentity (seedOf 1) true = Ok (identity storeA, privateKey storeA) /\
  TrimSpace "git.commit" <> "" /\
  json_Valid emptyObject = true /\
  time_ParseRFC3339Nano t1 = true /\
  exists op,
    verifyOperation op = None /\
    Type_ op = TrimSpace "git.commit" /\
    Author op = NodeID (identity storeA) /\
    Seq op = seqOf (seqByAuthor storeA) (NodeID (identity storeA)) + 1 /\
    Timestamp op = t1 /\ Payload op = emptyObject /\
    (AppendLocalOp storeA t1 true "git.commit" [] = (Ok op, appended storeA op)
     \/ (ID op ∈ opIDs storeA /\
         AppendLocalOp storeA t1 true "git.commit" []
         = (Err ErrAlreadyExists, storeA))
     \/ ((exists existingID,
            authorSeqIndex storeA !! authorSeqKey (Author op) (Seq op)
            = Some existingID /\ existingID <> ID op) /\
         AppendLocalOp storeA t1 true "git.commit" []
         = (Err (ErrConflict (Author op) (Seq op)), storeA))).
Proof.
  assert (length (seedOf 1) = SeedSize) as Hseed by reflexivity.
  assert (TrimSpace "git.commit" <> "") as Htype by done.
  assert (json_Valid emptyObject = true) as Hvalid by reflexivity.
  assert (time_ParseRFC3339Nano t1 = true) as Htime by reflexivity.
  split; [exact Hseed|]. split; [exact storeA_generated|].
  split; [exact Htype|]. split; [exact Hvalid|]. split; [exact Htime|].
  exact (AppendLocalOp_builds storeA (seedOf 1) true t1 "git.commit" []
           Hseed storeA_generated Htype Hvalid Htime storeA_next).
Defined.

(** X26 on node A: the peer is registered though the file could not be
    written, and another spelling of it is then added without a write. *)
Lemma AddPeer_registers_once_witness :
  normalizePeer "127.0.0.1:8787" = Ok "http://127.0.0.1:8787" /\
  normalizePeer "127.0.0.1:8787/" = Ok "http://127.0.0.1:8787" /\
  In "http://127.0.0.1:8787"
     (peers (snd (AddPeer storeA false "127.0.0.1:8787"))) /\
  AddPeer (snd (AddPeer storeA false "127.0.0.1:8787")) false "127.0.0.1:8787/"
  = (Ok "http://127.0.0.1:8787", snd (AddPeer storeA false "127.0.0.1:8787")).
Proof.
  split; [exact normalizePeer_bare|]. split; [exact normalizePeer_slash|].
  destruct (AddPeer_registers_once storeA false "127.0.0.1:8787"
              "http://127.0.0.1:8787" normalizePeer_bare) as (H1 & _ & H3 & _).
  split; [exact H1 | exact (H3 false "127.0.0.1:8787/" normalizePeer_slash)].
Defined.
